(** * World generation pipeline: biomes, terrain rules, regions

    A shallow embedding of the Python sources (biome_types.py, tile_types.py,
    terrain_mapper.py, terrain_renderer.py, biome_rules.py,
    biome_generator.py, region_generator.py) followed by the properties
    established about them.

    Conventions of the embedding:
    - Python [int] is [Z]; Python [float] and numpy [float64] are the
      primitive binary64 [float], so that [0/0] is the IEEE NaN exactly as
      numpy computes it;
    - [str] is [string]; a Python list is a [list]; a dict whose iteration
      order can be observed ([Counter], [defaultdict]) is an association
      list in insertion order;
    - a raised exception is the [Raise] outcome of [result];
    - the global [random] module is an explicit generator state threaded
      through the functions that draw from it;
    - numpy array creations are recorded in an allocation log. *)

From Stdlib Require Import ZArith List String Floats Lia Bool.
Import ListNotations.
Open Scope Z_scope.

Set Warnings "-inexact-float".

(* ================================================================== *)
(** * Part I. The embedding *)
(* ================================================================== *)

(** ** The fragment of the Python runtime the sources rely on

    Lists, dicts and [collections.Counter] behave as in CPython 3.7 and
    later (dicts keep insertion order). *)
Module Py.

Inductive exn : Type :=
| IndexError
| KeyError (key : string)
| ValueError (msg : string)
| ZeroDivisionError
| OverflowError.

Inductive result (A : Type) : Type :=
| Ok (a : A)
| Raise (e : exn).
Arguments Ok {A} a.
Arguments Raise {A} e.

Definition bind {A B} (m : result A) (k : A -> result B) : result B :=
  match m with
  | Ok a => k a
  | Raise e => Raise e
  end.

Definition is_ok {A} (m : result A) : bool :=
  match m with Ok _ => true | Raise _ => false end.

(** [range(n)]: empty when [n <= 0]. *)
Definition range (n : Z) : list Z := map Z.of_nat (seq 0 (Z.to_nat n)).

(** [l[i]], negative indices counting from the end. *)
Definition getitem {A} (l : list A) (i : Z) : result A :=
  let j := if i <? 0 then i + Z.of_nat (List.length l) else i in
  if j <? 0 then Raise IndexError
  else match nth_error l (Z.to_nat j) with
       | Some a => Ok a
       | None => Raise IndexError
       end.

Fixpoint replace_nth {A} (n : nat) (v : A) (l : list A) : list A :=
  match l, n with
  | [], _ => []
  | _ :: t, O => v :: t
  | h :: t, S n' => h :: replace_nth n' v t
  end.

(** [l[i] = v]. *)
Definition setitem {A} (l : list A) (i : Z) (v : A) : result (list A) :=
  let j := if i <? 0 then i + Z.of_nat (List.length l) else i in
  if (j <? 0) || (Z.of_nat (List.length l) <=? j) then Raise IndexError
  else Ok (replace_nth (Z.to_nat j) v l).

(** [g[y][x]] and [g[y][x] = v] on a list of rows. *)
Definition getitem2 {A} (g : list (list A)) (y x : Z) : result A :=
  bind (getitem g y) (fun row => getitem row x).

Definition setitem2 {A} (g : list (list A)) (y x : Z) (v : A)
  : result (list (list A)) :=
  bind (getitem g y) (fun row =>
  bind (setitem row x v) (fun row' => setitem g y row')).

(** Left-to-right loop whose body may raise. *)
Fixpoint foldM {A S} (body : S -> A -> result S) (l : list A) (s : S)
  : result S :=
  match l with
  | [] => Ok s
  | a :: t => bind (body s a) (foldM body t)
  end.

(** [[f(a) for a in l]] where [f] may raise. *)
Fixpoint mapM {A B} (f : A -> result B) (l : list A) : result (list B) :=
  match l with
  | [] => Ok []
  | a :: t => bind (f a) (fun b => bind (mapM f t) (fun bs => Ok (b :: bs)))
  end.

(** A dict literal with string keys, as an association list. *)
Fixpoint dict_find {V} (d : list (string * V)) (k : string) : option V :=
  match d with
  | [] => None
  | (k', v) :: t => if String.eqb k' k then Some v else dict_find t k
  end.

(** [d[k]] *)
Definition dict_getitem {V} (d : list (string * V)) (k : string) : result V :=
  match dict_find d k with
  | Some v => Ok v
  | None => Raise (KeyError k)
  end.

(** [d.get(k, default)] *)
Definition dict_get {V} (d : list (string * V)) (k : string) (default : V) : V :=
  match dict_find d k with
  | Some v => v
  | None => default
  end.

(** [collections.Counter]: keys in order of first insertion. *)
Section Counter.
Context {K : Type} (eqb : K -> K -> bool).

Fixpoint counter_incr (c : list (K * Z)) (k : K) : list (K * Z) :=
  match c with
  | [] => [(k, 1)]
  | (k', n) :: t =>
      if eqb k' k then (k', n + 1) :: t else (k', n) :: counter_incr t k
  end.

(** [Counter(l)] *)
Definition counter_of (l : list K) : list (K * Z) :=
  fold_left counter_incr l [].

(** [max(items, key=itemgetter(1))]: the first item of maximal count. *)
Fixpoint max_item (best : K * Z) (c : list (K * Z)) : K * Z :=
  match c with
  | [] => best
  | kv :: t => max_item (if snd best <? snd kv then kv else best) t
  end.

(** [c.most_common(1)], the list of at most one item. *)
Definition most_common_1 (c : list (K * Z)) : list (K * Z) :=
  match c with
  | [] => []
  | kv :: t => [max_item kv t]
  end.
End Counter.

End Py.

Import Py.

Declare Scope py_scope.
Delimit Scope py_scope with py.
Notation "x <- m ;; k" := (Py.bind m (fun x => k))
  (at level 61, m at next level, right associativity) : py_scope.
Notation "' pat <- m ;; k" := (Py.bind m (fun x => match x with pat => k end))
  (at level 61, pat pattern, m at next level, right associativity) : py_scope.
Open Scope py_scope.

Definition color : Type := (Z * Z * Z)%type.

(** ** biome_types.py *)
Module BiomeType.

Definition OCEAN : string := "ocean".
Definition DESERT : string := "desert".
Definition SWAMP : string := "swamp".
Definition GRASSLAND : string := "grassland".
Definition FOREST : string := "forest".
Definition STEPPE : string := "steppe".
Definition MOUNTAIN : string := "mountain".
Definition SNOW : string := "snow".

(** The eight class attributes, in declaration order. *)
Definition labels : list string :=
  [OCEAN; DESERT; SWAMP; GRASSLAND; FOREST; STEPPE; MOUNTAIN; SNOW].

Definition color_map : list (string * color) :=
  [ (OCEAN, (0, 0, 139));
    (DESERT, (238, 214, 175));
    (SWAMP, (0, 100, 0));
    (GRASSLAND, (34, 139, 34));
    (FOREST, (0, 100, 0));
    (STEPPE, (152, 251, 152));
    (MOUNTAIN, (139, 137, 137));
    (SNOW, (255, 250, 250)) ].

(** [return color_map[biome_type]] *)
Definition get_color (biome_type : string) : result color :=
  dict_getitem color_map biome_type.

End BiomeType.

(** ** tile_types.py: the [.value] of each member of the enum *)
Module TileType.

Definition DEEP_WATER : string := "deep_water".
Definition SHALLOW_WATER : string := "shallow_water".
Definition SAND : string := "sand".
Definition GRASS : string := "grass".
Definition FOREST : string := "forest".
Definition MOUNTAIN : string := "mountain".

End TileType.

(** ** terrain_mapper.py *)
Module TerrainMapper.

Definition biome_to_terrain : list (string * string) :=
  [ (BiomeType.OCEAN, TileType.DEEP_WATER);
    (BiomeType.SWAMP, TileType.SHALLOW_WATER);
    (BiomeType.DESERT, TileType.SAND);
    (BiomeType.FOREST, TileType.FOREST);
    (BiomeType.GRASSLAND, TileType.GRASS);
    (BiomeType.STEPPE, TileType.GRASS);
    (BiomeType.MOUNTAIN, TileType.MOUNTAIN);
    (BiomeType.SNOW, TileType.MOUNTAIN) ].

Definition get_terrain_for_biome (biome : string) : string :=
  dict_get biome_to_terrain biome TileType.GRASS.

(** The width is the length of the first row; a shorter later row raises
    [IndexError], a longer one is cut. *)
Definition translate_biomes (biome_map : list (list string))
  : result (list (list string)) :=
  let height := Z.of_nat (List.length biome_map) in
  row0 <- getitem biome_map 0 ;;
  let width := Z.of_nat (List.length row0) in
  mapM (fun y =>
    mapM (fun x =>
      biome <- getitem2 biome_map y x ;;
      Ok (dict_get biome_to_terrain biome TileType.GRASS))
      (range width))
    (range height).

End TerrainMapper.

(** ** terrain_renderer.py: the palette and its lookup *)
Module TerrainRenderer.

Definition terrain_colors : list (string * color) :=
  [ ("deep_water"%string, (0, 0, 128));
    ("shallow_water"%string, (0, 128, 192));
    ("sand"%string, (237, 201, 175));
    ("grass"%string, (34, 139, 34));
    ("forest"%string, (0, 100, 0));
    ("dirt"%string, (139, 69, 19));
    ("mountain"%string, (169, 169, 169));
    ("snow"%string, (255, 250, 250)) ].

(** [self.terrain_colors.get(terrain_map[y][x], (255, 0, 255))] *)
Definition tile_color (terrain : string) : color :=
  dict_get terrain_colors terrain (255, 0, 255).

End TerrainRenderer.

(** ** biome_rules.py *)
Module BiomeRuleEngine.

Definition grid : Type := list (list string).

(** The pairs [(dx, dy)] in the order of the two nested loops over
    [[-1, 0, 1]], the centre skipped. *)
Definition offsets : list (Z * Z) :=
  flat_map (fun dy =>
    flat_map (fun dx =>
      if (dx =? 0) && (dy =? 0) then [] else [(dx, dy)])
      [-1; 0; 1])
    [-1; 0; 1].

Definition _get_neighbors (terrain_map : grid) (x y : Z) : result (list string) :=
  let height := Z.of_nat (List.length terrain_map) in
  row0 <- getitem terrain_map 0 ;;
  let width := Z.of_nat (List.length row0) in
  mapM (fun '(dx, dy) =>
    let nx := x + dx in
    let ny := y + dy in
    if (0 <=? nx) && (nx <? width) && (0 <=? ny) && (ny <? height)
    then getitem2 terrain_map ny nx
    else Ok ""%string)
    offsets.

(** [v in l] and [l.count(v)] on lists of strings. *)
Definition contains (v : string) (l : list string) : bool :=
  existsb (String.eqb v) l.

Definition count (v : string) (l : list string) : Z :=
  Z.of_nat (List.length (filter (String.eqb v) l)).

(** Rule 1: mountain next to deep water becomes forest. *)
Definition _rule_mountain_water (terrain_map : grid) (x y : Z) : result string :=
  c <- getitem2 terrain_map y x ;;
  if negb (String.eqb c TileType.MOUNTAIN) then getitem2 terrain_map y x
  else
    neighbors <- _get_neighbors terrain_map x y ;;
    if contains TileType.DEEP_WATER neighbors then Ok TileType.FOREST
    else getitem2 terrain_map y x.

(** Rule 2: grass with at least five sand neighbours becomes sand. *)
Definition _rule_isolated_grass (terrain_map : grid) (x y : Z) : result string :=
  c <- getitem2 terrain_map y x ;;
  if negb (String.eqb c TileType.GRASS) then getitem2 terrain_map y x
  else
    neighbors <- _get_neighbors terrain_map x y ;;
    let sand_count := count TileType.SAND neighbors in
    if 5 <=? sand_count then Ok TileType.SAND
    else getitem2 terrain_map y x.

(** Rule 3: shallow water with at least six grass or sand neighbours
    becomes sand. *)
Definition _rule_isolated_water (terrain_map : grid) (x y : Z) : result string :=
  c <- getitem2 terrain_map y x ;;
  if negb (String.eqb c TileType.SHALLOW_WATER) then getitem2 terrain_map y x
  else
    neighbors <- _get_neighbors terrain_map x y ;;
    let land_count :=
      count TileType.GRASS neighbors + count TileType.SAND neighbors in
    if 6 <=? land_count then Ok TileType.SAND
    else getitem2 terrain_map y x.

(** Rule 4: forest with no grass or forest neighbour becomes grass. *)
Definition _rule_isolated_forest (terrain_map : grid) (x y : Z) : result string :=
  c <- getitem2 terrain_map y x ;;
  if negb (String.eqb c TileType.FOREST) then getitem2 terrain_map y x
  else
    neighbors <- _get_neighbors terrain_map x y ;;
    let valid_neighbors := [TileType.GRASS; TileType.FOREST] in
    if negb (existsb (fun n => contains n valid_neighbors) neighbors)
    then Ok TileType.GRASS
    else getitem2 terrain_map y x.

Definition rule : Type := grid -> Z -> Z -> result string.

(** [self.rules] *)
Definition rules : list rule :=
  [ _rule_mountain_water; _rule_isolated_grass;
    _rule_isolated_water; _rule_isolated_forest ].

(** The [for rule in self.rules] loop for the cell [(x, y)]: every rule is
    handed [new_map], the grid that is also written; the first rule whose
    result differs from [current_type] is stored and ends the loop. *)
Fixpoint apply_cell (rs : list rule) (new_map : grid) (x y : Z)
    (current_type : string) : result grid :=
  match rs with
  | [] => Ok new_map
  | r :: rest =>
      new_type <- r new_map x y ;;
      if negb (String.eqb new_type current_type)
      then setitem2 new_map y x new_type
      else apply_cell rest new_map x y current_type
  end.

(** [new_map = [row[:] for row in terrain_map]] is a copy of immutable
    strings: in a value semantics it is [terrain_map] itself. *)
Definition apply_rules (terrain_map : grid) : result grid :=
  let height := Z.of_nat (List.length terrain_map) in
  row0 <- getitem terrain_map 0 ;;
  let width := Z.of_nat (List.length row0) in
  let new_map := terrain_map in
  foldM (fun new_map y =>
    foldM (fun new_map x =>
      current_type <- getitem2 new_map y x ;;
      apply_cell rules new_map x y current_type)
      (range width) new_map)
    (range height) new_map.

End BiomeRuleEngine.

(** ** The numpy operations used by the noise generator

    numpy is a dependency of the sources, not part of them: the
    definitions below follow its documented behaviour on float64 arrays,
    a 1-D array being a list and a 2-D array a list of rows.  With the
    default error state a float division by zero is not an exception: it
    yields NaN or an infinity (and a warning). *)
Module Np.

(** The shape of an array that was created. *)
Definition shape : Type := list Z.

(** A computation that may raise, together with the arrays it created
    before returning or raising. *)
Definition traced (A : Type) : Type := (list shape * result A)%type.

Definition tret {A} (a : A) : traced A := ([], Ok a).

Definition tbind {A B} (m : traced A) (k : A -> traced B) : traced B :=
  match m with
  | (l, Ok a) => let (l', r) := k a in (l ++ l', r)
  | (l, Raise e) => (l, Raise e)
  end.

Definition lift {A} (r : result A) : traced A := ([], r).

Definition alloc {A} (s : shape) (a : A) : traced A := ([s], Ok a).

(** A non-negative Python int below [2^63] as a float64. *)
Definition of_int (z : Z) : float := PrimFloat.of_uint63 (Uint63.of_Z z).

Fixpoint set_last (l : list float) (v : float) : list float :=
  match l with
  | [] => []
  | [_] => [v]
  | h :: t => h :: set_last t v
  end.

(** [np.linspace(start, stop, num)] with the default [endpoint=True]; the
    error message is numpy's without the number of samples. *)
Definition linspace (start stop : float) (num : Z) : traced (list float) :=
  if num <? 0
  then lift (Raise (ValueError "Number of samples must be non-negative."))
  else
    let div := num - 1 in
    let delta := (stop - start)%float in
    let y := map of_int (range num) in
    let y :=
      if 0 <? div then
        let step := (delta / of_int div)%float in
        if PrimFloat.eqb step 0
        then map (fun v => (v / of_int div * delta)%float) y
        else map (fun v => (v * step)%float) y
      else map (fun v => (v * delta)%float) y in
    let y := map (fun v => (v + start)%float) y in
    alloc [num] (if 1 <? num then set_last y stop else y).

(** [np.meshgrid(x, y)]: two arrays of shape [(len(y), len(x))]. *)
Definition meshgrid (x y : list float)
  : traced (list (list float) * list (list float)) :=
  let s := [Z.of_nat (List.length y); Z.of_nat (List.length x)] in
  tbind (alloc s (map (fun _ => x) y)) (fun X =>
  tbind (alloc s (map (fun yv => map (fun _ => yv) x) y)) (fun Y =>
  tret (X, Y))).

(** [np.zeros((height, width))] *)
Definition zeros (height width : Z) : traced (list (list float)) :=
  if (height <? 0) || (width <? 0)
  then lift (Raise (ValueError "negative dimensions are not allowed"))
  else alloc [height; width]
         (repeat (repeat 0%float (Z.to_nat width)) (Z.to_nat height)).

(** Reductions propagate NaN. *)
Definition fmin (a b : float) : float :=
  if PrimFloat.is_nan a then a
  else if PrimFloat.is_nan b then b
  else if PrimFloat.ltb b a then b else a.

Definition fmax (a b : float) : float :=
  if PrimFloat.is_nan a then a
  else if PrimFloat.is_nan b then b
  else if PrimFloat.ltb a b then b else a.

(** [a.min()] and [a.max()] over all the cells of a 2-D array. *)
Definition min (a : list (list float)) : result float :=
  match List.concat a with
  | [] => Raise (ValueError
      "zero-size array to reduction operation minimum which has no identity")
  | v :: t => Ok (fold_left fmin t v)
  end.

Definition max (a : list (list float)) : result float :=
  match List.concat a with
  | [] => Raise (ValueError
      "zero-size array to reduction operation maximum which has no identity")
  | v :: t => Ok (fold_left fmax t v)
  end.

(** Cell by cell operations on arrays of one shape. *)
Definition map2d (f : float -> float) (a : list (list float)) : list (list float) :=
  map (map f) a.

Definition zip2d (f : float -> float -> float) (a b : list (list float))
  : list (list float) :=
  map (fun '(ra, rb) => map (fun '(va, vb) => f va vb) (combine ra rb))
      (combine a b).

End Np.

Notation "x <~ m ;; k" := (Np.tbind m (fun x => k))
  (at level 61, m at next level, right associativity) : py_scope.
Notation "' pat <~ m ;; k" := (Np.tbind m (fun x => match x with pat => k end))
  (at level 61, pat pattern, m at next level, right associativity) : py_scope.

(** ** Double precision, as Python ints and floats meet it

    A float is a value of the Standard Library's specification of IEEE 754
    binary64.  The quotient [a / b] of two Python ints is the correctly
    rounded quotient of the two integers, whatever their size: it is
    rounded once, from the exact integers. *)
Module Float64.

Definition prec : Z := 53.
Definition emax : Z := 1024.

(** An int as the exact operand of a division. *)
Definition of_int (z : Z) : spec_float :=
  match z with
  | Z0 => S754_zero false
  | Zpos p => S754_finite false p 0
  | Zneg p => S754_finite true p 0
  end.

(** [a / b] on ints: [ZeroDivisionError] on a zero divisor, [OverflowError]
    when the rounded quotient is no finite float; a quotient too small for
    a float is a zero of the quotient's sign. *)
Definition true_divide (a b : Z) : result spec_float :=
  if b =? 0 then Raise ZeroDivisionError
  else match SFdiv prec emax (of_int a) (of_int b) with
       | S754_infinity _ => Raise OverflowError
       | q => Ok q
       end.

(** [np.sqrt] on one float64: NaN below zero, [-0.0] at [-0.0]. *)
Definition np_sqrt (x : spec_float) : spec_float := SFsqrt prec emax x.

(** [int(x)]: the integer part; NaN and the infinities are refused. *)
Definition int (x : spec_float) : result Z :=
  match x with
  | S754_nan => Raise (ValueError "cannot convert float NaN to integer")
  | S754_infinity _ => Raise OverflowError
  | S754_zero _ => Ok 0
  | S754_finite s m e =>
      let n := if 0 <=? e then Zpos m * 2 ^ e else Zpos m / 2 ^ (- e) in
      Ok (if s then - n else n)
  end.

End Float64.

(** ** The global generator of the [random] module *)
Module Random.

(** What the sources use of the generator: seeding, [random()] and
    [randint(a, b)].  The algorithm behind them is left open. *)
Class Source (G : Type) : Type := {
  seeded : Z -> G;
  random : G -> float * G;
  randint : Z -> Z -> G -> Z * G
}.

(** [random.uniform(a, b)] is [a + (b - a) * random()]. *)
Definition uniform {G} `{Source G} (a b : float) (g : G) : float * G :=
  let (u, g') := random g in ((a + (b - a) * u)%float, g').

(** A source that replays a fixed script of draws (then zeros), used to run
    the functions on concrete inputs. *)
Definition scripted (script : Z -> list float) : Source (list float) :=
  {| seeded := script;
     random := fun g => match g with [] => (0%float, []) | u :: t => (u, t) end;
     randint := fun a _ g => (a, g) |}.

(** The scripted source whose state is the list of the draws to come. *)
Definition replay : Source (list float) := scripted (fun _ => []).

End Random.

(** ** PIL images, as far as the renderers use them

    An image is its size and the pixels written so far, the latest first;
    a pixel never written is black.  [Image.new] refuses a negative side;
    pixel access counts a negative coordinate from the far edge and raises
    [IndexError] outside the image. *)
Module Image.

Record t : Type := { size : Z * Z; data : list ((Z * Z) * color) }.

Definition new (size : Z * Z) : result t :=
  if (fst size <? 0) || (snd size <? 0)
  then Raise (ValueError "Width and height must be >= 0")
  else Ok {| size := size; data := [] |}.

Definition index (n i : Z) : result Z :=
  let i := if i <? 0 then n + i else i in
  if (0 <=? i) && (i <? n) then Ok i else Raise IndexError.

Definition xy_eqb (p q : Z * Z) : bool :=
  (fst p =? fst q) && (snd p =? snd q).

Definition pixel_at (im : t) (xy : Z * Z) : color :=
  match find (fun e => xy_eqb (fst e) xy) (data im) with
  | Some e => snd e
  | None => (0, 0, 0)
  end.

(** [pixels[x, y] = c] *)
Definition putpixel (im : t) (xy : Z * Z) (c : color) : result t :=
  x <- index (fst (size im)) (fst xy) ;;
  y <- index (snd (size im)) (snd xy) ;;
  Ok {| size := size im; data := ((x, y), c) :: data im |}.

(** [pixels[x, y]] *)
Definition getpixel (im : t) (xy : Z * Z) : result color :=
  x <- index (fst (size im)) (fst xy) ;;
  y <- index (snd (size im)) (snd xy) ;;
  Ok (pixel_at im (x, y)).

End Image.

(** ** biome_generator.py *)
Module BiomeGenerator.

Record self : Type := { width : Z; height : Z; seed : Z }.

(** [np.random.seed] accepts only seeds that fit 32 bits. *)
Definition np_random_seed (s : Z) : result unit :=
  if (0 <=? s) && (s <=? 2 ^ 32 - 1) then Ok tt
  else Raise (ValueError "Seed must be between 0 and 2**32 - 1").

Definition __init__ {G} `{Random.Source G}
    (width height : Z) (seed : option Z) (g : G) : result self * G :=
  let '(seed, g) :=
    match seed with
    | Some s => (s, g)
    | None => Random.randint 0 (2 ^ 32 - 1) g
    end in
  let g := Random.seeded seed in
  (_ <- np_random_seed seed ;;
   Ok {| width := width; height := height; seed := seed |}, g).

Section Noise.
(** [np.sin] and [np.cos] on one float64. *)
Variables np_sin np_cos : float -> float.

(** The loop [for octave in range(octaves)], adding one wave per octave
    to every cell of [noise]. *)
Definition add_octaves (X Y noise : list (list float)) (octaves : Z)
  : list (list float) :=
  fold_left (fun noise octave =>
    let current_scale := Np.of_int (2 ^ octave) in
    Np.zip2d PrimFloat.add noise
      (Np.map2d (fun v => (v / current_scale)%float)
         (Np.zip2d PrimFloat.mul
            (Np.map2d (fun v => np_sin (v * current_scale)%float) X)
            (Np.map2d (fun v => np_cos (v * current_scale)%float) Y))))
    (range octaves) noise.

(** [(noise - noise.min()) / (noise.max() - noise.min())] *)
Definition normalize (noise : list (list float)) : result (list (list float)) :=
  lo <- Np.min noise ;;
  hi <- Np.max noise ;;
  lo' <- Np.min noise ;;
  Ok (Np.map2d (fun v => ((v - lo) / (hi - lo'))%float) noise).

Definition _generate_noise_map (s : self) (scale : float) (octaves : Z)
  : Np.traced (list (list float)) :=
  x <~ Np.linspace 0 scale (width s) ;;
  y <~ Np.linspace 0 scale (height s) ;;
  '(X, Y) <~ Np.meshgrid x y ;;
  noise <~ Np.zeros (height s) (width s) ;;
  let noise := add_octaves X Y noise octaves in
  noise <~ Np.lift (normalize noise) ;;
  Np.alloc [height s; width s] noise.

Definition _get_biome (elevation moisture : float) : string :=
  if PrimFloat.ltb elevation 0.2 then BiomeType.OCEAN
  else if PrimFloat.ltb 0.8 elevation then
    if PrimFloat.ltb 0.5 moisture then BiomeType.SNOW else BiomeType.MOUNTAIN
  else if PrimFloat.ltb 0.5 elevation then
    if PrimFloat.ltb 0.7 moisture then BiomeType.FOREST
    else if PrimFloat.ltb 0.4 moisture then BiomeType.GRASSLAND
    else BiomeType.STEPPE
  else
    if PrimFloat.ltb 0.7 moisture then BiomeType.SWAMP
    else if PrimFloat.ltb 0.4 moisture then BiomeType.GRASSLAND
    else BiomeType.DESERT.

Definition generate (s : self)
  : Np.traced (list (list string) * list (list string)) :=
  elevation_map <~ _generate_noise_map s 4.0 4 ;;
  moisture_map <~ _generate_noise_map s 3.0 3 ;;
  biome_map <~ Np.lift
    (mapM (fun y =>
       mapM (fun x =>
         elevation <- getitem2 elevation_map y x ;;
         moisture <- getitem2 moisture_map y x ;;
         Ok (_get_biome elevation moisture))
         (range (width s)))
       (range (height s))) ;;
  terrain_map <~ Np.lift (TerrainMapper.translate_biomes biome_map) ;;
  Np.tret (biome_map, terrain_map).
End Noise.

(** [render_to_image], up to saving the image: the image is created, then
    every cell's colour is looked up and written, row by row. *)
Definition render_to_image (s : self) (biome_map : list (list string))
  : result Image.t :=
  image <- Image.new (width s, height s) ;;
  foldM (fun pixels y =>
    foldM (fun pixels x =>
      biome <- getitem2 biome_map y x ;;
      c <- BiomeType.get_color biome ;;
      Image.putpixel pixels (x, y) c)
      (range (width s)) pixels)
    (range (height s)) image.

End BiomeGenerator.

(** ** region_generator.py *)
Module RegionGenerator.

Definition point : Type := (Z * Z)%type.

Definition point_eqb (p q : point) : bool :=
  (fst p =? fst q) && (snd p =? snd q).

(** [np.random.seed] is shared with the biome generator. *)
Definition __init__ {G} `{Random.Source G} (seed : option Z) (g : G)
  : result Z * G :=
  let '(seed, g) :=
    match seed with
    | Some s => (s, g)
    | None => Random.randint 0 (2 ^ 32 - 1) g
    end in
  let g := Random.seeded seed in
  (_ <- BiomeGenerator.np_random_seed seed ;; Ok seed, g).

Definition biome_weights : list (string * float) :=
  [ ("ocean"%string, 0.1%float);
    ("swamp"%string, 0.4%float);
    ("desert"%string, 0.6%float);
    ("grassland"%string, 1.0%float);
    ("forest"%string, 1.2%float);
    ("mountain"%string, 0.2%float);
    ("snow"%string, 0.4%float) ].

Definition _manhattan_distance (x1 y1 x2 y2 : Z) : Z :=
  Z.abs (x1 - x2) + Z.abs (y1 - y2).

Definition _get_biome_weight (biome : string) : float :=
  dict_get biome_weights biome 0.5%float.

(** The cells of a [width] by [height] map in the order of
    [for y in range(height): for x in range(width)], as [(x, y)]. *)
Definition cells (width height : Z) : list point :=
  flat_map (fun y => map (fun x => (x, y)) (range width)) (range height).

(** [int(np.sqrt((width * height) / (num_regions * 2)))]: the products are
    exact ints, the quotient and its square root are floats. *)
Definition min_distance_of (width height num_regions : Z) : result Z :=
  q <- Float64.true_divide (width * height) (num_regions * 2) ;;
  Float64.int (Float64.np_sqrt q).

(** An entry [(x, y, weight)] of [valid_positions]. *)
Definition position : Type := (Z * Z * float)%type.

(** [valid_positions.sort(key=lambda x: x[2], reverse=True)]: descending
    weights, entries of equal weight in their original order. *)
Fixpoint insert_desc (p : position) (l : list position) : list position :=
  match l with
  | [] => [p]
  | q :: t =>
      if PrimFloat.ltb (snd q) (snd p) then p :: q :: t
      else q :: insert_desc p t
  end.

Definition sort_desc (l : list position) : list position :=
  fold_left (fun acc p => insert_desc p acc) l [].

(** [sum(w for _, _, w in valid_positions)] *)
Definition total_weight_of (vp : list position) : float :=
  fold_left (fun acc p => (acc + snd p)%float) vp 0%float.

(** The [for x, y, weight in valid_positions] scan up to its [break]: the
    first entry at which the running weight reaches [r]. *)
Fixpoint select (vp : list position) (current_weight r : float)
  : option position :=
  match vp with
  | [] => None
  | p :: t =>
      let current_weight := (current_weight + snd p)%float in
      if PrimFloat.leb r current_weight then Some p
      else select t current_weight r
  end.

(** The variables of the [while] loop. *)
Record loop_state : Type := {
  seeds : list point;
  valid_positions : list position;
  attempts : Z
}.

Definition too_close (min_distance x y : Z) (seeds : list point) : bool :=
  existsb (fun '(sx, sy) => _manhattan_distance x y sx sy <? min_distance) seeds.

Section SeedSelection.
Context {G : Type} `{Random.Source G}.

(** One iteration of the [while] loop. *)
Definition attempt (min_distance : Z) (st : loop_state) (g : G)
  : loop_state * G :=
  let total_weight := total_weight_of (valid_positions st) in
  let (r, g) := Random.uniform 0 total_weight g in
  let '(seeds', valid') :=
    match select (valid_positions st) 0 r with
    | Some (x, y, _) =>
        if negb (too_close min_distance x y (seeds st))
        then (seeds st ++ [(x, y)],
              filter (fun '(px, py, _) =>
                        min_distance <=? _manhattan_distance px py x y)
                     (valid_positions st))
        else (seeds st, valid_positions st)
    | None => (seeds st, valid_positions st)
    end in
  ({| seeds := seeds'; valid_positions := valid';
      attempts := attempts st + 1 |}, g).

Definition loop_guard (num_regions max_attempts : Z) (st : loop_state) : bool :=
  (Z.of_nat (List.length (seeds st)) <? num_regions)
  && (attempts st <? max_attempts).

(** [while len(seeds) < num_regions and attempts < max_attempts], unrolled
    at most [n] times. *)
Fixpoint while_loop (n : nat) (min_distance num_regions max_attempts : Z)
    (st : loop_state) (g : G) : loop_state * G :=
  match n with
  | O => (st, g)
  | S n' =>
      if loop_guard num_regions max_attempts st then
        let (st', g') := attempt min_distance st g in
        while_loop n' min_distance num_regions max_attempts st' g'
      else (st, g)
  end.

(** The function up to the end of its loop; [attempts] starts at 0 and
    grows by one per iteration, so [max_attempts] unrollings exhaust
    the loop. *)
Definition seed_search (width height num_regions : Z)
    (biome_map : list (list string)) (g : G) : result loop_state * G :=
  match
    (min_distance <- min_distance_of width height num_regions ;;
     let max_attempts := num_regions * 100 in
     valid_positions <-
       mapM (fun '(x, y) =>
               biome <- getitem2 biome_map y x ;;
               Ok (x, y, _get_biome_weight biome))
            (cells width height) ;;
     Ok (min_distance, max_attempts, sort_desc valid_positions))
  with
  | Raise e => (Raise e, g)
  | Ok (min_distance, max_attempts, valid_positions) =>
      let (st, g') :=
        while_loop (Z.to_nat max_attempts) min_distance num_regions
          max_attempts
          {| seeds := []; valid_positions := valid_positions; attempts := 0 |}
          g in
      (Ok st, g')
  end.

Definition _generate_seed_points (width height num_regions : Z)
    (biome_map : list (list string)) (min_region_size : Z) (g : G)
  : result (list point) * G :=
  let (r, g') := seed_search width height num_regions biome_map g in
  (st <- r ;; Ok (seeds st), g').
End SeedSelection.

(** An entry of [region_data]. *)
Record Region : Type := {
  region_id : Z;
  seed : point;
  area : Z;
  tiles : list point;
  biome_counts : list (string * Z);
  dominant_biome : option string;
  centroid : point
}.

(** The factory of the [defaultdict]. *)
Definition default_region : Region :=
  {| region_id := -1; seed := (0, 0); area := 0; tiles := [];
     biome_counts := []; dominant_biome := None; centroid := (0, 0) |}.

(** [region_data]: the entries in insertion order. *)
Definition region_table : Type := list (Z * Region).

Fixpoint lookup (k : Z) (d : region_table) : option Region :=
  match d with
  | [] => None
  | (k', v) :: t => if k' =? k then Some v else lookup k t
  end.

(** An in-place change of [region_data[k]]; a missing key is first bound
    to the default entry. *)
Fixpoint modify (k : Z) (f : Region -> Region) (d : region_table) : region_table :=
  match d with
  | [] => [(k, f default_region)]
  | (k', v) :: t =>
      if k' =? k then (k', f v) :: t else (k', v) :: modify k f t
  end.

(** [s.add(p)] on a set of points kept as a duplicate-free list. *)
Definition set_add (p : point) (s : list point) : list point :=
  if existsb (point_eqb p) s then s else s ++ [p].

(** [for i, (x, y) in enumerate(seeds): region_data[i].update({...})] *)
Fixpoint init_regions (i : Z) (seeds : list point) (d : region_table)
  : region_table :=
  match seeds with
  | [] => d
  | (x, y) :: t =>
      init_regions (i + 1) t
        (modify i (fun _ =>
           {| region_id := i; seed := (x, y); area := 0; tiles := [];
              biome_counts := []; dominant_biome := None;
              centroid := (x, y) |}) d)
  end.

(** The scan [for i, (sx, sy) in enumerate(seeds)]; [min_dist] is [None]
    while it is still [float('inf')]. *)
Fixpoint nearest_from (x y : Z) (seeds : list point) (i : Z)
    (min_dist : option Z) (nearest_region : Z) : Z :=
  match seeds with
  | [] => nearest_region
  | (sx, sy) :: t =>
      let dist := _manhattan_distance x y sx sy in
      if match min_dist with None => true | Some m => dist <? m end
      then nearest_from x y t (i + 1) (Some dist) i
      else nearest_from x y t (i + 1) min_dist nearest_region
  end.

Definition nearest_seed (x y : Z) (seeds : list point) : Z :=
  nearest_from x y seeds 0 None (-1).

(** The body of the assignment loop for the cell [(x, y)]. *)
Definition assign_cell (seeds : list point) (biome_map : list (list string))
    (st : list (list Z) * region_table) (c : point)
  : result (list (list Z) * region_table) :=
  let '(region_map, region_data) := st in
  let '(x, y) := c in
  let nearest_region := nearest_seed x y seeds in
  region_map <- setitem2 region_map y x nearest_region ;;
  biome <- getitem2 biome_map y x ;;
  Ok (region_map,
      modify nearest_region (fun r =>
        {| region_id := region_id r; seed := seed r;
           area := area r + 1;
           tiles := set_add (x, y) (tiles r);
           biome_counts := counter_incr String.eqb (biome_counts r) biome;
           dominant_biome := dominant_biome r;
           centroid := centroid r |}) region_data).

Definition sum (l : list Z) : Z := fold_left Z.add l 0.

(** The body of the last loop: dominant biome and centroid of one entry. *)
Definition finalize (data : Region) : result Region :=
  let dominant :=
    match most_common_1 (biome_counts data) with
    | (b, _) :: _ => Some b
    | [] => dominant_biome data
    end in
  match tiles data with
  | [] =>
      Ok {| region_id := region_id data; seed := seed data; area := area data;
            tiles := tiles data; biome_counts := biome_counts data;
            dominant_biome := dominant; centroid := centroid data |}
  | _ :: _ =>
      let x_sum := sum (map fst (tiles data)) in
      let y_sum := sum (map snd (tiles data)) in
      if area data =? 0 then Raise ZeroDivisionError
      else
        Ok {| region_id := region_id data; seed := seed data;
              area := area data; tiles := tiles data;
              biome_counts := biome_counts data; dominant_biome := dominant;
              centroid := (x_sum / area data, y_sum / area data) |}
  end.

Definition _assign_tiles_to_regions (width height : Z) (seeds : list point)
    (biome_map : list (list string))
  : result (list (list Z) * region_table) :=
  let region_map :=
    repeat (repeat (-1) (Z.to_nat width)) (Z.to_nat height) in
  let region_data := init_regions 0 seeds [] in
  '(region_map, region_data) <-
     foldM (assign_cell seeds biome_map) (cells width height)
       (region_map, region_data) ;;
  region_data <-
     mapM (fun '(k, data) => data' <- finalize data ;; Ok (k, data'))
       region_data ;;
  Ok (region_map, region_data).

(** The in-bounds neighbours of [(x, y)] in scan order, read from
    [smoothed]. *)
Definition neighbor_ids (smoothed : list (list Z)) (width height x y : Z)
  : result (list Z) :=
  foldM (fun neighbors '(dx, dy) =>
    let nx := x + dx in
    let ny := y + dy in
    if (0 <=? nx) && (nx <? width) && (0 <=? ny) && (ny <? height)
    then v <- getitem2 smoothed ny nx ;; Ok (neighbors ++ [v])
    else Ok neighbors)
    BiomeRuleEngine.offsets [].

(** One smoothing pass: reads [smoothed], writes a copy of it. *)
Definition smooth_pass (width height : Z) (smoothed : list (list Z))
  : result (list (list Z)) :=
  foldM (fun new_map '(x, y) =>
    neighbors <- neighbor_ids smoothed width height x y ;;
    match most_common_1 (counter_of Z.eqb neighbors) with
    | (v, _) :: _ => setitem2 new_map y x v
    | [] => Ok new_map
    end)
    (cells width height) smoothed.

Definition _smooth_regions (region_map : list (list Z)) (iterations : Z)
  : result (list (list Z)) :=
  let height := Z.of_nat (List.length region_map) in
  row0 <- getitem region_map 0 ;;
  let width := Z.of_nat (List.length row0) in
  foldM (fun smoothed _ => smooth_pass width height smoothed)
    (range iterations) region_map.

Definition generate_regions {G} `{Random.Source G}
    (width height num_regions : Z) (biome_map : list (list string))
    (min_region_size : Z) (g : G)
  : result (list (list Z) * list point * region_table) * G :=
  let (r, g') :=
    _generate_seed_points width height num_regions biome_map min_region_size g in
  (seeds <- r ;;
   '(region_map, region_data) <-
      _assign_tiles_to_regions width height seeds biome_map ;;
   region_map <- _smooth_regions region_map 2 ;;
   Ok (region_map, seeds, region_data), g').

End RegionGenerator.

(** ** The pipeline of [main] in region_generator.py, for any dimensions,
    seed and number of regions: a biome generator and a region generator
    built from the same seed, the biome map handed to the region
    generator. *)
Module Pipeline.

Record world : Type := {
  biome_map : list (list string);
  terrain_map : list (list string);
  region_map : list (list Z);
  region_seeds : list RegionGenerator.point;
  region_data : RegionGenerator.region_table
}.

Definition run {G} `{Random.Source G} (np_sin np_cos : float -> float)
    (width height : Z) (seed : option Z) (num_regions : Z) (g : G)
  : result world * G :=
  let (biome_gen, g) := BiomeGenerator.__init__ width height seed g in
  match (s <- biome_gen ;;
         snd (BiomeGenerator.generate np_sin np_cos s)) with
  | Raise e => (Raise e, g)
  | Ok (biome_map, terrain_map) =>
      let (region_gen, g) := RegionGenerator.__init__ seed g in
      match region_gen with
      | Raise e => (Raise e, g)
      | Ok _ =>
          let (r, g) :=
            RegionGenerator.generate_regions width height num_regions
              biome_map 20 g in
          ('(region_map, seeds, region_data) <- r ;;
           Ok {| biome_map := biome_map; terrain_map := terrain_map;
                 region_map := region_map; region_seeds := seeds;
                 region_data := region_data |}, g)
      end
  end.

End Pipeline.

(** ** tile_types.py: the enumeration itself *)
Module TileTypeEnum.

Inductive t : Type :=
| DEEP_WATER | SHALLOW_WATER | SAND | GRASS | FOREST | MOUNTAIN.

(** The members in definition order. *)
Definition members : list t :=
  [DEEP_WATER; SHALLOW_WATER; SAND; GRASS; FOREST; MOUNTAIN].

(** [member.value] *)
Definition value (m : t) : string :=
  match m with
  | DEEP_WATER => TileType.DEEP_WATER
  | SHALLOW_WATER => TileType.SHALLOW_WATER
  | SAND => TileType.SAND
  | GRASS => TileType.GRASS
  | FOREST => TileType.FOREST
  | MOUNTAIN => TileType.MOUNTAIN
  end.

Definition eqb (a b : t) : bool := String.eqb (value a) (value b).

(** [TileType(s)]: the member whose value is [s]; [ValueError] when there
    is none (the message is left out). *)
Definition of_value (s : string) : result t :=
  match find (fun m => String.eqb (value m) s) members with
  | Some m => Ok m
  | None => Raise (ValueError "is not a valid TileType")
  end.

Definition color_map : list (t * color) :=
  [ (DEEP_WATER, (0, 0, 139));
    (SHALLOW_WATER, (0, 0, 255));
    (SAND, (238, 214, 175));
    (GRASS, (34, 139, 34));
    (FOREST, (0, 100, 0));
    (MOUNTAIN, (139, 137, 137)) ].

(** [return color_map[tile_type]] *)
Definition get_color (tile_type : t) : result color :=
  match find (fun kv => eqb (fst kv) tile_type) color_map with
  | Some (_, c) => Ok c
  | None => Raise (KeyError (value tile_type))
  end.

End TileTypeEnum.

(** ** tilemap_generator.py *)
Module WorldMapGenerator.

Record self : Type := { width : Z; height : Z; seed : Z }.

Definition __init__ {G} `{Random.Source G}
    (width height : Z) (seed : option Z) (g : G) : result self * G :=
  let '(seed, g) :=
    match seed with
    | Some s => (s, g)
    | None => Random.randint 0 (2 ^ 32 - 1) g
    end in
  let g := Random.seeded seed in
  (_ <- BiomeGenerator.np_random_seed seed ;;
   Ok {| width := width; height := height; seed := seed |}, g).

Section Noise.
Variables np_sin np_cos : float -> float.

Definition _generate_noise_map (s : self) : Np.traced (list (list float)) :=
  x <~ Np.linspace 0 4 (width s) ;;
  y <~ Np.linspace 0 4 (height s) ;;
  '(X, Y) <~ Np.meshgrid x y ;;
  noise <~ Np.zeros (height s) (width s) ;;
  let noise :=
    fold_left (fun noise octave =>
      let scale := Np.of_int (2 ^ octave) in
      Np.zip2d PrimFloat.add noise
        (Np.map2d (fun v => (v / scale)%float)
           (Np.zip2d PrimFloat.mul
              (Np.map2d (fun v => np_sin (v * scale)%float) X)
              (Np.map2d (fun v => np_cos (v * scale)%float) Y))))
      (range 4) noise in
  noise <~ Np.lift (BiomeGenerator.normalize noise) ;;
  Np.alloc [height s; width s] noise.

Definition _noise_to_terrain (noise_value : float) : TileTypeEnum.t :=
  if PrimFloat.ltb noise_value 0.2 then TileTypeEnum.DEEP_WATER
  else if PrimFloat.ltb noise_value 0.3 then TileTypeEnum.SHALLOW_WATER
  else if PrimFloat.ltb noise_value 0.4 then TileTypeEnum.SAND
  else if PrimFloat.ltb noise_value 0.7 then TileTypeEnum.GRASS
  else if PrimFloat.ltb noise_value 0.85 then TileTypeEnum.FOREST
  else TileTypeEnum.MOUNTAIN.

Definition generate (s : self) : Np.traced (list (list string)) :=
  noise_map <~ _generate_noise_map s ;;
  terrain_map <~ Np.lift
    (mapM (fun row =>
       mapM (fun col =>
         noise_value <- getitem2 noise_map row col ;;
         let terrain_type := _noise_to_terrain noise_value in
         Ok (TileTypeEnum.value terrain_type))
         (range (width s)))
       (range (height s))) ;;
  Np.lift (BiomeRuleEngine.apply_rules terrain_map).
End Noise.

(** The pixel loop of [render_to_image]: the colour of every cell, row by
    row (creating and saving the image is left out). *)
Definition render_to_image (s : self) (terrain_map : list (list string))
  : result (list (list color)) :=
  mapM (fun y =>
    mapM (fun x =>
      v <- getitem2 terrain_map y x ;;
      terrain_type <- TileTypeEnum.of_value v ;;
      TileTypeEnum.get_color terrain_type)
      (range (width s)))
    (range (height s)).

End WorldMapGenerator.

(** ** terrain_renderer.py: [render], up to saving the image *)
Module TerrainRender.

Definition render (terrain_map : list (list string)) (tile_size : Z)
  : result Image.t :=
  let height := Z.of_nat (List.length terrain_map) in
  row0 <- getitem terrain_map 0 ;;
  let width := Z.of_nat (List.length row0) in
  let img_width := width * tile_size in
  let img_height := height * tile_size in
  image <- Image.new (img_width, img_height) ;;
  foldM (fun pixels y =>
    foldM (fun pixels x =>
      terrain <- getitem2 terrain_map y x ;;
      let color := TerrainRenderer.tile_color terrain in
      foldM (fun pixels dy =>
        foldM (fun pixels dx =>
          let px := x * tile_size + dx in
          let py := y * tile_size + dy in
          Image.putpixel pixels (px, py) color)
          (range tile_size) pixels)
        (range tile_size) pixels)
      (range width) pixels)
    (range height) image.

End TerrainRender.

(** ** region_generator.py: [render_region_map], up to saving the image *)
Module RegionRender.
Import RegionGenerator.

(** [max(l)] *)
Definition py_max (l : list Z) : result Z :=
  match l with
  | [] => Raise (ValueError "max() arg is an empty sequence")
  | a :: t => Ok (fold_left Z.max t a)
  end.

(** The scan of the row [dy] of the neighbourhood of [(x, y)] up to its
    [break]: whether a neighbour in the map holds another id than
    [current_region]. *)
Fixpoint scan_dx (region_map : list (list Z)) (width height x y : Z)
    (current_region dy : Z) (dxs : list Z) : result bool :=
  match dxs with
  | [] => Ok false
  | dx :: t =>
      if (dx =? 0) && (dy =? 0)
      then scan_dx region_map width height x y current_region dy t
      else
        let nx := x + dx in
        let ny := y + dy in
        if (0 <=? nx) && (nx <? width) && (0 <=? ny) && (ny <? height)
        then
          v <- getitem2 region_map ny nx ;;
          if negb (v =? current_region) then Ok true
          else scan_dx region_map width height x y current_region dy t
        else scan_dx region_map width height x y current_region dy t
  end.

(** The outer loop, left by [if is_boundary: break]. *)
Fixpoint scan_dy (region_map : list (list Z)) (width height x y : Z)
    (current_region : Z) (dys : list Z) : result bool :=
  match dys with
  | [] => Ok false
  | dy :: t =>
      is_boundary <-
        scan_dx region_map width height x y current_region dy [-1; 0; 1] ;;
      if is_boundary then Ok true
      else scan_dy region_map width height x y current_region t
  end.

Section Render.
Context {G : Type} `{Random.Source G}.

(** The loop that builds [colors]: the generator is seeded anew for every
    region. *)
Definition region_colors (seed num_regions : Z) (g : G) : list color * G :=
  fold_left (fun '(colors, g) i =>
    let g := Random.seeded (seed + i) in
    let (r, g) := Random.randint 50 200 g in
    let (gr, g) := Random.randint 50 200 g in
    let (b, g) := Random.randint 50 200 g in
    (colors ++ [(r, gr, b)], g))
    (range num_regions) ([], g).

Definition fill_regions (region_map : list (list Z)) (width height : Z)
    (colors : list color) (image : Image.t) : result Image.t :=
  foldM (fun pixels y =>
    foldM (fun pixels x =>
      region_id <- getitem2 region_map y x ;;
      c <- getitem colors region_id ;;
      Image.putpixel pixels (x, y) c)
      (range width) pixels)
    (range height) image.

Definition draw_boundaries (region_map : list (list Z)) (width height : Z)
    (image : Image.t) : result Image.t :=
  foldM (fun pixels y =>
    foldM (fun pixels x =>
      current_region <- getitem2 region_map y x ;;
      is_boundary <-
        scan_dy region_map width height x y current_region [-1; 0; 1] ;;
      if is_boundary then Image.putpixel pixels (x, y) (0, 0, 0)
      else Ok pixels)
      (range width) pixels)
    (range height) image.

Definition draw_seeds (region_data : region_table) (width height : Z)
    (image : Image.t) : result Image.t :=
  foldM (fun pixels '(region_id, data) =>
    let '(x, y) := seed data in
    foldM (fun pixels dx =>
      foldM (fun pixels dy =>
        if (dx =? 0) || (dy =? 0)
        then
          let nx := x + dx in
          let ny := y + dy in
          if (0 <=? nx) && (nx <? width) && (0 <=? ny) && (ny <? height)
          then Image.putpixel pixels (nx, ny) (255, 255, 255)
          else Ok pixels
        else Ok pixels)
        [-1; 0; 1] pixels)
      [-1; 0; 1] pixels)
    region_data image.

(** [seed] is [self.seed].  The generator is left as the colour loop
    leaves it. *)
Definition render_region_map (seed : Z) (region_map : list (list Z))
    (region_data : region_table) (g : G) : result Image.t * G :=
  let height := Z.of_nat (List.length region_map) in
  match (row0 <- getitem region_map 0 ;;
         let width := Z.of_nat (List.length row0) in
         maxima <- mapM py_max region_map ;;
         m <- py_max maxima ;;
         Ok (width, m + 1)) with
  | Raise e => (Raise e, g)
  | Ok (width, num_regions) =>
      let (colors, g) := region_colors seed num_regions g in
      (image <- Image.new (width, height) ;;
       pixels <- fill_regions region_map width height colors image ;;
       pixels <- draw_boundaries region_map width height pixels ;;
       draw_seeds region_data width height pixels, g)
  end.
End Render.

End RegionRender.

(* ================================================================== *)
(** * Part II. Properties *)
(* ================================================================== *)

(** ** Indexing, ranges and loops *)
Module PyFacts.

Lemma In_range (n i : Z) : In i (range n) <-> 0 <= i < n.
Proof.
  unfold range. rewrite in_map_iff. split.
  - intros (k & <- & Hk). apply in_seq in Hk. lia.
  - intros Hi. exists (Z.to_nat i). split; [lia|]. apply in_seq. lia.
Qed.

Lemma range_length (n : Z) : List.length (range n) = Z.to_nat n.
Proof. unfold range. now rewrite length_map, length_seq. Qed.

Lemma NoDup_range (n : Z) : NoDup (range n).
Proof.
  unfold range. apply NoDup_map_NoDup_ForallPairs.
  - intros a b _ _ Hab. lia.
  - apply seq_NoDup.
Qed.

Lemma getitem_nonneg {A} (l : list A) (i : Z) :
  0 <= i ->
  getitem l i = match nth_error l (Z.to_nat i) with
                | Some a => Ok a
                | None => Raise IndexError
                end.
Proof.
  intros Hi. unfold getitem.
  destruct (i <? 0) eqn:E; [lia|]. now rewrite E.
Qed.

Lemma getitem_in_bounds {A} (l : list A) (i : Z) :
  0 <= i < Z.of_nat (List.length l) -> exists a, getitem l i = Ok a /\ In a l.
Proof.
  intros Hi. rewrite getitem_nonneg by lia.
  destruct (nth_error l (Z.to_nat i)) eqn:E.
  - eexists; split; eauto using nth_error_In.
  - apply nth_error_None in E. lia.
Qed.

Lemma mapM_ok {A B} (f : A -> result B) (l : list A) :
  (forall a, In a l -> exists b, f a = Ok b) ->
  exists bs, mapM f l = Ok bs /\ List.length bs = List.length l.
Proof.
  induction l as [|a t IH]; intros Hl; simpl.
  - now exists [].
  - destruct (Hl a) as (b & ->); [now left|].
    destruct IH as (bs & -> & Hlen); [intros; apply Hl; now right|].
    simpl. exists (b :: bs). simpl. now rewrite Hlen.
Qed.

Lemma mapM_Forall {A B} (P : B -> Prop) (f : A -> result B) (l : list A) bs :
  (forall a b, In a l -> f a = Ok b -> P b) ->
  mapM f l = Ok bs -> Forall P bs.
Proof.
  revert bs. induction l as [|a t IH]; intros bs Hl; simpl.
  - intros [= <-]. constructor.
  - destruct (f a) eqn:Ea; simpl; [|discriminate].
    destruct (mapM f t) eqn:Et; simpl; [|discriminate].
    intros [= <-]. constructor.
    + eapply Hl; [now left|eassumption].
    + apply IH; [|reflexivity]. intros; eapply Hl; [right|]; eassumption.
Qed.

Lemma mapM_length {A B} (f : A -> result B) (l : list A) bs :
  mapM f l = Ok bs -> List.length bs = List.length l.
Proof.
  revert bs. induction l as [|a t IH]; intros bs; simpl.
  - now intros [= <-].
  - destruct (f a); simpl; [|discriminate].
    destruct (mapM f t); simpl; [|discriminate].
    intros [= <-]. simpl. f_equal. now apply IH.
Qed.

Lemma mapM_raise {A B} (f : A -> result B) (l : list A) e :
  mapM f l = Raise e -> exists a, In a l /\ f a = Raise e.
Proof.
  induction l as [|a t IH]; simpl; [discriminate|].
  destruct (f a) eqn:Ea; simpl.
  - destruct (mapM f t); simpl; [discriminate|].
    intros [= <-]. destruct IH as (a' & Hin & Hf); [reflexivity|].
    exists a'. split; [now right|assumption].
  - intros [= <-]. exists a. split; [now left|assumption].
Qed.

Lemma dict_find_not_in {V} (d : list (string * V)) (k : string) :
  ~ In k (map fst d) -> dict_find d k = None.
Proof.
  induction d as [|[k' v] t IH]; simpl; [reflexivity|].
  intros Hk. destruct (String.eqb_spec k' k) as [->|Hne].
  - exfalso. apply Hk. now left.
  - apply IH. intros Hin. apply Hk. now right.
Qed.

Lemma dict_find_in {V} (d : list (string * V)) (k : string) :
  In k (map fst d) -> exists v, dict_find d k = Some v.
Proof.
  induction d as [|[k' v] t IH]; simpl; [intros []|].
  intros [->|Hin].
  - rewrite String.eqb_refl. now exists v.
  - destruct (String.eqb k' k); [now exists v|now apply IH].
Qed.

(** A loop whose every step succeeds and keeps [P] succeeds and keeps [P]. *)
Lemma foldM_ok {A S} (P : S -> Prop) (body : S -> A -> result S) l :
  (forall s a, In a l -> P s -> exists s', body s a = Ok s' /\ P s') ->
  forall s, P s -> exists s', foldM body l s = Ok s' /\ P s'.
Proof.
  induction l as [|a t IH]; intros Hstep s Hs; simpl.
  - now exists s.
  - destruct (Hstep s a (or_introl eq_refl) Hs) as (s1 & -> & Hs1). cbn [bind].
    apply IH; [|assumption]. intros s2 b Hb. apply Hstep. now right.
Qed.

End PyFacts.

(** ** The colour tables *)
Module ColorFacts.
Import PyFacts.

Lemma color_map_keys : map fst BiomeType.color_map = BiomeType.labels.
Proof. reflexivity. Qed.

(** C10: [BiomeType.get_color] returns a colour exactly on the eight biome
    labels and raises [KeyError] on every other string (there is one), so
    [render_to_image] of a generator whose sides are not negative builds its
    image, up to saving it, on every grid of the generator's size whose
    cells are biome labels; the terrain renderer's palette lookup instead
    answers magenta and the terrain mapper grass when the key is unknown. *)
Theorem get_color_partial :
  (forall b, In b BiomeType.labels -> exists c, BiomeType.get_color b = Ok c)
  /\ (forall b, ~ In b BiomeType.labels ->
        BiomeType.get_color b = Raise (KeyError b))
  /\ (exists b, BiomeType.get_color b = Raise (KeyError b))
  /\ (forall s biome_map,
        0 <= BiomeGenerator.width s -> 0 <= BiomeGenerator.height s ->
        List.length biome_map = Z.to_nat (BiomeGenerator.height s) ->
        Forall (fun row =>
                  List.length row = Z.to_nat (BiomeGenerator.width s)
                  /\ Forall (fun b => In b BiomeType.labels) row) biome_map ->
        exists image,
          BiomeGenerator.render_to_image s biome_map = Ok image
          /\ Image.size image = (BiomeGenerator.width s, BiomeGenerator.height s))
  /\ (forall t, ~ In t (map fst TerrainRenderer.terrain_colors) ->
        TerrainRenderer.tile_color t = (255, 0, 255))
  /\ (forall b, ~ In b BiomeType.labels ->
        TerrainMapper.get_terrain_for_biome b = TileType.GRASS).
Proof.
  assert (Hok : forall b, In b BiomeType.labels ->
                  exists c, BiomeType.get_color b = Ok c).
  { intros b Hb. unfold BiomeType.get_color, dict_getitem.
    destruct (dict_find_in BiomeType.color_map b) as (c & ->);
      [now rewrite color_map_keys|]. now exists c. }
  split; [exact Hok|]. split; [|split; [|split; [|split]]].
  - intros b Hb. unfold BiomeType.get_color, dict_getitem.
    now rewrite dict_find_not_in by now rewrite color_map_keys.
  - exists "lava"%string. reflexivity.
  - intros s biome_map Hw0 Hh0 Hh Hrows.
    unfold BiomeGenerator.render_to_image, Image.new. cbn [fst snd].
    destruct (Z.ltb_spec (BiomeGenerator.width s) 0); [lia|].
    destruct (Z.ltb_spec (BiomeGenerator.height s) 0); [lia|]. cbn [orb bind].
    apply (foldM_ok (fun im => Image.size im
             = (BiomeGenerator.width s, BiomeGenerator.height s)));
      [|reflexivity].
    intros im y Hy Him. apply In_range in Hy.
    destruct (getitem_in_bounds biome_map y) as (row & Hrow & Hin); [lia|].
    rewrite Forall_forall in Hrows. destruct (Hrows row Hin) as (Hw & Hlab).
    apply foldM_ok; [|assumption].
    intros im' x Hx Him'. apply In_range in Hx. unfold getitem2.
    rewrite Hrow. cbn [bind].
    destruct (getitem_in_bounds row x) as (b & -> & Hb); [lia|]. cbn [bind].
    rewrite Forall_forall in Hlab. destruct (Hok b (Hlab b Hb)) as (c & ->).
    cbn [bind]. unfold Image.putpixel, Image.index. rewrite Him'.
    cbn [fst snd].
    destruct (Z.ltb_spec x 0); [lia|]. destruct (Z.leb_spec 0 x); [|lia].
    destruct (Z.ltb_spec x (BiomeGenerator.width s)); [|lia]. cbn [andb bind].
    destruct (Z.ltb_spec y 0); [lia|]. destruct (Z.leb_spec 0 y); [|lia].
    destruct (Z.ltb_spec y (BiomeGenerator.height s)); [|lia]. cbn [andb bind].
    eexists. split; reflexivity.
  - intros t Ht. unfold TerrainRenderer.tile_color, dict_get.
    now rewrite dict_find_not_in.
  - intros b Hb. unfold TerrainMapper.get_terrain_for_biome, dict_get.
    rewrite dict_find_not_in; [reflexivity|].
    intros Hin. apply Hb. simpl in Hin. simpl. tauto.
Qed.

Lemma get_color_partial_witness :
  (exists c, BiomeType.get_color "swamp" = Ok c)
  /\ BiomeType.get_color "dirt" = Raise (KeyError "dirt")
  /\ TerrainRenderer.tile_color "lava" = (255, 0, 255)
  /\ TerrainMapper.get_terrain_for_biome "lava" = TileType.GRASS
  /\ exists image,
       BiomeGenerator.render_to_image
         {| BiomeGenerator.width := 2; BiomeGenerator.height := 1;
            BiomeGenerator.seed := 0 |}
         [["ocean"; "snow"]]%string = Ok image
       /\ Image.size image = (2, 1).
Proof.
  destruct get_color_partial as (H1 & H2 & _ & H4 & H5 & H6).
  split; [apply H1; simpl; tauto|].
  split; [apply H2; simpl; intuition discriminate|].
  split; [apply H5; simpl; intuition discriminate|].
  split; [apply H6; simpl; intuition discriminate|].
  apply (H4 {| BiomeGenerator.width := 2; BiomeGenerator.height := 1;
               BiomeGenerator.seed := 0 |});
    [simpl; lia|simpl; lia|reflexivity|].
  repeat constructor; simpl; tauto.
Defined.

(** A generator with a negative side has its image refused by
    [Image.new], before any colour is looked up. *)
Lemma render_to_image_negative s biome_map :
  BiomeGenerator.width s < 0 \/ BiomeGenerator.height s < 0 ->
  exists msg,
    BiomeGenerator.render_to_image s biome_map = Raise (ValueError msg).
Proof.
  intros Hneg. unfold BiomeGenerator.render_to_image, Image.new.
  cbn [fst snd].
  destruct (Z.ltb_spec (BiomeGenerator.width s) 0);
    destruct (Z.ltb_spec (BiomeGenerator.height s) 0);
    cbn [orb bind]; eauto; lia.
Qed.

End ColorFacts.

(** ** The biome classifier *)
Module ClassifierFacts.
Import BiomeGenerator.

Lemma labels_NoDup : NoDup BiomeType.labels.
Proof.
  unfold BiomeType.labels.
  repeat (constructor; [simpl; intuition discriminate|]). constructor.
Qed.

(** C6: for every elevation and moisture (in particular in [0,1]x[0,1])
    [_get_biome] returns one of the eight pairwise distinct biome labels,
    chosen by the first matching test: elevation < 0.2 gives ocean;
    otherwise elevation > 0.8 gives snow if moisture > 0.5 else mountain;
    otherwise elevation > 0.5 gives forest if moisture > 0.7, else grassland
    if moisture > 0.4, else steppe; otherwise swamp if moisture > 0.7, else
    grassland if moisture > 0.4, else desert. *)
Theorem get_biome_decision_order (elevation moisture : float) :
  let lt := PrimFloat.ltb in
  let b := _get_biome elevation moisture in
  NoDup BiomeType.labels /\ In b BiomeType.labels
  /\ (lt elevation 0.2%float = true -> b = BiomeType.OCEAN)
  /\ (lt elevation 0.2%float = false -> lt 0.8%float elevation = true ->
        b = if lt 0.5%float moisture then BiomeType.SNOW else BiomeType.MOUNTAIN)
  /\ (lt elevation 0.2%float = false -> lt 0.8%float elevation = false ->
      lt 0.5%float elevation = true ->
        b = if lt 0.7%float moisture then BiomeType.FOREST
            else if lt 0.4%float moisture then BiomeType.GRASSLAND
            else BiomeType.STEPPE)
  /\ (lt elevation 0.2%float = false -> lt 0.8%float elevation = false ->
      lt 0.5%float elevation = false ->
        b = if lt 0.7%float moisture then BiomeType.SWAMP
            else if lt 0.4%float moisture then BiomeType.GRASSLAND
            else BiomeType.DESERT).
Proof.
  cbv zeta. split; [exact labels_NoDup|]. unfold _get_biome.
  destruct (PrimFloat.ltb elevation 0.2%float);
  destruct (PrimFloat.ltb 0.8%float elevation);
  destruct (PrimFloat.ltb 0.5%float elevation);
  destruct (PrimFloat.ltb 0.5%float moisture);
  destruct (PrimFloat.ltb 0.7%float moisture);
  destruct (PrimFloat.ltb 0.4%float moisture);
  (split; [simpl; tauto|]); repeat split; intros; congruence.
Qed.

Lemma get_biome_decision_order_witness :
  _get_biome 0.1%float 0.9%float = BiomeType.OCEAN
  /\ _get_biome 0.9%float 0.6%float = BiomeType.SNOW
  /\ _get_biome 0.6%float 0.5%float = BiomeType.GRASSLAND
  /\ _get_biome 0.3%float 0.2%float = BiomeType.DESERT.
Proof.
  split; [|split; [|split]].
  - destruct (get_biome_decision_order 0.1%float 0.9%float)
      as (_ & _ & H & _). apply H. reflexivity.
  - destruct (get_biome_decision_order 0.9%float 0.6%float)
      as (_ & _ & _ & H & _). apply H; reflexivity.
  - destruct (get_biome_decision_order 0.6%float 0.5%float)
      as (_ & _ & _ & _ & H & _). apply H; reflexivity.
  - destruct (get_biome_decision_order 0.3%float 0.2%float)
      as (_ & _ & _ & _ & _ & H). apply H; reflexivity.
Defined.

End ClassifierFacts.

(** ** The terrain rule pass *)
Module RuleFacts.
Import BiomeRuleEngine.

(** The double-buffered reference pass of the specification: the rules read
    only the input grid [terrain_map], the results go to a separate output
    grid [new_map]. *)
Fixpoint apply_cell_double_buffered (rs : list rule) (terrain_map new_map : grid)
    (x y : Z) (current_type : string) : result grid :=
  match rs with
  | [] => Ok new_map
  | r :: rest =>
      new_type <- r terrain_map x y ;;
      if negb (String.eqb new_type current_type)
      then setitem2 new_map y x new_type
      else apply_cell_double_buffered rest terrain_map new_map x y current_type
  end.

Definition apply_rules_double_buffered (terrain_map : grid) : result grid :=
  let height := Z.of_nat (List.length terrain_map) in
  row0 <- getitem terrain_map 0 ;;
  let width := Z.of_nat (List.length row0) in
  foldM (fun new_map y =>
    foldM (fun new_map x =>
      current_type <- getitem2 terrain_map y x ;;
      apply_cell_double_buffered rules terrain_map new_map x y current_type)
      (range width) new_map)
    (range height) terrain_map.

Definition coast : grid := [["deep_water"; "mountain"; "forest"]]%string.

(** C1: on the one-row grid deep_water, mountain, forest the pass of
    [apply_rules] differs from the double-buffered pass.  The mountain next
    to deep water is rewritten to forest; the forest cell to its right is
    then evaluated against that rewritten neighbour and stays forest, while
    against the input grid it has no grass or forest neighbour and becomes
    grass. *)
Theorem apply_rules_reads_rewritten_cells :
  apply_rules coast = Ok [["deep_water"; "forest"; "forest"]]%string
  /\ apply_rules_double_buffered coast
     = Ok [["deep_water"; "forest"; "grass"]]%string
  /\ apply_rules coast <> apply_rules_double_buffered coast.
Proof.
  split; [reflexivity|]. split; [reflexivity|]. discriminate.
Qed.

End RuleFacts.

(** ** Noise generation *)
Module NoiseFacts.
Import BiomeGenerator.

(** An array of [h] rows of [w] cells. *)
Definition shaped {A} (h w : nat) (a : list (list A)) : Prop :=
  List.length a = h /\ Forall (fun r => List.length r = w) a.

Lemma set_last_length (l : list float) v :
  List.length (Np.set_last l v) = List.length l.
Proof.
  induction l as [|a [|b t] IH]; simpl in *; try reflexivity.
  now rewrite IH.
Qed.

Lemma linspace_negative start stop num :
  num < 0 -> exists msg, Np.linspace start stop num = ([], Raise (ValueError msg)).
Proof.
  intros Hn. unfold Np.linspace. destruct (num <? 0) eqn:E; [|lia].
  eexists. reflexivity.
Qed.

Lemma linspace_ok start stop num :
  0 <= num ->
  exists l, Np.linspace start stop num = ([[num]], Ok l)
            /\ List.length l = Z.to_nat num.
Proof.
  intros Hn. unfold Np.linspace. destruct (num <? 0) eqn:E; [lia|].
  eexists. split; [reflexivity|].
  destruct (1 <? num); rewrite ?set_last_length;
    destruct (0 <? num - 1); try destruct (PrimFloat.eqb _ _);
    rewrite !length_map; apply PyFacts.range_length.
Qed.

Lemma shaped_repeat {A} (h w : nat) (v : A) : shaped h w (repeat (repeat v w) h).
Proof.
  split; [apply repeat_length|]. apply Forall_forall.
  intros r Hr. apply repeat_spec in Hr. subst. apply repeat_length.
Qed.

Lemma shaped_map2d h w f a : shaped h w a -> shaped h w (Np.map2d f a).
Proof.
  intros [Hh Hw]. split; unfold Np.map2d; [now rewrite length_map|].
  apply Forall_map. eapply Forall_impl; [|exact Hw].
  intros r Hr. simpl. now rewrite length_map.
Qed.

Lemma shaped_zip2d h w f a b :
  shaped h w a -> shaped h w b -> shaped h w (Np.zip2d f a b).
Proof.
  intros [Hh Hw] [Hh' Hw']. unfold Np.zip2d. split.
  - rewrite length_map, length_combine. lia.
  - apply Forall_map. apply Forall_forall. intros [ra rb] Hin.
    rewrite length_map, length_combine.
    rewrite Forall_forall in Hw, Hw'.
    rewrite (Hw ra), (Hw' rb); eauto using in_combine_l, in_combine_r. lia.
Qed.

Lemma shaped_concat_nil {A} h w (a : list (list A)) :
  shaped h w a -> (h = 0 \/ w = 0)%nat -> List.concat a = [].
Proof.
  intros [Hh Hw] Hz. apply concat_nil_Forall.
  destruct Hz as [-> | ->].
  - apply length_zero_iff_nil in Hh. subst. constructor.
  - eapply Forall_impl; [|exact Hw]. intros r Hr.
    now apply length_zero_iff_nil.
Qed.

Lemma shaped_concat_cons {A} h w (a : list (list A)) :
  shaped h w a -> (0 < h)%nat -> (0 < w)%nat ->
  exists v t, List.concat a = v :: t.
Proof.
  intros [Hh Hw] Hhp Hwp. destruct a as [|[|v r] a']; simpl in *; [lia| |eauto].
  apply Forall_inv in Hw. simpl in Hw. lia.
Qed.

Section NoiseShape.
Variables np_sin np_cos : float -> float.

Lemma meshgrid_shaped x y :
  exists X Y,
    Np.meshgrid x y
    = ([[Z.of_nat (List.length y); Z.of_nat (List.length x)];
        [Z.of_nat (List.length y); Z.of_nat (List.length x)]], Ok (X, Y))
    /\ shaped (List.length y) (List.length x) X
    /\ shaped (List.length y) (List.length x) Y.
Proof.
  eexists _, _. split; [reflexivity|]. split; split;
    rewrite ?length_map; try reflexivity;
    apply Forall_map, Forall_forall; intros v _; simpl;
    now rewrite ?length_map.
Qed.

Lemma add_octaves_shaped h w X Y octaves noise :
  shaped h w X -> shaped h w Y -> shaped h w noise ->
  shaped h w (add_octaves np_sin np_cos X Y noise octaves).
Proof.
  intros HX HY. unfold add_octaves. revert noise.
  induction (range octaves) as [|o t IH]; intros noise Hn; simpl;
    [assumption|].
  apply IH. auto using shaped_zip2d, shaped_map2d.
Qed.

Lemma normalize_empty h w noise :
  shaped h w noise -> (h = 0 \/ w = 0)%nat ->
  exists msg, normalize noise = Raise (ValueError msg).
Proof.
  intros Hs Hz. unfold normalize, Np.min.
  rewrite (shaped_concat_nil _ _ _ Hs Hz). simpl. eauto.
Qed.

Lemma normalize_ok h w noise :
  shaped h w noise -> (0 < h)%nat -> (0 < w)%nat ->
  exists a, normalize noise = Ok a /\ shaped h w a.
Proof.
  intros Hs Hh Hw. unfold normalize, Np.min, Np.max.
  destruct (shaped_concat_cons _ _ _ Hs Hh Hw) as (v & t & ->). simpl.
  eexists. split; [reflexivity|]. now apply shaped_map2d.
Qed.

(** A negative width is refused by the first [np.linspace], before any
    array exists. *)
Lemma noise_map_negative_width s scale octaves :
  width s < 0 ->
  exists msg, _generate_noise_map np_sin np_cos s scale octaves
              = ([], Raise (ValueError msg)).
Proof.
  intros Hw. unfold _generate_noise_map.
  destruct (linspace_negative 0 scale (width s) Hw) as (msg & ->).
  now exists msg.
Qed.

(** Any other non-positive dimension makes a later step raise, once the
    first coordinate array has been created. *)
Lemma noise_map_empty s scale octaves :
  0 <= width s -> width s = 0 \/ height s <= 0 ->
  exists log msg, _generate_noise_map np_sin np_cos s scale octaves
                  = ([width s] :: log, Raise (ValueError msg)).
Proof.
  intros Hw Hz. unfold _generate_noise_map.
  destruct (linspace_ok 0 scale (width s) Hw) as (x & -> & Hx).
  destruct (Z.ltb_spec (height s) 0) as [Hh|Hh].
  { destruct (linspace_negative 0 scale (height s) Hh) as (msg & ->).
    simpl. now exists [], msg. }
  destruct (linspace_ok 0 scale (height s) Hh) as (y & -> & Hy).
  destruct (meshgrid_shaped x y) as (X & Y & HXY & HX & HY).
  cbn [Np.tbind]. rewrite HXY. cbn [Np.tbind].
  unfold Np.zeros.
  destruct (height s <? 0) eqn:E1; [lia|].
  destruct (width s <? 0) eqn:E2; [lia|]. cbn [orb Np.alloc Np.tbind].
  rewrite Hx, Hy in HX, HY.
  destruct (normalize_empty _ _ _
              (add_octaves_shaped _ _ X Y octaves _ HX HY
                 (shaped_repeat _ _ 0%float))) as (msg & ->); [lia|].
  cbn. eexists _, _. reflexivity.
Qed.

Lemma noise_map_ok s scale octaves :
  0 < width s -> 0 < height s ->
  exists log a, _generate_noise_map np_sin np_cos s scale octaves = (log, Ok a)
                /\ shaped (Z.to_nat (height s)) (Z.to_nat (width s)) a.
Proof.
  intros Hw Hh. unfold _generate_noise_map.
  destruct (linspace_ok 0 scale (width s)) as (x & -> & Hx); [lia|].
  destruct (linspace_ok 0 scale (height s)) as (y & -> & Hy); [lia|].
  destruct (meshgrid_shaped x y) as (X & Y & HXY & HX & HY).
  cbn [Np.tbind]. rewrite HXY. cbn [Np.tbind].
  unfold Np.zeros.
  destruct (height s <? 0) eqn:E1; [lia|].
  destruct (width s <? 0) eqn:E2; [lia|]. cbn [orb Np.alloc Np.tbind].
  rewrite Hx, Hy in HX, HY.
  destruct (normalize_ok _ _ _
              (add_octaves_shaped _ _ X Y octaves _ HX HY
                 (shaped_repeat _ _ 0%float))) as (a & -> & Ha); [lia|lia|].
  cbn. eexists _, _. split; [reflexivity|assumption].
Qed.
End NoiseShape.

Section Generate.
Variables np_sin np_cos : float -> float.

Lemma generate_ok s :
  0 < width s -> 0 < height s ->
  exists log maps, generate np_sin np_cos s = (log, Ok maps).
Proof.
  intros Hw Hh. unfold generate.
  destruct (noise_map_ok np_sin np_cos s 4.0 4 Hw Hh)
    as (l1 & e & -> & He1 & He2).
  destruct (noise_map_ok np_sin np_cos s 3.0 3 Hw Hh)
    as (l2 & m & -> & Hm1 & Hm2).
  cbn [Np.tbind].
  set (cell := fun y x : Z =>
         elevation <- getitem2 e y x ;;
         moisture <- getitem2 m y x ;;
         Ok (_get_biome elevation moisture)).
  assert (Hcell : forall y x, 0 <= y < height s -> 0 <= x < width s ->
                    exists b, cell y x = Ok b).
  { intros y x Hy Hx. unfold cell, getitem2.
    destruct (PyFacts.getitem_in_bounds e y) as (re & -> & Hre); [lia|].
    destruct (PyFacts.getitem_in_bounds m y) as (rm & Hrm & Hrm'); [lia|].
    rewrite Forall_forall in He2, Hm2. cbn [bind].
    destruct (PyFacts.getitem_in_bounds re x) as (ve & -> & _);
      [rewrite (He2 re Hre); lia|].
    cbn [bind]. rewrite Hrm. cbn [bind].
    destruct (PyFacts.getitem_in_bounds rm x) as (vm & -> & _);
      [rewrite (Hm2 rm Hrm'); lia|].
    cbn [bind]. eauto. }
  destruct (PyFacts.mapM_ok
              (fun y => mapM (fun x => cell y x) (range (width s)))
              (range (height s))) as (bm & Hbm & Hlen).
  { intros y Hy. apply PyFacts.In_range in Hy.
    destruct (PyFacts.mapM_ok (fun x => cell y x) (range (width s)))
      as (row & Hrow & _); [|eauto].
    intros x Hx. apply PyFacts.In_range in Hx. auto. }
  assert (Hrows : Forall (fun r => List.length r = Z.to_nat (width s)) bm).
  { eapply PyFacts.mapM_Forall; [|exact Hbm]. intros y row _ Hrow.
    apply PyFacts.mapM_length in Hrow.
    now rewrite Hrow, PyFacts.range_length. }
  fold cell. unfold cell in Hbm. unfold Np.lift at 1. rewrite Hbm.
  cbn [Np.tbind]. rewrite PyFacts.range_length in Hlen.
  unfold TerrainMapper.translate_biomes.
  destruct (PyFacts.getitem_in_bounds bm 0) as (row0 & -> & Hrow0); [lia|].
  cbn [bind].
  rewrite Forall_forall in Hrows. rewrite (Hrows row0 Hrow0).
  destruct (PyFacts.mapM_ok
    (fun y => mapM (fun x =>
                biome <- getitem2 bm y x ;;
                Ok (dict_get TerrainMapper.biome_to_terrain biome
                      TileType.GRASS))
              (range (Z.of_nat (Z.to_nat (width s)))))
    (range (Z.of_nat (List.length bm)))) as (tm & -> & _).
  { intros y Hy. apply PyFacts.In_range in Hy.
    destruct (PyFacts.mapM_ok
      (fun x => biome <- getitem2 bm y x ;;
                Ok (dict_get TerrainMapper.biome_to_terrain biome
                      TileType.GRASS))
      (range (Z.of_nat (Z.to_nat (width s))))) as (row & Hrow & _); [|eauto].
    intros x Hx. apply PyFacts.In_range in Hx. unfold getitem2.
    destruct (PyFacts.getitem_in_bounds bm y) as (r & -> & Hr); [lia|].
    cbn [bind].
    destruct (PyFacts.getitem_in_bounds r x) as (b & -> & _);
      [rewrite (Hrows r Hr); lia|].
    cbn [bind]. eauto. }
  cbn. eauto.
Qed.

Lemma generate_raises s :
  width s <= 0 \/ height s <= 0 ->
  exists log msg, generate np_sin np_cos s = (log, Raise (ValueError msg))
                  /\ (width s < 0 -> log = [])
                  /\ (0 <= width s -> log <> []).
Proof.
  intros Hz. unfold generate.
  destruct (Z.ltb_spec (width s) 0) as [Hw|Hw].
  - destruct (noise_map_negative_width np_sin np_cos s 4.0 4 Hw) as (msg & ->).
    exists [], msg. cbn. split; [reflexivity|]. split; intros; [reflexivity|lia].
  - destruct (noise_map_empty np_sin np_cos s 4.0 4 Hw) as (log & msg & ->);
      [lia|].
    exists ([width s] :: log), msg. cbn.
    split; [reflexivity|]. split; intros; [lia|discriminate].
Qed.
End Generate.

(** The reading of "fails fast, before any grid allocation": [generate]
    raises and its allocation log is empty. *)
Definition fails_before_allocation (np_sin np_cos : float -> float) (s : self)
  : Prop :=
  exists e, generate np_sin np_cos s = ([], Raise e).




(** C3: for width 1 and height 1 the accumulated field is the single value
    0 (the sine of 0 is 0), its minimum and maximum coincide, and the
    normalisation computes 0 / 0: the returned cell is NaN, not 0.5.  The
    same happens to a flat field of another value, here 0.25. *)
Theorem noise_map_flat_field_is_nan (np_sin np_cos : float -> float) (sd : Z) :
  np_sin 0%float = 0%float -> np_cos 0%float = 1%float ->
  snd (_generate_noise_map np_sin np_cos
         {| width := 1; height := 1; seed := sd |} 4.0%float 4) = Ok [[nan]]
  /\ PrimFloat.eqb nan 0.5%float = false
  /\ normalize [[0.25; 0.25]; [0.25; 0.25]]%float
     = Ok [[nan; nan]; [nan; nan]].
Proof.
  intros Hsin Hcos. split; [|split; reflexivity].
  vm_compute. rewrite Hsin, Hcos. vm_compute. reflexivity.
Qed.

Lemma noise_map_flat_field_is_nan_witness :
  snd (_generate_noise_map (fun v => v) (fun _ => 1%float)
         {| width := 1; height := 1; seed := 1234 |} 4.0%float 4) = Ok [[nan]]
  /\ PrimFloat.eqb nan 0.5%float = false
  /\ normalize [[0.25; 0.25]; [0.25; 0.25]]%float
     = Ok [[nan; nan]; [nan; nan]].
Proof.
  apply (noise_map_flat_field_is_nan (fun v => v) (fun _ => 1%float) 1234);
    reflexivity.
Defined.

End NoiseFacts.

(** ** Binary64 rounding *)
Module Float64Facts.
Import Float64.

Local Abbreviation digits := Zdigits2.
Local Abbreviation fexp := (SpecFloat.fexp prec emax).

Lemma fexp_eq e : fexp e = Z.max (e - 53) (-1074).
Proof. reflexivity. Qed.

Lemma fexp_mono a b : a <= b -> fexp a <= fexp b.
Proof. rewrite !fexp_eq. lia. Qed.

Lemma digits2_pos_bounds p :
  2 ^ (Zpos (digits2_pos p) - 1) <= Zpos p < 2 ^ Zpos (digits2_pos p).
Proof.
  induction p as [p IH|p IH|]; cbn [digits2_pos].
  - rewrite Pos2Z.inj_succ.
    replace (Z.succ (Zpos (digits2_pos p)) - 1) with (Z.succ (Zpos (digits2_pos p) - 1)) by lia.
    rewrite !Z.pow_succ_r by lia. lia.
  - rewrite Pos2Z.inj_succ.
    replace (Z.succ (Zpos (digits2_pos p)) - 1) with (Z.succ (Zpos (digits2_pos p) - 1)) by lia.
    rewrite !Z.pow_succ_r by lia. lia.
  - simpl. lia.
Qed.

Lemma digits_nonneg m : 0 <= digits m.
Proof. destruct m; simpl; lia. Qed.

Lemma digits_bounds m :
  0 < m -> 1 <= digits m /\ 2 ^ (digits m - 1) <= m < 2 ^ digits m.
Proof.
  destruct m as [|p|p]; try lia. intros _. simpl.
  split; [lia|apply digits2_pos_bounds].
Qed.

Lemma digits_le m k : 0 <= m < 2 ^ k -> 0 <= k -> digits m <= k.
Proof.
  intros [H0 Hm] Hk. destruct (Z.eq_dec m 0) as [->|Hne]; [simpl; lia|].
  destruct (digits_bounds m ltac:(lia)) as (Hd & Hlo & _).
  destruct (Z_le_gt_dec (digits m) k) as [|Hgt]; [assumption|exfalso].
  assert (2 ^ k <= 2 ^ (digits m - 1)) by (apply Z.pow_le_mono_r; lia).
  lia.
Qed.

Lemma digits_ge m k : 0 <= k -> 2 ^ k <= m -> k + 1 <= digits m.
Proof.
  intros Hk Hm. assert (0 < m) by (pose proof (Z.pow_pos_nonneg 2 k); lia).
  destruct (digits_bounds m ltac:(lia)) as (Hd & _ & Hhi).
  destruct (Z_le_gt_dec (k + 1) (digits m)) as [|Hgt]; [assumption|exfalso].
  assert (2 ^ digits m <= 2 ^ k) by (apply Z.pow_le_mono_r; lia).
  lia.
Qed.

Lemma pow2_split a b : 0 <= a <= b -> 2 ^ b = 2 ^ a * 2 ^ (b - a).
Proof. intros H. rewrite <- Z.pow_add_r by lia. f_equal. lia. Qed.

Lemma pow2_pos k : 0 <= k -> 0 < 2 ^ k.
Proof. intros. apply Z.pow_pos_nonneg; lia. Qed.

(** Shifting right. *)
Lemma shr_1_m mrs : 0 <= shr_m mrs -> shr_m (shr_1 mrs) = shr_m mrs / 2.
Proof.
  destruct mrs as [m r s]. cbn [shr_m]. intros Hm.
  rewrite <- Z.div2_div.
  destruct m as [|[p|p|]|p]; cbn [shr_1 shr_m]; try reflexivity; lia.
Qed.

Lemma iter_shr_m p : forall mrs,
  0 <= shr_m mrs ->
  shr_m (iter_pos shr_1 p mrs) = shr_m mrs / 2 ^ Zpos p.
Proof.
  assert (Hdiv : forall a b, 0 <= a -> 0 <= b -> 0 <= a / 2 ^ b)
    by (intros; apply Z.div_pos; [assumption|apply pow2_pos; assumption]).
  induction p as [p IH|p IH|]; intros mrs Hm; cbn [iter_pos].
  - assert (H1 : 0 <= shr_m (shr_1 mrs))
      by (rewrite shr_1_m by assumption; apply Z.div_pos; lia).
    assert (H2 : 0 <= shr_m (iter_pos shr_1 p (shr_1 mrs)))
      by (rewrite IH by assumption; apply Hdiv; lia).
    rewrite IH, IH, shr_1_m by assumption.
    rewrite !Z.div_div by (try apply pow2_pos; lia).
    f_equal. replace (Z.pos p~1) with (1 + (Z.pos p + Z.pos p)) by lia.
    rewrite Z.pow_add_r, Z.pow_add_r, Z.pow_1_r by lia. ring.
  - assert (H2 : 0 <= shr_m (iter_pos shr_1 p mrs))
      by (rewrite IH by assumption; apply Hdiv; lia).
    rewrite IH, IH by assumption.
    rewrite !Z.div_div by (try apply pow2_pos; lia).
    f_equal. replace (Z.pos p~0) with (Z.pos p + Z.pos p) by lia.
    rewrite Z.pow_add_r by lia. ring.
  - rewrite shr_1_m by assumption. reflexivity.
Qed.

(** [shr] by a non-negative count divides the mantissa. *)
Lemma shr_spec mrs e n :
  0 <= shr_m mrs -> 0 <= n ->
  shr_m (fst (shr mrs e n)) = shr_m mrs / 2 ^ n /\ snd (shr mrs e n) = e + n.
Proof.
  intros Hm Hn. destruct n as [|p|p]; cbn [shr fst snd]; try lia.
  - rewrite Z.pow_0_r, Z.div_1_r. lia.
  - split; [now apply iter_shr_m|reflexivity].
Qed.

Lemma shr_record_of_loc_m m l : shr_m (shr_record_of_loc m l) = m.
Proof. destruct l as [|[]]; reflexivity. Qed.

Lemma round_nearest_even_bounds m l :
  m <= round_nearest_even m l <= m + 1.
Proof.
  destruct l as [|[]]; cbn [round_nearest_even]; try lia.
  destruct (Z.even m); lia.
Qed.


Lemma shr_any mrs e n :
  0 <= shr_m mrs ->
  shr_m (fst (shr mrs e n)) = shr_m mrs / 2 ^ Z.max 0 n
  /\ snd (shr mrs e n) = e + Z.max 0 n.
Proof.
  intros Hm. destruct (Z_le_gt_dec 0 n) as [Hn|Hn].
  - rewrite Z.max_r by lia. now apply shr_spec.
  - destruct n as [|p|p]; try lia. cbn [shr fst snd].
    rewrite Z.max_l by lia. rewrite Z.pow_0_r, Z.div_1_r. lia.
Qed.

(** [binary_round_aux] on a non-negative mantissa: one shift to the
    exponent of the format, one rounding step, one more shift. *)
Lemma binary_round_aux_eq s m e l :
  0 <= m -> e <= fexp (digits m + e) ->
  exists m1,
    m / 2 ^ (fexp (digits m + e) - e) <= m1
      <= m / 2 ^ (fexp (digits m + e) - e) + 1
    /\ binary_round_aux prec emax s m e l
       = let e1 := fexp (digits m + e) in
         let n := Z.max 0 (fexp (digits m1 + e1) - e1) in
         match m1 / 2 ^ n with
         | Z0 => S754_zero s
         | Zpos p =>
             if e1 + n <=? emax - prec then S754_finite s p (e1 + n)
             else S754_infinity s
         | Zneg _ => S754_nan
         end.
Proof.
  intros Hm He. unfold binary_round_aux, shr_fexp.
  set (n0 := fexp (digits m + e) - e).
  destruct (shr_any (shr_record_of_loc m l) e n0) as [H1 H2];
    [rewrite shr_record_of_loc_m; assumption|].
  rewrite shr_record_of_loc_m in H1. rewrite Z.max_r in H1, H2 by (unfold n0; lia).
  destruct (shr (shr_record_of_loc m l) e n0) as [mrs' e'].
  cbn [fst snd] in H1, H2. subst e'.
  set (m1 := round_nearest_even (shr_m mrs') (loc_of_shr_record mrs')).
  exists m1. split.
  { unfold m1. rewrite <- H1. apply round_nearest_even_bounds. }
  replace (e + n0) with (fexp (digits m + e)) by (unfold n0; lia).
  cbv zeta. set (e1 := fexp (digits m + e)).
  assert (Hm1 : 0 <= m1).
  { unfold m1. pose proof (round_nearest_even_bounds (shr_m mrs')
                             (loc_of_shr_record mrs')).
    assert (0 <= shr_m mrs')
      by (rewrite H1; apply Z.div_pos; [assumption|apply pow2_pos; unfold n0; lia]).
    lia. }
  destruct (shr_any (shr_record_of_loc m1 loc_Exact) e1
              (fexp (digits m1 + e1) - e1)) as [H3 H4];
    [rewrite shr_record_of_loc_m; assumption|].
  rewrite shr_record_of_loc_m in H3.
  destruct (shr (shr_record_of_loc m1 loc_Exact) e1
              (fexp (digits m1 + e1) - e1)) as [mrs'' e''].
  cbn [fst snd] in H3, H4. rewrite H3, H4. reflexivity.
Qed.

(** [N * 2^c <= m * 2^e], the exponents being of any sign. *)
Definition le_dy (N c m e : Z) : Prop :=
  N * 2 ^ (c - Z.min c e) <= m * 2 ^ (e - Z.min c e).

Lemma le_dy_pos N c m e : 0 < N -> le_dy N c m e -> 0 < m.
Proof.
  unfold le_dy. intros HN H.
  pose proof (pow2_pos (c - Z.min c e) ltac:(lia)).
  pose proof (pow2_pos (e - Z.min c e) ltac:(lia)). nia.
Qed.

Lemma le_dy_mono N c m m' e : le_dy N c m e -> m <= m' -> le_dy N c m' e.
Proof.
  unfold le_dy. intros H Hm.
  pose proof (pow2_pos (e - Z.min c e) ltac:(lia)). nia.
Qed.

Lemma div_pow2_lower m d n :
  0 <= n <= d -> 2 ^ d <= m -> 2 ^ (d - n) <= m / 2 ^ n.
Proof.
  intros Hn Hm. apply Z.div_le_lower_bound; [apply pow2_pos; lia|].
  rewrite <- Z.pow_add_r by lia. replace (n + (d - n)) with d by lia. assumption.
Qed.

Lemma div_pow2_upper m d n :
  0 <= n -> 0 <= d -> 0 <= m < 2 ^ d -> m / 2 ^ n < 2 ^ Z.max 0 (d - n).
Proof.
  intros Hn Hd Hm. apply Z.div_lt_upper_bound; [apply pow2_pos; lia|].
  rewrite <- Z.pow_add_r by lia.
  assert (2 ^ d <= 2 ^ (n + Z.max 0 (d - n))) by (apply Z.pow_le_mono_r; lia).
  lia.
Qed.

(** One shift to the exponent of the format keeps every representable
    lower bound. *)
Lemma le_dy_shift N c m e :
  0 < N < 2 ^ 53 -> -1074 <= c -> 0 <= m ->
  e <= fexp (digits m + e) -> le_dy N c m e ->
  le_dy N c (m / 2 ^ (fexp (digits m + e) - e)) (fexp (digits m + e)).
Proof.
  intros HN Hc Hm He Hle.
  pose proof (le_dy_pos _ _ _ _ (proj1 HN) Hle) as Hpos.
  destruct (digits_bounds m Hpos) as (Hd & Hlo & Hhi).
  set (f := fexp (digits m + e)) in *.
  destruct (Z_le_gt_dec f c) as [Hfc|Hfc].
  - unfold le_dy in *. rewrite Z.min_r in Hle by lia.
    rewrite Z.min_r by lia. replace (f - f) with 0 by lia.
    rewrite Z.pow_0_r, Z.mul_1_r. replace (e - e) with 0 in Hle by lia.
    rewrite Z.pow_0_r, Z.mul_1_r in Hle.
    apply Z.div_le_lower_bound; [apply pow2_pos; lia|].
    rewrite (pow2_split (f - e) (c - e)) in Hle by lia.
    replace (c - e - (f - e)) with (c - f) in Hle by lia. lia.
  - assert (Hf : f = digits m + e - 53)
      by (unfold f in *; rewrite fexp_eq in *; lia).
    assert (H52 : 2 ^ 52 <= m / 2 ^ (f - e)).
    { replace 52 with (digits m - 1 - (f - e)) by lia.
      apply div_pow2_lower; [lia|assumption]. }
    unfold le_dy. rewrite Z.min_l by lia. replace (c - c) with 0 by lia.
    rewrite Z.pow_0_r, Z.mul_1_r.
    assert (2 ^ 1 <= 2 ^ (f - c)) by (apply Z.pow_le_mono_r; lia).
    change (2 ^ 53) with (2 ^ 52 * 2 ^ 1) in HN. nia.
Qed.

Section Round.
Variables (s : bool) (m e : Z) (l : location).
Hypothesis Hm : 0 <= m.
Hypothesis He : e <= fexp (digits m + e).

(** Rounding keeps the sign and never gives NaN. *)
Lemma round_sign :
  match binary_round_aux prec emax s m e l with
  | S754_zero s' | S754_infinity s' | S754_finite s' _ _ => s' = s
  | S754_nan => False
  end.
Proof.
  destruct (binary_round_aux_eq s m e l Hm He) as (m1 & [Hlo _] & ->).
  cbv zeta.
  match goal with |- context [?a / ?b] =>
    assert (H0 : 0 <= a / b) end.
  { apply Z.div_pos; [|apply pow2_pos; lia].
    assert (0 <= m / 2 ^ (fexp (digits m + e) - e))
      by (apply Z.div_pos; [assumption|apply pow2_pos; lia]).
    lia. }
  match goal with |- context [?a / ?b] => destruct (a / b) end;
    [reflexivity| |lia].
  match goal with |- context [if ?c then _ else _] => destruct c end;
    reflexivity.
Qed.

(** A value below [2^1023] does not overflow, and the result is below
    [2^1024]. *)
Lemma round_finite :
  digits m + e <= 1023 ->
  match binary_round_aux prec emax s m e l with
  | S754_zero s' => s' = s
  | S754_finite s' m2 e2 => s' = s /\ digits (Zpos m2) + e2 <= 1024
  | _ => False
  end.
Proof.
  intros Hmag.
  destruct (binary_round_aux_eq s m e l Hm He) as (m1 & [Hlo Hhi] & ->).
  cbv zeta. set (e1 := fexp (digits m + e)) in *.
  set (n := e1 - e) in *.
  assert (Hn : 0 <= n) by (unfold n; lia).
  assert (He1 : e1 <= 970) by (unfold e1; rewrite fexp_eq; lia).
  assert (Hq0 : 0 <= m / 2 ^ n)
    by (apply Z.div_pos; [assumption|apply pow2_pos; lia]).
  assert (Hq : m / 2 ^ n < 2 ^ Z.max 0 (digits m - n)).
  { apply div_pow2_upper; [assumption|apply digits_nonneg|].
    split; [assumption|].
    destruct (Z.eq_dec m 0) as [->|]; [simpl; lia|].
    apply digits_bounds. lia. }
  set (K := Z.max 0 (digits m - n)) in *.
  assert (Hm1 : 0 <= m1 < 2 ^ (K + 1)).
  { split; [lia|]. rewrite Z.pow_add_r, Z.pow_1_r by lia.
    pose proof (pow2_pos K ltac:(lia)). lia. }
  assert (Hd1 : digits m1 <= K + 1) by (apply digits_le; lia).
  set (n' := Z.max 0 (fexp (digits m1 + e1) - e1)).
  assert (Hn' : 0 <= n') by (unfold n'; lia).
  assert (He2 : e1 + n' <= 971).
  { unfold n'. rewrite fexp_eq. unfold K, n in Hd1. lia. }
  assert (Hm2 : 0 <= m1 / 2 ^ n' < 2 ^ Z.max 0 (K + 1 - n')).
  { split; [apply Z.div_pos; [lia|apply pow2_pos; lia]|].
    apply div_pow2_upper; lia. }
  destruct (m1 / 2 ^ n') as [|p|p] eqn:Ep; [reflexivity| |lia].
  change (emax - prec) with 971.
  destruct (Z.leb_spec (e1 + n') 971) as [_|]; [|lia].
  split; [reflexivity|].
  assert (digits (Zpos p) <= Z.max 0 (K + 1 - n')) by (apply digits_le; lia).
  unfold K, n in *. lia.
Qed.

(** Rounding is monotone with respect to a representable lower bound. *)
Lemma round_ge N c :
  0 < N < 2 ^ 53 -> -1074 <= c -> le_dy N c m e ->
  match binary_round_aux prec emax s m e l with
  | S754_finite s' m2 e2 => s' = s /\ le_dy N c (Zpos m2) e2
  | S754_infinity s' => s' = s
  | _ => False
  end.
Proof.
  intros HN Hc Hle.
  destruct (binary_round_aux_eq s m e l Hm He) as (m1 & [Hlo Hhi] & ->).
  cbv zeta. set (e1 := fexp (digits m + e)) in *.
  pose proof (le_dy_shift N c m e HN Hc Hm He Hle) as H1. fold e1 in H1.
  apply (le_dy_mono _ _ _ m1) in H1; [|assumption].
  assert (Hm1 : 0 < m1) by (eapply le_dy_pos; [|exact H1]; lia).
  assert (H2 : le_dy N c (m1 / 2 ^ Z.max 0 (fexp (digits m1 + e1) - e1))
                 (e1 + Z.max 0 (fexp (digits m1 + e1) - e1))).
  { destruct (Z_le_gt_dec (fexp (digits m1 + e1)) e1) as [Hle1|Hgt1].
    - rewrite Z.max_l by lia. rewrite Z.pow_0_r, Z.div_1_r, Z.add_0_r.
      assumption.
    - rewrite Z.max_r by lia.
      replace (e1 + (fexp (digits m1 + e1) - e1))
        with (fexp (digits m1 + e1)) by lia.
      apply le_dy_shift; try assumption; lia. }
  pose proof (le_dy_pos _ _ _ _ (proj1 HN) H2) as Hpos.
  destruct (m1 / 2 ^ Z.max 0 (fexp (digits m1 + e1) - e1)) as [|p|p];
    try lia.
  match goal with |- context [if ?b then _ else _] => destruct b end;
    [split; [reflexivity|assumption]|reflexivity].
Qed.
End Round.


(** *** The quotient of two positive integers *)
Section Quotient.
Variables a b : positive.

Definition quo_shift : Z :=
  - Z.min (fexp (digits (Zpos a) - digits (Zpos b))) 0.

Definition quo_mantissa : Z := Zpos a * 2 ^ quo_shift / Zpos b.

Lemma quo_shift_nonneg : 0 <= quo_shift.
Proof. unfold quo_shift. lia. Qed.

Lemma div_core :
  exists l,
    SFdiv_core_binary prec emax (Zpos a) 0 (Zpos b) 0
    = (quo_mantissa, - quo_shift, l).
Proof.
  unfold SFdiv_core_binary, quo_mantissa.
  rewrite !Z.add_0_r. change (0 - 0) with 0.
  fold quo_shift.
  replace (Z.min (fexp (digits (Zpos a) - digits (Zpos b))) 0)
    with (- quo_shift) by (unfold quo_shift; lia).
  replace (0 - - quo_shift) with quo_shift by lia.
  pose proof quo_shift_nonneg as Hs.
  assert (Hm : match quo_shift with
               | Z0 => Zpos a
               | Zpos _ => Z.shiftl (Zpos a) quo_shift
               | Zneg _ => 0
               end = Zpos a * 2 ^ quo_shift).
  { destruct quo_shift as [|p|p] eqn:E; try lia.
    rewrite Z.shiftl_mul_pow2 by lia. reflexivity. }
  rewrite Hm. unfold Z.div.
  destruct (Z.div_eucl (Zpos a * 2 ^ quo_shift) (Zpos b)) as [q r].
  eexists. reflexivity.
Qed.

Lemma quo_nonneg : 0 <= quo_mantissa.
Proof.
  unfold quo_mantissa. apply Z.div_pos; [|lia].
  pose proof (pow2_pos quo_shift quo_shift_nonneg). lia.
Qed.

Lemma quo_digits_lower :
  digits (Zpos a) - digits (Zpos b) <= digits quo_mantissa - quo_shift.
Proof.
  pose proof quo_shift_nonneg as Hs.
  destruct (digits_bounds (Zpos a) ltac:(lia)) as (Ha1 & Ha & _).
  destruct (digits_bounds (Zpos b) ltac:(lia)) as (Hb1 & _ & Hb).
  pose proof (digits_nonneg quo_mantissa).
  set (da := digits (Zpos a)) in *. set (db := digits (Zpos b)) in *.
  destruct (Z_le_gt_dec (da - db + quo_shift) 0) as [|Hk]; [lia|].
  assert (2 ^ (da - db + quo_shift - 1) <= quo_mantissa).
  { unfold quo_mantissa. apply Z.div_le_lower_bound; [lia|].
    assert (Zpos b * 2 ^ (da - db + quo_shift - 1)
            <= 2 ^ db * 2 ^ (da - db + quo_shift - 1)).
    { apply Z.mul_le_mono_nonneg_r; [apply Z.lt_le_incl, pow2_pos; lia|lia]. }
    rewrite <- Z.pow_add_r in H0 by lia.
    replace (db + (da - db + quo_shift - 1)) with (da - 1 + quo_shift) in H0
      by lia.
    rewrite Z.pow_add_r in H0 by lia.
    assert (2 ^ (da - 1) * 2 ^ quo_shift <= Zpos a * 2 ^ quo_shift).
    { apply Z.mul_le_mono_nonneg_r; [apply Z.lt_le_incl, pow2_pos; lia|lia]. }
    lia. }
  pose proof (digits_ge quo_mantissa (da - db + quo_shift - 1) ltac:(lia) H0).
  lia.
Qed.

Lemma quo_exponent :
  - quo_shift <= fexp (digits quo_mantissa + - quo_shift).
Proof.
  apply Z.le_trans with (fexp (digits (Zpos a) - digits (Zpos b))).
  - unfold quo_shift. lia.
  - apply fexp_mono. pose proof quo_digits_lower. lia.
Qed.

Lemma quo_digits_upper :
  digits quo_mantissa + - quo_shift <= digits (Zpos a).
Proof.
  pose proof quo_shift_nonneg as Hs. pose proof quo_nonneg as Hq.
  destruct (digits_bounds (Zpos a) ltac:(lia)) as (Ha1 & _ & Ha).
  assert (quo_mantissa < 2 ^ (digits (Zpos a) + quo_shift)).
  { unfold quo_mantissa in *.
    apply Z.le_lt_trans with (Zpos a * 2 ^ quo_shift).
    - apply Z.div_le_upper_bound; [lia|].
      pose proof (pow2_pos quo_shift Hs). nia.
    - rewrite Z.pow_add_r by lia.
      apply Z.mul_lt_mono_pos_r; [apply pow2_pos; lia|lia]. }
  pose proof (digits_le quo_mantissa (digits (Zpos a) + quo_shift)
                ltac:(lia) ltac:(lia)).
  lia.
Qed.

Lemma quo_ge N : 0 <= N -> N * Zpos b <= Zpos a -> le_dy N 0 quo_mantissa (- quo_shift).
Proof.
  intros HN H. pose proof quo_shift_nonneg as Hs.
  unfold le_dy. rewrite Z.min_r by lia.
  replace (0 - - quo_shift) with quo_shift by lia.
  replace (- quo_shift - - quo_shift) with 0 by lia.
  rewrite Z.pow_0_r, Z.mul_1_r. unfold quo_mantissa.
  apply Z.div_le_lower_bound; [lia|].
  pose proof (pow2_pos quo_shift Hs). nia.
Qed.

(** The quotient is not below [2^(digits a - 1 - digits b)]. *)
Lemma quo_magnitude :
  digits (Zpos b) <= digits (Zpos a) + 1073 ->
  le_dy 1 (digits (Zpos a) - 1 - digits (Zpos b)) quo_mantissa (- quo_shift).
Proof.
  intros Hb. pose proof quo_shift_nonneg as Hs.
  destruct (digits_bounds (Zpos a) ltac:(lia)) as (Ha1 & Ha & _).
  destruct (digits_bounds (Zpos b) ltac:(lia)) as (Hb1 & _ & Hb2).
  set (da := digits (Zpos a)) in *. set (db := digits (Zpos b)) in *.
  assert (Hk : 0 <= da - 1 - db + quo_shift).
  { unfold quo_shift. fold da db. rewrite fexp_eq. lia. }
  unfold le_dy. rewrite Z.min_r by lia.
  replace (- quo_shift - - quo_shift) with 0 by lia.
  rewrite Z.pow_0_r, Z.mul_1_r, Z.mul_1_l.
  replace (da - 1 - db - - quo_shift) with (da - 1 - db + quo_shift) by lia.
  unfold quo_mantissa. apply Z.div_le_lower_bound; [lia|].
  assert (Zpos b * 2 ^ (da - 1 - db + quo_shift)
          <= 2 ^ db * 2 ^ (da - 1 - db + quo_shift)).
  { apply Z.mul_le_mono_nonneg_r; [apply Z.lt_le_incl, pow2_pos; lia|lia]. }
  rewrite <- Z.pow_add_r in H by lia.
  replace (db + (da - 1 - db + quo_shift)) with (da - 1 + quo_shift) in H
    by lia.
  rewrite (Z.pow_add_r 2 (da - 1) quo_shift) in H by lia.
  assert (2 ^ (da - 1) * 2 ^ quo_shift <= Zpos a * 2 ^ quo_shift).
  { apply Z.mul_le_mono_nonneg_r; [apply Z.lt_le_incl, pow2_pos; lia|lia]. }
  lia.
Qed.
End Quotient.


(** *** The square root of a positive float *)
Section Root.
Variables (m : positive) (e : Z).

Definition root_exponent : Z :=
  Z.min (fexp (Z.div2 (digits (Zpos m) + e + 1))) (Z.div2 e).

Definition root_shift : Z := e - 2 * root_exponent.

Definition root_mantissa : Z := Z.sqrt (Zpos m * 2 ^ root_shift).

Lemma root_shift_nonneg : 0 <= root_shift.
Proof.
  unfold root_shift, root_exponent. rewrite !Z.div2_div.
  pose proof (Z.mul_div_le e 2 ltac:(lia)). lia.
Qed.

Lemma sqrt_core :
  exists l,
    SFsqrt_core_binary prec emax (Zpos m) e
    = (root_mantissa, root_exponent, l).
Proof.
  unfold SFsqrt_core_binary, root_mantissa. fold root_exponent.
  fold root_shift. pose proof root_shift_nonneg as Hs.
  assert (Hm : match root_shift with
               | Z0 => Zpos m
               | Zpos _ => Z.shiftl (Zpos m) root_shift
               | Zneg _ => 0
               end = Zpos m * 2 ^ root_shift).
  { destruct root_shift as [|p|p] eqn:E; try lia.
    rewrite Z.shiftl_mul_pow2 by lia. reflexivity. }
  rewrite Hm. rewrite <- Z.sqrtrem_sqrt.
  destruct (Z.sqrtrem (Zpos m * 2 ^ root_shift)) as [q r].
  eexists. reflexivity.
Qed.

Lemma root_radicand :
  2 ^ (digits (Zpos m) + root_shift - 1) <= Zpos m * 2 ^ root_shift
    < 2 ^ (digits (Zpos m) + root_shift).
Proof.
  pose proof root_shift_nonneg as Hs.
  destruct (digits_bounds (Zpos m) ltac:(lia)) as (Hd & Hlo & Hhi).
  pose proof (pow2_pos root_shift Hs).
  replace (digits (Zpos m) + root_shift - 1)
    with (digits (Zpos m) - 1 + root_shift) by lia.
  rewrite !Z.pow_add_r by lia. nia.
Qed.

Lemma root_nonneg : 0 <= root_mantissa.
Proof. apply Z.sqrt_nonneg. Qed.

Lemma root_digits_lower :
  (digits (Zpos m) + root_shift + 1) / 2 <= digits root_mantissa.
Proof.
  pose proof root_shift_nonneg as Hs.
  destruct (digits_bounds (Zpos m) ltac:(lia)) as (Hd & _ & _).
  destruct root_radicand as [Hlo _].
  set (D := digits (Zpos m) + root_shift) in *.
  set (j := (D - 1) / 2).
  assert (Hj : 0 <= j /\ 2 * j <= D - 1 /\ (D + 1) / 2 = j + 1).
  { unfold j. pose proof (Z.div_mod (D - 1) 2 ltac:(lia)).
    pose proof (Z.mod_pos_bound (D - 1) 2 ltac:(lia)).
    pose proof (Z.div_mod (D + 1) 2 ltac:(lia)).
    pose proof (Z.mod_pos_bound (D + 1) 2 ltac:(lia)). lia. }
  destruct Hj as (Hj0 & Hj2 & ->).
  apply digits_ge; [assumption|].
  unfold root_mantissa. apply Z.sqrt_le_square;
    [lia|apply Z.lt_le_incl, pow2_pos; assumption|].
  rewrite <- Z.pow_add_r by lia.
  apply Z.le_trans with (2 ^ (D - 1)); [|assumption].
  apply Z.pow_le_mono_r; lia.
Qed.

Lemma root_digits_upper :
  digits root_mantissa <= (digits (Zpos m) + root_shift + 1) / 2.
Proof.
  pose proof root_shift_nonneg as Hs.
  destruct (digits_bounds (Zpos m) ltac:(lia)) as (Hd & _ & _).
  destruct root_radicand as [_ Hhi].
  set (D := digits (Zpos m) + root_shift) in *.
  set (J := (D + 1) / 2).
  assert (HJ : 0 <= J /\ D <= 2 * J).
  { unfold J. pose proof (Z.div_mod (D + 1) 2 ltac:(lia)).
    pose proof (Z.mod_pos_bound (D + 1) 2 ltac:(lia)). lia. }
  destruct HJ as (HJ0 & HJ2).
  apply digits_le; [|assumption]. split; [apply root_nonneg|].
  unfold root_mantissa. apply Z.sqrt_lt_square;
    [lia|apply Z.lt_le_incl, pow2_pos; assumption|].
  rewrite <- Z.pow_add_r by lia.
  apply Z.lt_le_trans with (2 ^ D); [assumption|].
  apply Z.pow_le_mono_r; lia.
Qed.

Lemma root_magnitude :
  digits root_mantissa + root_exponent = (digits (Zpos m) + e + 1) / 2.
Proof.
  pose proof root_digits_lower. pose proof root_digits_upper.
  assert ((digits (Zpos m) + root_shift + 1) / 2
          = (digits (Zpos m) + e + 1) / 2 - root_exponent).
  { unfold root_shift.
    replace (digits (Zpos m) + (e - 2 * root_exponent) + 1)
      with (digits (Zpos m) + e + 1 + (- root_exponent) * 2) by lia.
    rewrite Z.div_add by lia. lia. }
  lia.
Qed.

Lemma root_exponent_ok :
  root_exponent <= fexp (digits root_mantissa + root_exponent).
Proof.
  rewrite root_magnitude. unfold root_exponent. rewrite !Z.div2_div. lia.
Qed.

Lemma root_ge k :
  0 <= k < 2 ^ 53 -> le_dy (k * k) 0 (Zpos m) e ->
  le_dy k 0 root_mantissa root_exponent.
Proof.
  intros Hk Hle. pose proof root_shift_nonneg as Hs.
  destruct (Z_le_gt_dec root_exponent 0) as [He'|He'].
  - unfold le_dy. rewrite Z.min_r by lia.
    replace (root_exponent - root_exponent) with 0 by lia.
    rewrite Z.pow_0_r, Z.mul_1_r.
    replace (0 - root_exponent) with (- root_exponent) by lia.
    unfold root_mantissa. apply Z.sqrt_le_square.
    + pose proof (pow2_pos root_shift Hs). lia.
    + pose proof (pow2_pos (- root_exponent) ltac:(lia)). nia.
    + replace (k * 2 ^ (- root_exponent) * (k * 2 ^ (- root_exponent)))
        with (k * k * (2 ^ (- root_exponent) * 2 ^ (- root_exponent))) by ring.
      rewrite <- Z.pow_add_r by lia.
      unfold le_dy in Hle.
      destruct (Z_le_gt_dec 0 e) as [He|He].
      * rewrite Z.min_l in Hle by lia. rewrite !Z.sub_0_r in Hle.
        rewrite Z.pow_0_r, Z.mul_1_r in Hle.
        replace root_shift with (e + (- root_exponent + - root_exponent))
          by (unfold root_shift; lia).
        rewrite (Z.pow_add_r 2 e) by lia.
        pose proof (pow2_pos (- root_exponent + - root_exponent) ltac:(lia)).
        nia.
      * rewrite Z.min_r in Hle by lia.
        replace (e - e) with 0 in Hle by lia.
        rewrite Z.pow_0_r, Z.mul_1_r in Hle.
        replace (- root_exponent + - root_exponent) with (0 - e + root_shift)
          by (unfold root_shift; lia).
        rewrite (Z.pow_add_r 2 (0 - e)) by lia.
        pose proof (pow2_pos root_shift Hs). nia.
  - pose proof root_magnitude as Hmag. pose proof root_exponent_ok as Hok.
    rewrite fexp_eq in Hok.
    assert (H54 : 54 <= digits root_mantissa + root_exponent) by lia.
    assert (Hq : 0 < root_mantissa).
    { destruct (Z.eq_dec root_mantissa 0) as [E|]; [|pose proof root_nonneg; lia].
      pose proof root_digits_lower as Hlow. rewrite E in Hlow.
      change (digits 0) with 0 in Hlow.
      destruct (digits_bounds (Zpos m) ltac:(lia)) as (Hd & _ & _).
      assert (1 <= (digits (Zpos m) + root_shift + 1) / 2)
        by (apply Z.div_le_lower_bound; lia).
      lia. }
    destruct (digits_bounds root_mantissa Hq) as (Hd & Hlo & _).
    unfold le_dy. rewrite Z.min_l by lia. rewrite !Z.sub_0_r.
    rewrite Z.pow_0_r, Z.mul_1_r.
    assert (2 ^ 53 <= 2 ^ (digits root_mantissa - 1) * 2 ^ root_exponent).
    { rewrite <- Z.pow_add_r by lia. apply Z.pow_le_mono_r; lia. }
    pose proof (pow2_pos root_exponent ltac:(lia)). nia.
Qed.
End Root.


(** *** The three steps of [int(np.sqrt(a / b))] *)

(** A float that is [+0.0] or positive and below [2^1024]. *)
Definition small (q : spec_float) : Prop :=
  match q with
  | S754_zero false => True
  | S754_finite false m e => digits (Zpos m) + e <= 1024
  | _ => False
  end.

(** A positive float not below the integer [N]. *)
Definition at_least (N : Z) (q : spec_float) : Prop :=
  match q with
  | S754_finite false m e => le_dy N 0 (Zpos m) e
  | _ => False
  end.

Lemma SFdiv_ints sa sb a b :
  exists l,
    SFdiv prec emax (S754_finite sa a 0) (S754_finite sb b 0)
    = binary_round_aux prec emax (xorb sa sb)
        (quo_mantissa a b) (- quo_shift a b) l.
Proof.
  cbn [SFdiv]. destruct (div_core a b) as (l & ->). now exists l.
Qed.

Lemma SFsqrt_pos m e :
  exists l,
    SFsqrt prec emax (S754_finite false m e)
    = binary_round_aux prec emax false
        (root_mantissa m e) (root_exponent m e) l.
Proof.
  cbn [SFsqrt]. destruct (sqrt_core m e) as (l & ->). now exists l.
Qed.

Lemma true_divide_ok a b :
  0 <= a < 2 ^ 1023 -> 0 < b ->
  exists q, true_divide a b = Ok q /\ small q
    /\ forall N, 0 < N < 2 ^ 53 -> N * b <= a -> at_least N q.
Proof.
  intros Ha Hb. unfold true_divide.
  destruct (Z.eqb_spec b 0) as [|_]; [lia|].
  destruct b as [|pb|pb]; try lia.
  destruct a as [|pa|pa]; try lia.
  - exists (S754_zero false). cbn. split; [reflexivity|]. split; [exact I|].
    intros N HN H. lia.
  - cbn [of_int]. destruct (SFdiv_ints false false pa pb) as (l & ->).
    cbn [xorb].
    pose proof (quo_nonneg pa pb) as H0.
    pose proof (quo_exponent pa pb) as He.
    assert (Hmag : digits (quo_mantissa pa pb) + - quo_shift pa pb <= 1023).
    { pose proof (quo_digits_upper pa pb).
      pose proof (digits_le (Zpos pa) 1023 ltac:(lia) ltac:(lia)). lia. }
    pose proof (round_finite false _ _ l H0 He Hmag) as Hfin.
    pose proof (fun N HN H =>
      round_ge false _ _ l H0 He N 0 HN ltac:(lia)
        (quo_ge pa pb N ltac:(lia) H)) as Hge.
    destruct (binary_round_aux prec emax false (quo_mantissa pa pb)
                (- quo_shift pa pb) l) as [s|s| |s m e]; try contradiction.
    + subst s. exists (S754_zero false). split; [reflexivity|].
      split; [exact I|]. intros N HN H. exact (Hge N HN H).
    + destruct Hfin as [-> Hm]. eexists. split; [reflexivity|].
      split; [exact Hm|]. intros N HN H. exact (proj2 (Hge N HN H)).
Qed.

Lemma np_sqrt_ok q :
  small q ->
  small (np_sqrt q)
  /\ forall k, 0 < k < 2 ^ 53 -> at_least (k * k) q -> at_least k (np_sqrt q).
Proof.
  unfold np_sqrt. destruct q as [[|]|[|]| |[|] m e]; cbn [small];
    try contradiction.
  - intros _. cbn. split; [exact I|]. intros k _ [].
  - intros Hmag. destruct (SFsqrt_pos m e) as (l & ->).
    pose proof (root_nonneg m e) as H0.
    pose proof (root_exponent_ok m e) as He.
    assert (Hm : digits (root_mantissa m e) + root_exponent m e <= 1023).
    { rewrite root_magnitude.
      apply Z.le_trans with ((1024 + 1) / 2); [|vm_compute; discriminate].
      apply Z.div_le_mono; lia. }
    pose proof (round_finite false _ _ l H0 He Hm) as Hfin.
    pose proof (fun k Hk H =>
      round_ge false _ _ l H0 He k 0 Hk ltac:(lia)
        (root_ge m e k ltac:(lia) H)) as Hge.
    destruct (binary_round_aux prec emax false (root_mantissa m e)
                (root_exponent m e) l) as [s|s| |s m' e']; try contradiction.
    + subst s. split; [exact I|]. intros k Hk H. exact (Hge k Hk H).
    + destruct Hfin as [-> Hm']. split; [exact Hm'|].
      intros k Hk H. exact (proj2 (Hge k Hk H)).
Qed.

Lemma int_ok q :
  small q ->
  exists d, int q = Ok d /\ 0 <= d /\ forall k, at_least k q -> k <= d.
Proof.
  destruct q as [[|]|[|]| |[|] m e]; cbn [small]; try contradiction.
  - intros _. exists 0. cbn. split; [reflexivity|]. split; [lia|].
    intros k [].
  - intros _. cbn [int at_least].
    destruct (Z.leb_spec 0 e) as [He|He].
    + eexists. split; [reflexivity|].
      pose proof (pow2_pos e He). split; [nia|].
      intros k Hk. unfold le_dy in Hk. rewrite Z.min_l in Hk by lia.
      rewrite !Z.sub_0_r, Z.pow_0_r, Z.mul_1_r in Hk. exact Hk.
    + eexists. split; [reflexivity|].
      pose proof (pow2_pos (- e) ltac:(lia)).
      split; [apply Z.div_pos; lia|].
      intros k Hk. unfold le_dy in Hk. rewrite Z.min_r in Hk by lia.
      replace (e - e) with 0 in Hk by lia.
      rewrite Z.pow_0_r, Z.mul_1_r in Hk.
      replace (0 - e) with (- e) in Hk by lia.
      apply Z.div_le_lower_bound; lia.
Qed.

Lemma int_ge q k d : at_least k q -> int q = Ok d -> k <= d.
Proof.
  destruct q as [s|s| |[|] m e]; cbn [at_least]; try contradiction.
  intros Hk. cbn [int]. destruct (Z.leb_spec 0 e) as [He|He];
    intros [= <-]; unfold le_dy in Hk.
  - rewrite Z.min_l in Hk by lia.
    rewrite !Z.sub_0_r, Z.pow_0_r, Z.mul_1_r in Hk. exact Hk.
  - rewrite Z.min_r in Hk by lia.
    replace (e - e) with 0 in Hk by lia.
    rewrite Z.pow_0_r, Z.mul_1_r in Hk.
    replace (0 - e) with (- e) in Hk by lia.
    pose proof (pow2_pos (- e) ltac:(lia)).
    apply Z.div_le_lower_bound; lia.
Qed.

(** Without a bound on the operands: a quotient that is returned is
    not below an integer that the exact quotient reaches. *)
Lemma true_divide_ge a b q N :
  true_divide a b = Ok q -> 0 < b -> 0 < N < 2 ^ 53 -> N * b <= a ->
  at_least N q.
Proof.
  unfold true_divide. destruct (Z.eqb_spec b 0) as [|_]; [lia|].
  intros Hq Hb HN Hab.
  destruct b as [|pb|pb]; try lia. destruct a as [|pa|pa]; try lia.
  cbn [of_int] in Hq. destruct (SFdiv_ints false false pa pb) as (l & Hdiv).
  rewrite Hdiv in Hq. cbn [xorb] in Hq.
  pose proof (round_ge false _ _ l (quo_nonneg pa pb) (quo_exponent pa pb)
                N 0 HN ltac:(lia) (quo_ge pa pb N ltac:(lia) Hab)) as Hge.
  destruct (binary_round_aux prec emax false (quo_mantissa pa pb)
              (- quo_shift pa pb) l) as [s|s| |s m e]; try contradiction.
  - discriminate.
  - destruct Hge as [-> Hge]. injection Hq as <-. exact Hge.
Qed.

Lemma np_sqrt_ge q k :
  0 < k < 2 ^ 53 -> at_least (k * k) q ->
  at_least k (np_sqrt q) \/ np_sqrt q = S754_infinity false.
Proof.
  intros Hk. unfold np_sqrt.
  destruct q as [s|s| |[|] m e]; cbn [at_least]; try contradiction.
  intros Hle. destruct (SFsqrt_pos m e) as (l & ->).
  pose proof (round_ge false _ _ l (root_nonneg m e) (root_exponent_ok m e)
                k 0 Hk ltac:(lia) (root_ge m e k ltac:(lia) Hle)) as Hge.
  destruct (binary_round_aux prec emax false (root_mantissa m e)
              (root_exponent m e) l) as [s|s| |s m' e']; try contradiction.
  - right. now subst s.
  - left. destruct Hge as [-> Hge]. exact Hge.
Qed.

(** A negative quotient that neither overflows nor underflows is a
    negative float, whose square root is NaN. *)
Lemma true_divide_negative a b :
  a * b < 0 -> Z.abs a < 2 ^ 1023 -> Z.abs b < 2 ^ 1074 ->
  exists m e, true_divide a b = Ok (S754_finite true m e).
Proof.
  intros Hab Ha Hb. unfold true_divide.
  destruct (Z.eqb_spec b 0) as [|_]; [lia|].
  assert (Hgen : forall sa sb pa pb,
    xorb sa sb = true -> Zpos pa < 2 ^ 1023 -> Zpos pb < 2 ^ 1074 ->
    exists m e,
      match SFdiv prec emax (S754_finite sa pa 0) (S754_finite sb pb 0) with
      | S754_infinity _ => Raise OverflowError
      | q => Ok q
      end = Ok (S754_finite true m e)).
  { intros sa sb pa pb Hx Hpa Hpb.
    destruct (SFdiv_ints sa sb pa pb) as (l & ->). rewrite Hx.
    pose proof (quo_nonneg pa pb) as H0.
    pose proof (quo_exponent pa pb) as He.
    destruct (digits_bounds (Zpos pa) ltac:(lia)) as (Hda & _ & _).
    pose proof (digits_le (Zpos pa) 1023 ltac:(lia) ltac:(lia)) as Hda'.
    pose proof (digits_le (Zpos pb) 1074 ltac:(lia) ltac:(lia)) as Hdb.
    assert (Hmag : digits (quo_mantissa pa pb) + - quo_shift pa pb <= 1023)
      by (pose proof (quo_digits_upper pa pb); lia).
    pose proof (round_finite true _ _ l H0 He Hmag) as Hfin.
    pose proof (round_ge true _ _ l H0 He 1
                  (digits (Zpos pa) - 1 - digits (Zpos pb))
                  ltac:(split; [lia|reflexivity]) ltac:(lia)
                  (quo_magnitude pa pb ltac:(lia))) as Hge.
    destruct (binary_round_aux prec emax true (quo_mantissa pa pb)
                (- quo_shift pa pb) l) as [s|s| |s m e]; try contradiction.
    destruct Hfin as [-> _]. eauto. }
  destruct a as [|pa|pa], b as [|pb|pb]; try lia; cbn [of_int];
    apply Hgen; try reflexivity; lia.
Qed.

End Float64Facts.

(** ** The minimum distance between seeds *)
Module MinDistanceFacts.
Import RegionGenerator Float64 Float64Facts.

Lemma min_distance_of_zero width height num_regions :
  num_regions = 0 ->
  min_distance_of width height num_regions = Raise ZeroDivisionError.
Proof. intros ->. reflexivity. Qed.

(** On a map of fewer than [2^1023] cells the minimum distance is
    computed without an exception, is not negative, and is not below any
    [k] whose square the quotient reaches. *)
Lemma min_distance_of_ok width height num_regions :
  0 <= width * height < 2 ^ 1023 -> 1 <= num_regions ->
  exists d, min_distance_of width height num_regions = Ok d /\ 0 <= d
    /\ forall k, 0 <= k < 2 ^ 26 ->
         k * k * (num_regions * 2) <= width * height -> k <= d.
Proof.
  intros Ha Hn. unfold min_distance_of.
  destruct (true_divide_ok (width * height) (num_regions * 2) Ha ltac:(lia))
    as (q & -> & Hq & Hge).
  cbn [bind]. destruct (np_sqrt_ok q Hq) as (Hs & Hsge).
  destruct (int_ok (np_sqrt q) Hs) as (d & -> & Hd & Hdge).
  exists d. split; [reflexivity|]. split; [assumption|].
  intros k Hk Hkk. destruct (Z.eq_dec k 0) as [->|Hk0]; [assumption|].
  assert (Hk53 : 0 < k < 2 ^ 53).
  { split; [lia|]. apply Z.lt_trans with (2 ^ 26); [lia|reflexivity]. }
  apply Hdge, Hsge; [assumption|]. apply Hge; [|assumption].
  split; [nia|].
  assert (k * k < 2 ^ 26 * 2 ^ 26) by nia.
  apply Z.lt_trans with (2 ^ 26 * 2 ^ 26); [assumption|reflexivity].
Qed.

(** Whatever the size of the map: a minimum distance that is returned
    is not below a [k] whose square the quotient reaches. *)
Lemma min_distance_of_ge width height num_regions d k :
  min_distance_of width height num_regions = Ok d ->
  1 <= num_regions -> 0 < k < 2 ^ 26 ->
  k * k * (num_regions * 2) <= width * height -> k <= d.
Proof.
  unfold min_distance_of. intros Hd Hn Hk Hkk.
  destruct (true_divide (width * height) (num_regions * 2)) as [q|]
    eqn:Eq; cbn [bind] in Hd; [|discriminate].
  assert (Hk53 : 0 < k < 2 ^ 53).
  { split; [lia|]. apply Z.lt_trans with (2 ^ 26); [lia|reflexivity]. }
  assert (Hkk53 : 0 < k * k < 2 ^ 53).
  { split; [nia|].
    assert (k * k < 2 ^ 26 * 2 ^ 26) by nia.
    apply Z.lt_trans with (2 ^ 26 * 2 ^ 26); [assumption|reflexivity]. }
  pose proof (true_divide_ge _ _ _ (k * k) Eq ltac:(lia) Hkk53 Hkk) as Hq.
  destruct (np_sqrt_ge q k Hk53 Hq) as [Hs|Hs].
  - exact (int_ge _ _ _ Hs Hd).
  - rewrite Hs in Hd. discriminate.
Qed.

Lemma min_distance_of_negative width height num_regions :
  width * height * num_regions < 0 ->
  Z.abs (width * height) < 2 ^ 1023 -> Z.abs num_regions < 2 ^ 1073 ->
  exists msg,
    min_distance_of width height num_regions = Raise (ValueError msg).
Proof.
  intros Hneg Ha Hn. unfold min_distance_of.
  destruct (true_divide_negative (width * height) (num_regions * 2))
    as (m & e & ->); [nia|assumption| |cbn; eauto].
  change (2 ^ 1074) with (2 ^ 1073 * 2). lia.
Qed.

End MinDistanceFacts.

(** ** Seed selection *)
Module SeedFacts.
Import RegionGenerator PyFacts.

(** Seeds at two different positions of the list are at least [d] apart. *)
Definition separated (d : Z) (seeds : list point) : Prop :=
  forall i j p q, i <> j ->
    nth_error seeds i = Some p -> nth_error seeds j = Some q ->
    d <= _manhattan_distance (fst p) (snd p) (fst q) (snd q).

(** The same with the distance written out. *)
Definition apart (d : Z) (seeds : list point) : Prop :=
  forall i j p q, i <> j ->
    nth_error seeds i = Some p -> nth_error seeds j = Some q ->
    d <= Z.abs (fst p - fst q) + Z.abs (snd p - snd q).

(** Every cell of the [width] by [height] map can be read in [biome_map]. *)
Definition covers (biome_map : list (list string)) (width height : Z) : bool :=
  forallb (fun '(x, y) => is_ok (getitem2 biome_map y x)) (cells width height).

Lemma separated_apart d seeds : separated d seeds <-> apart d seeds.
Proof. split; intros H; exact H. Qed.

Lemma manhattan_sym x1 y1 x2 y2 :
  _manhattan_distance x1 y1 x2 y2 = _manhattan_distance x2 y2 x1 y1.
Proof. unfold _manhattan_distance. lia. Qed.

Lemma In_cells width height x y :
  In (x, y) (cells width height) <-> 0 <= x < width /\ 0 <= y < height.
Proof.
  unfold cells. rewrite in_flat_map. split.
  - intros (y' & Hy & Hin). apply in_map_iff in Hin as (x' & [= <- <-] & Hx).
    apply In_range in Hy, Hx. lia.
  - intros [Hx Hy]. exists y. split; [now apply In_range|].
    apply in_map_iff. exists x. split; [reflexivity|now apply In_range].
Qed.

Lemma separated_nil d : separated d [].
Proof. intros i j p q _ Hi. destruct i; discriminate. Qed.

Lemma too_close_false d x y seeds :
  too_close d x y seeds = false ->
  forall q, In q seeds -> d <= _manhattan_distance x y (fst q) (snd q).
Proof.
  unfold too_close. intros Hc [sx sy] Hq.
  destruct (Z.ltb_spec (_manhattan_distance x y sx sy) d) as [Hlt|Hge];
    [|exact Hge].
  exfalso. apply (Bool.eq_true_false_abs _ (proj2 (existsb_exists _ _)
    (ex_intro _ (sx, sy) (conj Hq (proj2 (Z.ltb_lt _ _) Hlt)))) Hc).
Qed.

Lemma separated_snoc d seeds x y :
  separated d seeds ->
  (forall q, In q seeds -> d <= _manhattan_distance x y (fst q) (snd q)) ->
  separated d (seeds ++ [(x, y)]).
Proof.
  intros Hs Hnew i j p q Hij Hi Hj.
  assert (Hcase : forall k r, nth_error (seeds ++ [(x, y)]) k = Some r ->
            (k < List.length seeds)%nat /\ nth_error seeds k = Some r
            \/ k = List.length seeds /\ r = (x, y)).
  { intros k r Hk.
    destruct (Nat.lt_ge_cases k (List.length seeds)) as [Hlt|Hge].
    - left. split; [assumption|]. now rewrite nth_error_app1 in Hk.
    - right. rewrite nth_error_app2 in Hk by assumption.
      destruct (k - List.length seeds)%nat as [|m] eqn:Em; simpl in Hk.
      + injection Hk as <-. split; [lia|reflexivity].
      + destruct m; discriminate. }
  destruct (Hcase i p Hi) as [[Hil Hip] | [Hil ->]];
  destruct (Hcase j q Hj) as [[Hjl Hjq] | [Hjl ->]].
  - eapply Hs; eassumption.
  - rewrite manhattan_sym. apply Hnew. eapply nth_error_In; eassumption.
  - apply Hnew. eapply nth_error_In; eassumption.
  - lia.
Qed.

Section Loop.
Context {G : Type} `{Random.Source G}.

(** [k] iterations of the loop body, whatever the guard. *)
Fixpoint after_attempts (k : nat) (min_distance : Z) (st : loop_state) (g : G)
  : loop_state * G :=
  match k with
  | O => (st, g)
  | S k' =>
      let (st', g') := attempt min_distance st g in
      after_attempts k' min_distance st' g'
  end.

Lemma attempt_attempts d st g :
  attempts (fst (attempt d st g)) = attempts st + 1.
Proof.
  unfold attempt. destruct (Random.uniform _ _ g) as [r g1].
  destruct (select _ _ _) as [[[x y] w]|];
    [destruct (negb _)|]; reflexivity.
Qed.

Lemma attempt_seeds d st g :
  seeds (fst (attempt d st g)) = seeds st
  \/ exists x y,
       seeds (fst (attempt d st g)) = seeds st ++ [(x, y)]
       /\ too_close d x y (seeds st) = false.
Proof.
  unfold attempt. destruct (Random.uniform _ _ g) as [r g1].
  destruct (select _ _ _) as [[[x y] w]|]; [|now left].
  destruct (too_close d x y (seeds st)) eqn:E; simpl; [now left|].
  right. now exists x, y.
Qed.

Lemma attempt_separated d st g :
  separated d (seeds st) -> separated d (seeds (fst (attempt d st g))).
Proof.
  intros Hs. destruct (attempt_seeds d st g) as [-> | (x & y & -> & Hc)];
    [assumption|].
  apply separated_snoc; [assumption|]. now apply too_close_false.
Qed.

Lemma after_attempts_separated k d st g :
  separated d (seeds st) ->
  separated d (seeds (fst (after_attempts k d st g))).
Proof.
  revert st g. induction k as [|k IH]; intros st g Hs; simpl; [assumption|].
  pose proof (attempt_separated d st g Hs) as Hs'.
  destruct (attempt d st g) as [st1 g1]. now apply IH.
Qed.

Lemma after_attempts_attempts k d st g :
  attempts (fst (after_attempts k d st g)) = attempts st + Z.of_nat k.
Proof.
  revert st g. induction k as [|k IH]; intros st g; simpl; [lia|].
  pose proof (attempt_attempts d st g) as Ha.
  destruct (attempt d st g) as [st1 g1]. rewrite IH. simpl in Ha. lia.
Qed.

(** The loop performs some number [k] of iterations, the guard holding
    before each of them, and stops at the first state that falsifies the
    guard unless the [n] unrollings are used up. *)
Lemma while_loop_trace d nr ma n st g :
  exists k, (k <= n)%nat
    /\ while_loop n d nr ma st g = after_attempts k d st g
    /\ (forall j, (j < k)%nat ->
          loop_guard nr ma (fst (after_attempts j d st g)) = true)
    /\ ((k < n)%nat ->
          loop_guard nr ma (fst (after_attempts k d st g)) = false).
Proof.
  revert st g. induction n as [|n IH]; intros st g.
  - exists O. simpl. repeat split; intros; lia.
  - simpl. destruct (loop_guard nr ma st) eqn:Eg.
    + destruct (attempt d st g) as [st1 g1] eqn:Ea.
      destruct (IH st1 g1) as (k & Hk & Heq & Hlt & Hstop).
      exists (S k). simpl. rewrite Ea. split; [lia|]. split; [exact Heq|].
      split.
      * intros [|j] Hj; simpl; [exact Eg|]. rewrite Ea. apply Hlt. lia.
      * intros Hkn. apply Hstop. lia.
    + exists O. simpl. split; [lia|]. split; [reflexivity|].
      split; [intros; lia|]. intros _. exact Eg.
Qed.

Lemma after_attempts_seeds_bounded nr ma k d st g :
  Z.of_nat (List.length (seeds st)) <= nr ->
  (forall j, (j < k)%nat ->
     loop_guard nr ma (fst (after_attempts j d st g)) = true) ->
  Z.of_nat (List.length (seeds (fst (after_attempts k d st g)))) <= nr.
Proof.
  revert st g. induction k as [|k IH]; intros st g Hlen Hguard; simpl;
    [assumption|].
  pose proof (Hguard O ltac:(lia)) as H0. simpl in H0.
  unfold loop_guard in H0. apply andb_prop in H0 as [H0 _].
  apply Z.ltb_lt in H0.
  pose proof (attempt_seeds d st g) as Hs.
  assert (Hstep : forall j, (j < k)%nat ->
    loop_guard nr ma
      (fst (let (st', g') := attempt d st g in after_attempts j d st' g'))
    = true) by (intros j Hj; apply (Hguard (S j)); lia).
  destruct (attempt d st g) as [st1 g1]. simpl in Hs.
  apply IH; [|exact Hstep].
  destruct Hs as [-> | (x & y & -> & _)]; [lia|].
  rewrite length_app. simpl. lia.
Qed.
End Loop.

Section SeedPoints.
Context {G : Type} `{Random.Source G}.

Lemma seed_search_inv width height num_regions biome_map (g g' : G) st :
  seed_search width height num_regions biome_map g = (Ok st, g') ->
  exists d vp,
    min_distance_of width height num_regions = Ok d
    /\ while_loop (Z.to_nat (num_regions * 100)) d num_regions
         (num_regions * 100)
         {| seeds := []; valid_positions := vp; attempts := 0 |} g
       = (st, g').
Proof.
  unfold seed_search.
  destruct (min_distance_of width height num_regions) as [d|e];
    cbn [bind]; [|discriminate].
  match goal with
  | |- context [mapM ?f ?l] => destruct (mapM f l) as [vp|e]
  end; cbn [bind]; [|discriminate].
  destruct (while_loop _ _ _ _ _ g) as [st1 g1] eqn:E.
  intros [= <- <-]. now exists d, (sort_desc vp).
Qed.


(** C9: for num_regions >= 1 on a map of non-negative area below 2^1023
    that [biome_map] covers (so that nothing raises before the loop),
    [_generate_seed_points] returns normally.  Its loop makes at most
    num_regions * 100 attempts; before each of them fewer than
    num_regions seeds were placed, so it stops as soon as num_regions
    seeds are placed; a list shorter than num_regions is returned only
    with the attempt budget used up. *)
Theorem seed_selection_bounded width height num_regions biome_map
    min_region_size (g : G) :
  1 <= num_regions -> 0 <= width * height < 2 ^ 1023 ->
  covers biome_map width height = true ->
  exists st g' d st0,
    seed_search width height num_regions biome_map g = (Ok st, g')
    /\ _generate_seed_points width height num_regions biome_map
         min_region_size g = (Ok (seeds st), g')
    /\ seeds st0 = [] /\ attempts st0 = 0
    /\ (st, g') = after_attempts (Z.to_nat (attempts st)) d st0 g
    /\ 0 <= attempts st <= num_regions * 100
    /\ Z.of_nat (List.length (seeds st)) <= num_regions
    /\ (Z.of_nat (List.length (seeds st)) < num_regions ->
          attempts st = num_regions * 100)
    /\ (forall k, (k < Z.to_nat (attempts st))%nat ->
          Z.of_nat (List.length (seeds (fst (after_attempts k d st0 g))))
          < num_regions).
Proof.
  intros Hnr Harea Hcov.
  destruct (MinDistanceFacts.min_distance_of_ok width height num_regions
              Harea Hnr) as (d & Hd & _).
  destruct (mapM_ok
    (fun '(x, y) => biome <- getitem2 biome_map y x ;;
                    Ok (x, y, _get_biome_weight biome))
    (cells width height)) as (vp & Hvp & _).
  { intros [x y] Hc. unfold covers in Hcov.
    rewrite forallb_forall in Hcov. specialize (Hcov _ Hc). simpl in Hcov.
    destruct (getitem2 biome_map y x); [|discriminate]. simpl. eauto. }
  set (ma := num_regions * 100).
  set (st0 := {| seeds := []; valid_positions := sort_desc vp;
                 attempts := 0 |}).
  destruct (while_loop_trace d num_regions ma (Z.to_nat ma) st0 g)
    as (k & Hk & Heq & Hguard & Hstop).
  pose proof (after_attempts_attempts k d st0 g) as Hatt.
  pose proof (after_attempts_seeds_bounded num_regions ma k d st0 g
                ltac:(simpl; lia) Hguard) as Hlen.
  destruct (after_attempts k d st0 g) as [st g'] eqn:Ek.
  simpl in Hatt, Hlen.
  assert (Hss : seed_search width height num_regions biome_map g
                = (Ok st, g')).
  { unfold seed_search. rewrite Hd. cbn [bind]. rewrite Hvp. cbn [bind].
    fold ma st0. now rewrite Heq. }
  exists st, g', d, st0. split; [exact Hss|]. split.
  { unfold _generate_seed_points. now rewrite Hss. }
  split; [reflexivity|]. split; [reflexivity|].
  assert (Hkk : Z.to_nat (attempts st) = k) by lia.
  split; [now rewrite Hkk|]. split; [lia|]. split; [exact Hlen|]. split.
  - intros Hshort.
    destruct (Nat.eq_dec k (Z.to_nat ma)) as [->|Hne]; [lia|].
    specialize (Hstop ltac:(lia)). simpl in Hstop.
    unfold loop_guard in Hstop. apply andb_false_iff in Hstop.
    destruct Hstop as [Hs|Hs]; apply Z.ltb_ge in Hs; lia.
  - intros j Hj. rewrite Hkk in Hj. specialize (Hguard j Hj).
    unfold loop_guard in Hguard. apply andb_prop in Hguard as [Hg _].
    now apply Z.ltb_lt in Hg.
Qed.
End SeedPoints.

#[local] Existing Instance Random.replay.

Definition meadow : list (list string) :=
  [["grassland"; "grassland"; "grassland"]]%string.

Definition plain : list (list string) :=
  [["grassland"; "grassland"; "grassland"; "grassland"]]%string.



Lemma seed_selection_bounded_witness :
  exists st g' d st0,
    seed_search 3 1 2 meadow
      [0%float; 0.99%float] = (Ok st, g')
    /\ _generate_seed_points 3 1 2 meadow 20 [0%float; 0.99%float]
       = (Ok (seeds st), g')
    /\ seeds st0 = [] /\ attempts st0 = 0
    /\ (st, g') = after_attempts (Z.to_nat (attempts st)) d st0
                    [0%float; 0.99%float]
    /\ 0 <= attempts st <= 2 * 100
    /\ Z.of_nat (List.length (seeds st)) <= 2
    /\ (Z.of_nat (List.length (seeds st)) < 2 -> attempts st = 2 * 100)
    /\ (forall k, (k < Z.to_nat (attempts st))%nat ->
          Z.of_nat (List.length (seeds (fst (after_attempts k d st0
                                               [0%float; 0.99%float]))))
          < 2).
Proof.
  apply (seed_selection_bounded
           3 1 2 meadow 20 [0%float; 0.99%float]);
    [lia|split; [lia|reflexivity]|reflexivity].
Defined.

(** C9 as stated fails: with one region asked for the function raises
    before its loop when the quotient is negative, when it is too large
    for a float, and when [biome_map] does not cover the map. *)
Lemma seed_points_can_raise :
  (exists msg,
     _generate_seed_points (-1) 1 1 [] 20 [0.5%float]
     = (Raise (ValueError msg), [0.5%float]))
  /\ _generate_seed_points (- 10 ^ 200) (- 10 ^ 200) 1 [] 20 [0.5%float]
     = (Raise OverflowError, [0.5%float])
  /\ _generate_seed_points 1 1 1 [] 20 [0.5%float]
     = (Raise IndexError, [0.5%float]).
Proof.
  split; [eexists; vm_compute; reflexivity|]. split; vm_compute; reflexivity.
Qed.

End SeedFacts.

(** ** Reading and writing cells of a grid *)
Module GridFacts.
Import PyFacts NoiseFacts.

Lemma replace_nth_length {A} n (v : A) l :
  List.length (replace_nth n v l) = List.length l.
Proof.
  revert n. induction l as [|a t IH]; intros [|n]; simpl; auto.
Qed.

Lemma nth_error_replace_nth_eq {A} n (v : A) l :
  (n < List.length l)%nat -> nth_error (replace_nth n v l) n = Some v.
Proof.
  revert n. induction l as [|a t IH]; intros [|n] Hn; simpl in *;
    try lia; [reflexivity|]. apply IH. lia.
Qed.

Lemma nth_error_replace_nth_neq {A} n m (v : A) l :
  n <> m -> nth_error (replace_nth n v l) m = nth_error l m.
Proof.
  revert n m. induction l as [|a t IH]; intros [|n] [|m] Hnm; simpl;
    try reflexivity; try congruence.
  apply IH. congruence.
Qed.

Lemma replace_nth_In {A} n (v : A) l r :
  In r (replace_nth n v l) -> r = v \/ In r l.
Proof.
  revert n. induction l as [|a t IH]; intros [|n]; simpl; try tauto.
  - intros [<-|Hin]; tauto.
  - intros [<-|Hin]; [tauto|]. destruct (IH _ Hin); tauto.
Qed.

Lemma setitem_nonneg {A} (l : list A) i v :
  0 <= i ->
  setitem l i v = if i <? Z.of_nat (List.length l)
                  then Ok (replace_nth (Z.to_nat i) v l)
                  else Raise IndexError.
Proof.
  intros Hi. unfold setitem. destruct (i <? 0) eqn:E; [lia|]. rewrite E. simpl.
  destruct (Z.leb_spec (Z.of_nat (List.length l)) i);
    destruct (Z.ltb_spec i (Z.of_nat (List.length l))); try lia; reflexivity.
Qed.

(** A write at [(x, y)] is seen by a read at [(x, y)] and by no other read. *)
Lemma getitem2_setitem2 {A} (g g' : list (list A)) x y x' y' v :
  0 <= x -> 0 <= y -> 0 <= x' -> 0 <= y' ->
  setitem2 g y x v = Ok g' ->
  getitem2 g' y' x' = if (x' =? x) && (y' =? y) then Ok v else getitem2 g y' x'.
Proof.
  intros Hx Hy Hx' Hy'. unfold setitem2, getitem2.
  rewrite !getitem_nonneg by assumption.
  destruct (nth_error g (Z.to_nat y)) as [row|] eqn:Erow; cbn [bind];
    [|discriminate].
  rewrite !setitem_nonneg by assumption.
  destruct (Z.ltb_spec x (Z.of_nat (List.length row))) as [Hxl|];
    cbn [bind]; [|discriminate].
  rewrite setitem_nonneg by assumption.
  destruct (Z.ltb_spec y (Z.of_nat (List.length g))) as [Hyl|]; [|discriminate].
  intros [= <-].
  destruct (Z.eqb_spec y' y) as [->|Hne].
  - rewrite nth_error_replace_nth_eq by lia. rewrite Erow. cbn [bind].
    rewrite !getitem_nonneg by assumption.
    destruct (Z.eqb_spec x' x) as [->|Hnx]; cbn [andb].
    + now rewrite nth_error_replace_nth_eq by lia.
    + now rewrite nth_error_replace_nth_neq by lia.
  - rewrite andb_false_r.
    now rewrite nth_error_replace_nth_neq by lia.
Qed.

Lemma setitem2_shaped {A} h w (g g' : list (list A)) x y v :
  0 <= x -> 0 <= y -> shaped h w g -> setitem2 g y x v = Ok g' -> shaped h w g'.
Proof.
  intros Hx Hy [Hh Hw]. unfold setitem2.
  rewrite getitem_nonneg by assumption.
  destruct (nth_error g (Z.to_nat y)) as [row|] eqn:Erow; cbn [bind];
    [|discriminate].
  rewrite !setitem_nonneg by assumption.
  destruct (x <? _); cbn [bind]; [|discriminate].
  rewrite setitem_nonneg by assumption.
  destruct (y <? _); [|discriminate]. intros [= <-]. split.
  - now rewrite replace_nth_length.
  - rewrite Forall_forall in *. intros r Hr.
    apply replace_nth_In in Hr as [->|Hr]; [|now apply Hw].
    rewrite replace_nth_length. apply Hw. eapply nth_error_In; eassumption.
Qed.

Lemma setitem2_ok {A} h w (g : list (list A)) x y v :
  shaped h w g -> 0 <= x < Z.of_nat w -> 0 <= y < Z.of_nat h ->
  exists g', setitem2 g y x v = Ok g'.
Proof.
  intros [Hh Hw] Hx Hy. unfold setitem2.
  destruct (getitem_in_bounds g y) as (row & -> & Hrow); [lia|]. cbn [bind].
  rewrite Forall_forall in Hw. specialize (Hw row Hrow).
  rewrite !setitem_nonneg by lia.
  destruct (Z.ltb_spec x (Z.of_nat (List.length row))); [|lia]. cbn [bind].
  rewrite setitem_nonneg by lia.
  destruct (Z.ltb_spec y (Z.of_nat (List.length g))); [|lia]. eauto.
Qed.

(** Loops over a list [all]: an invariant of the part already traversed. *)
Lemma foldM_invariant {A S} (body : S -> A -> result S) (I : list A -> S -> Prop)
    (all : list A) :
  (forall done a rest s s', done ++ a :: rest = all ->
     I done s -> body s a = Ok s' -> I (done ++ [a]) s') ->
  forall rest done s s',
    done ++ rest = all -> I done s -> foldM body rest s = Ok s' -> I all s'.
Proof.
  intros Hstep rest. induction rest as [|a t IH]; intros done s s' Hall Hi; simpl.
  - intros [= <-]. rewrite app_nil_r in Hall. now subst.
  - destruct (body s a) as [s1|] eqn:Eb; cbn [bind]; [|discriminate].
    apply (IH (done ++ [a])).
    + now rewrite <- app_assoc.
    + eapply Hstep; eassumption.
Qed.

Lemma foldM_total {A S} (body : S -> A -> result S) (I : list A -> S -> Prop)
    (all : list A) :
  (forall done a rest s, done ++ a :: rest = all ->
     I done s -> exists s', body s a = Ok s' /\ I (done ++ [a]) s') ->
  forall rest done s,
    done ++ rest = all -> I done s ->
    exists s', foldM body rest s = Ok s' /\ I all s'.
Proof.
  intros Hstep rest. induction rest as [|a t IH]; intros done s Hall Hi; simpl.
  - exists s. rewrite app_nil_r in Hall. subst. auto.
  - destruct (Hstep done a t s Hall Hi) as (s1 & -> & Hi1). cbn [bind].
    apply (IH (done ++ [a])); [now rewrite <- app_assoc|assumption].
Qed.

End GridFacts.

(** ** Assignment of cells to regions *)
Module RegionFacts.
Import RegionGenerator PyFacts NoiseFacts GridFacts SeedFacts.

Lemma NoDup_rows width (ys : list Z) :
  NoDup ys ->
  NoDup (flat_map (fun y => map (fun x => (x, y)) (range width)) ys).
Proof.
  induction ys as [|y ys IH]; intros Hnd; simpl; [constructor|].
  inversion Hnd as [|? ? Hy Hys]; subst. apply NoDup_app.
  - apply NoDup_map_NoDup_ForallPairs; [|apply NoDup_range].
    intros a b _ _ [= ->]. reflexivity.
  - now apply IH.
  - intros [a b] Ha Hb. apply in_map_iff in Ha as (x & [= <- <-] & _).
    apply in_flat_map in Hb as (y' & Hy' & Hb).
    apply in_map_iff in Hb as (x' & [= _ ->] & _). contradiction.
Qed.

Lemma NoDup_cells width height : NoDup (cells width height).
Proof. apply NoDup_rows, NoDup_range. Qed.

Lemma nth_error_snoc {A} (l : list A) a k r :
  nth_error (l ++ [a]) k = Some r ->
  (k < List.length l)%nat /\ nth_error l k = Some r
  \/ k = List.length l /\ r = a.
Proof.
  intros Hk. destruct (Nat.lt_ge_cases k (List.length l)) as [Hlt|Hge].
  - left. split; [assumption|]. now rewrite nth_error_app1 in Hk.
  - right. rewrite nth_error_app2 in Hk by assumption.
    destruct (k - List.length l)%nat as [|m] eqn:Em; simpl in Hk.
    + injection Hk as <-. split; [lia|reflexivity].
    + destruct m; discriminate.
Qed.

Section Nearest.
Variables x y : Z.

Definition dist_to (s : point) : Z := _manhattan_distance x y (fst s) (snd s).

(** [s] is the seed of index [r] in [l]; no seed of [l] is nearer to
    [(x, y)], and every seed of lower index is strictly farther. *)
Definition nearest_at (l : list point) (r : Z) (s : point) : Prop :=
  0 <= r /\ nth_error l (Z.to_nat r) = Some s
  /\ (forall j s', nth_error l j = Some s' -> dist_to s <= dist_to s')
  /\ (forall j s', (j < Z.to_nat r)%nat -> nth_error l j = Some s' ->
        dist_to s < dist_to s').

Lemma nearest_from_correct sds :
  forall pre min_dist nearest_region,
    match min_dist with
    | None => pre = []
    | Some m => exists s, nearest_at pre nearest_region s /\ m = dist_to s
    end ->
    pre ++ sds <> [] ->
    exists s,
      nearest_at (pre ++ sds)
        (nearest_from x y sds (Z.of_nat (List.length pre)) min_dist
           nearest_region) s.
Proof.
  induction sds as [|[sx sy] t IH]; intros pre md nr Hinv Hne.
  - rewrite app_nil_r in *. simpl. destruct md as [m|].
    + destruct Hinv as (s & Hs & _). now exists s.
    + contradiction.
  - simpl. change (_manhattan_distance x y sx sy) with (dist_to (sx, sy)).
    change (pre ++ (sx, sy) :: t) with (pre ++ [(sx, sy)] ++ t).
    rewrite app_assoc.
    replace (Z.of_nat (List.length pre) + 1)
      with (Z.of_nat (List.length (pre ++ [(sx, sy)])))
      by (rewrite length_app; simpl; lia).
    assert (Hne' : (pre ++ [(sx, sy)]) ++ t <> [])
      by (destruct pre; discriminate).
    destruct md as [m|].
    + destruct Hinv as (s & (Hr & Hs & Hmin & Hlow) & ->).
      assert (Hrl : (Z.to_nat nr < List.length pre)%nat)
        by (apply nth_error_Some; congruence).
      destruct (Z.ltb_spec (dist_to (sx, sy)) (dist_to s)) as [Hlt|Hge];
        apply IH; try assumption.
      * exists (sx, sy). split; [|reflexivity].
        split; [lia|]. rewrite Nat2Z.id. split.
        { rewrite nth_error_app2 by lia. now rewrite Nat.sub_diag. }
        split.
        { intros j s' Hj. apply nth_error_snoc in Hj as [[_ Hj]|[_ ->]];
            [|lia]. specialize (Hmin _ _ Hj). lia. }
        { intros j s' Hjl Hj. apply nth_error_snoc in Hj as [[_ Hj]|[-> _]];
            [|lia]. specialize (Hmin _ _ Hj). lia. }
      * exists s. split; [|reflexivity].
        split; [assumption|]. split.
        { rewrite nth_error_app1 by assumption. assumption. }
        split.
        { intros j s' Hj. apply nth_error_snoc in Hj as [[_ Hj]|[_ ->]];
            [now apply (Hmin j)|assumption]. }
        { intros j s' Hjl Hj. apply nth_error_snoc in Hj as [[_ Hj]|[-> _]];
            [now apply (Hlow j)|lia]. }
    + subst pre. apply IH; [|assumption].
      exists (sx, sy). split; [|reflexivity].
      split; [lia|]. split; [reflexivity|]. split.
      * intros [|[|j]] s' Hj; simpl in Hj; try discriminate.
        injection Hj as <-. lia.
      * intros j s' Hjl. simpl in Hjl. lia.
Qed.

Lemma nearest_seed_correct sds :
  sds <> [] -> exists s, nearest_at sds (nearest_seed x y sds) s.
Proof.
  intros Hne. apply (nearest_from_correct sds [] None (-1)); auto.
Qed.
End Nearest.

Lemma lookup_modify k f d id :
  lookup id (modify k f d)
  = if id =? k
    then Some (f match lookup k d with Some r => r | None => default_region end)
    else lookup id d.
Proof.
  induction d as [|[k' v] t IH]; simpl.
  - rewrite (Z.eqb_sym k id). now destruct (id =? k).
  - destruct (Z.eqb_spec k' k) as [->|Hne]; simpl.
    + rewrite (Z.eqb_sym k id). now destruct (Z.eqb_spec id k).
    + rewrite IH. destruct (Z.eqb_spec k' id) as [->|Hne'].
      * destruct (Z.eqb_spec id k); [congruence|reflexivity].
      * reflexivity.
Qed.

Lemma modify_Forall (P : Region -> Prop) k f d :
  Forall (fun kr => P (snd kr)) d ->
  P (f match lookup k d with Some r => r | None => default_region end) ->
  Forall (fun kr => P (snd kr)) (modify k f d).
Proof.
  induction d as [|[k' v] t IH]; simpl; intros Hd Hf.
  - now repeat constructor.
  - inversion Hd as [|? ? Hv Ht]; subst.
    destruct (k' =? k); constructor; auto.
Qed.

Lemma counter_of_snoc {K} (eqb : K -> K -> bool) l b :
  counter_of eqb (l ++ [b]) = counter_incr eqb (counter_of eqb l) b.
Proof. unfold counter_of. now rewrite fold_left_app. Qed.

Lemma point_eqb_eq p q : point_eqb p q = true <-> p = q.
Proof.
  destruct p, q. unfold point_eqb. simpl. rewrite andb_true_iff, !Z.eqb_eq.
  split; [intros [-> ->]; reflexivity|intros [= -> ->]; auto].
Qed.

Lemma set_add_fresh p s : ~ In p s -> set_add p s = s ++ [p].
Proof.
  intros Hp. unfold set_add.
  destruct (existsb (point_eqb p) s) eqn:E; [|reflexivity].
  apply existsb_exists in E as (q & Hq & Heq).
  apply point_eqb_eq in Heq. subst. contradiction.
Qed.

(** The cells of [l] that hold [id] in the grid [g] of region ids. *)
Definition cells_with_id (g : list (list Z)) (id : Z) (l : list point)
  : list point :=
  filter (fun c => match getitem2 g (snd c) (fst c) with
                   | Ok v => v =? id
                   | Raise _ => false
                   end) l.

Lemma lookup_mapM (F : Region -> result Region) rd rd' :
  mapM (fun '(k, data) => data' <- F data ;; Ok (k, data')) rd = Ok rd' ->
  forall id,
    match lookup id rd with
    | Some r => exists r', F r = Ok r' /\ lookup id rd' = Some r'
    | None => lookup id rd' = None
    end.
Proof.
  revert rd'. induction rd as [|[k v] t IH]; intros rd'; simpl.
  - intros [= <-] id. reflexivity.
  - destruct (F v) as [v'|] eqn:Ev; cbn [bind]; [|discriminate].
    destruct (mapM _ t) as [t'|] eqn:Et; cbn [bind]; [|discriminate].
    intros [= <-] id. simpl. destruct (k =? id); [eauto|].
    now apply IH.
Qed.

Section Assign.
Variables width height : Z.
Variable sds : list point.
Variable biome_map : list (list string).

Definition nearest_of (c : point) : Z := nearest_seed (fst c) (snd c) sds.

(** The biome read at a cell (the empty string where the read raises). *)
Definition biome_at (c : point) : string :=
  match getitem2 biome_map (snd c) (fst c) with
  | Ok b => b
  | Raise _ => ""%string
  end.

(** The cells of [l] whose nearest seed is [id]. *)
Definition members (id : Z) (l : list point) : list point :=
  filter (fun c => nearest_of c =? id) l.

(** The entry of region [id] once the cells [done] have been assigned. *)
Definition entry_ok (done : list point) (id : Z) (r : Region) : Prop :=
  tiles r = members id done
  /\ area r = Z.of_nat (List.length (tiles r))
  /\ biome_counts r = counter_of String.eqb (map biome_at (tiles r))
  /\ dominant_biome r = None
  /\ centroid r = seed r.

(** The area of an entry is the number of its tiles. *)
Definition sized (r : Region) : Prop :=
  area r = Z.of_nat (List.length (tiles r)).

Definition assign_inv (done : list point) (st : list (list Z) * region_table)
  : Prop :=
  shaped (Z.to_nat height) (Z.to_nat width) (fst st)
  /\ (forall x y, In (x, y) done ->
        getitem2 (fst st) y x = Ok (nearest_seed x y sds))
  /\ (forall id r, lookup id (snd st) = Some r -> entry_ok done id r)
  /\ (forall id, lookup id (snd st) = None -> members id done = [])
  /\ Forall (fun kr => sized (snd kr)) (snd st).

Lemma entry_ok_default id : entry_ok [] id default_region.
Proof. repeat split. Qed.

Lemma init_regions_fresh seed_list :
  forall i d,
    (forall id r, lookup id d = Some r -> entry_ok [] id r) ->
    forall id r, lookup id (init_regions i seed_list d) = Some r ->
                 entry_ok [] id r.
Proof.
  induction seed_list as [|[x y] t IH]; intros i d Hd id r; simpl;
    [apply Hd|].
  apply IH. intros id' r'. rewrite lookup_modify.
  destruct (id' =? i); [|apply Hd]. intros [= <-]. repeat split.
Qed.

Lemma init_regions_sized seed_list :
  forall i d,
    Forall (fun kr => sized (snd kr)) d ->
    Forall (fun kr => sized (snd kr)) (init_regions i seed_list d).
Proof.
  induction seed_list as [|[x y] t IH]; intros i d Hd; simpl; [assumption|].
  apply IH. apply modify_Forall; [assumption|reflexivity].
Qed.

Lemma assign_inv_init :
  assign_inv []
    (repeat (repeat (-1) (Z.to_nat width)) (Z.to_nat height),
     init_regions 0 sds []).
Proof.
  split; [apply shaped_repeat|]. split; [intros x y []|].
  split; [|split].
  - apply init_regions_fresh. discriminate.
  - reflexivity.
  - apply init_regions_sized. constructor.
Qed.

Lemma members_snoc id done c :
  members id (done ++ [c])
  = members id done ++ (if nearest_of c =? id then [c] else []).
Proof. unfold members. rewrite filter_app. simpl. now destruct (_ =? _). Qed.

Lemma assign_cell_inv done c rest st st' :
  done ++ c :: rest = cells width height ->
  assign_inv done st ->
  assign_cell sds biome_map st c = Ok st' ->
  assign_inv (done ++ [c]) st'.
Proof.
  intros Hall (Hshape & Hmap & Hdata & Hnone & Hsized).
  destruct st as [rm rd], c as [x y].
  simpl in Hshape, Hmap, Hdata, Hnone, Hsized.
  pose proof (NoDup_cells width height) as Hnd. rewrite <- Hall in Hnd.
  assert (Hfresh : ~ In (x, y) done).
  { intros Hin. apply (NoDup_remove_2 _ _ _ Hnd). apply in_or_app. now left. }
  assert (Hrange : forall p, In p (done ++ [(x, y)]) ->
                     0 <= fst p /\ 0 <= snd p).
  { intros [a b] Hin.
    assert (Hc : In (a, b) (cells width height)).
    { rewrite <- Hall. apply in_app_or in Hin as [Hin|[<-|[]]];
        apply in_or_app; [now left|right; now left]. }
    apply In_cells in Hc. simpl. lia. }
  destruct (Hrange (x, y)) as [Hx Hy]; [apply in_or_app; right; now left|].
  simpl in Hx, Hy.
  unfold assign_cell.
  destruct (setitem2 rm y x (nearest_seed x y sds)) as [rm1|] eqn:Eset;
    cbn [bind]; [|discriminate].
  destruct (getitem2 biome_map y x) as [biome|] eqn:Ebiome; cbn [bind];
    [|discriminate].
  assert (Hold : entry_ok done (nearest_seed x y sds)
            match lookup (nearest_seed x y sds) rd with
            | Some r => r
            | None => default_region
            end).
  { destruct (lookup (nearest_seed x y sds) rd) as [r1|] eqn:El;
      [now apply Hdata|].
    unfold entry_ok. rewrite (Hnone _ El). repeat split. }
  intros [= <-]. split; [|split; [|split; [|split]]]; simpl.
  - exact (setitem2_shaped _ _ rm rm1 x y _ Hx Hy Hshape Eset).
  - intros a b Hin. destruct (Hrange (a, b) Hin) as [Ha Hb]. simpl in Ha, Hb.
    rewrite (getitem2_setitem2 rm rm1 x y a b _ Hx Hy Ha Hb Eset).
    destruct ((a =? x) && (b =? y)) eqn:E.
    + apply andb_prop in E as [E1 E2]. apply Z.eqb_eq in E1, E2. now subst.
    + apply Hmap. apply in_app_or in Hin as [Hin|[Heq|[]]]; [assumption|].
      injection Heq as -> ->. rewrite !Z.eqb_refl in E. discriminate.
  - intros id r. rewrite lookup_modify. unfold entry_ok.
    rewrite members_snoc.
    change (nearest_of (x, y)) with (nearest_seed x y sds).
    destruct (Z.eqb_spec id (nearest_seed x y sds)) as [->|Hne].
    + rewrite Z.eqb_refl.
      set (r0 := match lookup (nearest_seed x y sds) rd with
                 | Some r => r
                 | None => default_region
                 end).
      intros [= <-]. fold r0 in Hold.
      destruct Hold as (Ht & Ha & Hb & Hd & Hc).
      cbn [tiles area biome_counts dominant_biome centroid seed].
      assert (Hnew : set_add (x, y) (tiles r0) = tiles r0 ++ [(x, y)]).
      { apply set_add_fresh. rewrite Ht. unfold members.
        intros Hin. apply filter_In in Hin as [Hin _]. contradiction. }
      rewrite Hnew. split; [now rewrite Ht|]. split.
      { rewrite Ha, length_app. simpl. lia. }
      split; [|split; assumption].
      rewrite map_app. cbn [map]. rewrite counter_of_snoc, Hb.
      f_equal. unfold biome_at. cbn [fst snd]. now rewrite Ebiome.
    + destruct (Z.eqb_spec (nearest_seed x y sds) id) as [Heq|_];
        [congruence|]. rewrite app_nil_r. apply Hdata.
  - intros id. rewrite lookup_modify, members_snoc.
    change (nearest_of (x, y)) with (nearest_seed x y sds).
    destruct (Z.eqb_spec id (nearest_seed x y sds)) as [->|Hne];
      [discriminate|].
    destruct (Z.eqb_spec (nearest_seed x y sds) id) as [Heq|_];
      [congruence|]. rewrite app_nil_r. apply Hnone.
  - apply modify_Forall; [assumption|].
    destruct Hold as (Ht & Ha & _). unfold sized. cbn [tiles area].
    rewrite set_add_fresh.
    + rewrite Ha, length_app. simpl. lia.
    + rewrite Ht. unfold members. intros Hin.
      apply filter_In in Hin as [Hin _]. contradiction.
Qed.

Lemma assign_cell_ok done c st :
  covers biome_map width height = true ->
  In c (cells width height) ->
  assign_inv done st ->
  exists st', assign_cell sds biome_map st c = Ok st'.
Proof.
  intros Hcov Hc (Hshape & _). destruct st as [rm rd], c as [x y].
  unfold assign_cell. pose proof (proj1 (In_cells _ _ _ _) Hc) as [Hx Hy].
  destruct (setitem2_ok _ _ rm x y (nearest_seed x y sds) Hshape)
    as (rm1 & ->); [lia|lia|]. cbn [bind].
  unfold covers in Hcov. rewrite forallb_forall in Hcov.
  specialize (Hcov _ Hc). simpl in Hcov.
  destruct (getitem2 biome_map y x); [|discriminate]. cbn [bind]. eauto.
Qed.
(** What the returned entry [r] of region [id] holds, [g] being the grid
    of region ids it is computed from. *)
Definition record_of (g : list (list Z)) (id : Z) (r : Region) : Prop :=
  tiles r = cells_with_id g id (cells width height)
  /\ area r = Z.of_nat (List.length (tiles r))
  /\ biome_counts r = counter_of String.eqb (map biome_at (tiles r))
  /\ dominant_biome r
     = match most_common_1 (biome_counts r) with
       | (b, _) :: _ => Some b
       | [] => None
       end
  /\ centroid r
     = match tiles r with
       | [] => seed r
       | _ :: _ => (sum (map fst (tiles r)) / area r,
                    sum (map snd (tiles r)) / area r)
       end.

Lemma finalize_sized r : sized r -> exists r', finalize r = Ok r'.
Proof.
  unfold sized, finalize. intros Ha.
  destruct (tiles r) as [|c t] eqn:Et; [eauto|].
  destruct (Z.eqb_spec (area r) 0) as [E|_]; [|eauto].
  simpl in Ha. lia.
Qed.

Lemma finalize_entry done id r r' :
  entry_ok done id r -> finalize r = Ok r' ->
  tiles r' = members id done
  /\ area r' = Z.of_nat (List.length (tiles r'))
  /\ biome_counts r' = counter_of String.eqb (map biome_at (tiles r'))
  /\ dominant_biome r'
     = match most_common_1 (biome_counts r') with
       | (b, _) :: _ => Some b
       | [] => None
       end
  /\ centroid r'
     = match tiles r' with
       | [] => seed r'
       | _ :: _ => (sum (map fst (tiles r')) / area r',
                    sum (map snd (tiles r')) / area r')
       end.
Proof.
  intros (Ht & Ha & Hb & Hd & Hc). unfold finalize. rewrite Hd.
  destruct (tiles r) as [|c t] eqn:Et.
  - intros [= <-]. cbn [tiles area biome_counts dominant_biome centroid seed].
    repeat split; assumption || reflexivity.
  - destruct (area r =? 0); [discriminate|]. intros [= <-].
    cbn [tiles area biome_counts dominant_biome centroid seed].
    repeat split; assumption || reflexivity.
Qed.

Lemma assign_tiles_spec rm rd :
  _assign_tiles_to_regions width height sds biome_map = Ok (rm, rd) ->
  (forall x y, 0 <= x < width -> 0 <= y < height ->
     getitem2 rm y x = Ok (nearest_seed x y sds))
  /\ (forall id r, lookup id rd = Some r -> record_of rm id r)
  /\ (forall id, lookup id rd = None ->
        cells_with_id rm id (cells width height) = []).
Proof.
  unfold _assign_tiles_to_regions.
  destruct (foldM _ _ _) as [[rm0 rd0]|] eqn:Efold; cbn [bind]; [|discriminate].
  destruct (mapM _ rd0) as [rd1|] eqn:Emap; cbn [bind]; [|discriminate].
  intros [= <- <-].
  pose proof (foldM_invariant (assign_cell sds biome_map) assign_inv
                (cells width height) assign_cell_inv
                (cells width height) [] _ _ eq_refl assign_inv_init Efold)
    as (Hshape & Hmap & Hdata & Hnone & _).
  simpl in Hshape, Hmap, Hdata, Hnone.
  assert (Hsame : forall id,
            cells_with_id rm0 id (cells width height)
            = members id (cells width height)).
  { intros id. unfold cells_with_id, members. apply filter_ext_in.
    intros [a b] Hin. cbn [fst snd]. now rewrite (Hmap a b Hin). }
  split; [|split].
  - intros x y Hx Hy. apply Hmap. now apply In_cells.
  - intros id r Hr. pose proof (lookup_mapM finalize rd0 rd1 Emap id) as Hl.
    destruct (lookup id rd0) as [r0|] eqn:E0; [|congruence].
    destruct Hl as (r' & Hfin & Hr'). rewrite Hr in Hr'. injection Hr' as <-.
    unfold record_of. rewrite Hsame.
    exact (finalize_entry _ _ _ _ (Hdata _ _ E0) Hfin).
  - intros id Hr. pose proof (lookup_mapM finalize rd0 rd1 Emap id) as Hl.
    rewrite Hsame. destruct (lookup id rd0) as [r0|] eqn:E0.
    + destruct Hl as (r' & _ & Hr'). congruence.
    + now apply Hnone.
Qed.

Lemma assign_tiles_total :
  covers biome_map width height = true ->
  exists rm rd,
    _assign_tiles_to_regions width height sds biome_map = Ok (rm, rd).
Proof.
  intros Hcov. unfold _assign_tiles_to_regions.
  destruct (foldM_total (assign_cell sds biome_map) assign_inv
              (cells width height)) with (rest := cells width height)
              (done := @nil point)
              (s := (repeat (repeat (-1) (Z.to_nat width)) (Z.to_nat height),
                     init_regions 0 sds []))
    as ([rm0 rd0] & -> & Hinv); [|reflexivity|apply assign_inv_init|].
  { intros done c rest st Hall Hi.
    destruct (assign_cell_ok done c st Hcov) as (st' & Hst'); [|assumption|].
    - rewrite <- Hall. apply in_or_app. right. now left.
    - exists st'. split; [assumption|].
      eapply assign_cell_inv; eassumption. }
  cbn [bind]. destruct Hinv as (_ & _ & _ & _ & Hsized). simpl in Hsized.
  destruct (mapM_ok (fun '(k, data) => data' <- finalize data ;; Ok (k, data'))
              rd0) as (rd1 & -> & _); [|cbn [bind]; eauto].
  intros [k r] Hin. rewrite Forall_forall in Hsized.
  destruct (finalize_sized r (Hsized _ Hin)) as (r' & ->). cbn [bind]. eauto.
Qed.
End Assign.

(** C8: on a map that [biome_map] covers and for a non-empty list of seeds,
    [_assign_tiles_to_regions] returns a region map whose cell (x, y) holds
    the index of a seed at minimal Manhattan distance from (x, y), every
    seed of lower index being strictly farther. *)
Theorem cell_assigned_to_nearest_seed width height sds biome_map x y :
  sds <> [] -> covers biome_map width height = true ->
  0 <= x < width -> 0 <= y < height ->
  exists region_map region_data i s,
    _assign_tiles_to_regions width height sds biome_map
    = Ok (region_map, region_data)
    /\ getitem2 region_map y x = Ok i
    /\ 0 <= i /\ nth_error sds (Z.to_nat i) = Some s
    /\ (forall j s', nth_error sds j = Some s' ->
          Z.abs (x - fst s) + Z.abs (y - snd s)
          <= Z.abs (x - fst s') + Z.abs (y - snd s'))
    /\ (forall j s', (j < Z.to_nat i)%nat -> nth_error sds j = Some s' ->
          Z.abs (x - fst s) + Z.abs (y - snd s)
          < Z.abs (x - fst s') + Z.abs (y - snd s')).
Proof.
  intros Hne Hcov Hx Hy.
  destruct (assign_tiles_total width height sds biome_map Hcov)
    as (rm & rd & Hassign).
  destruct (assign_tiles_spec _ _ _ _ _ _ Hassign) as (Hcell & _).
  destruct (nearest_seed_correct x y sds Hne) as (s & Hi & Hs & Hmin & Hlow).
  unfold dist_to, _manhattan_distance in Hmin, Hlow.
  exists rm, rd, (nearest_seed x y sds), s.
  split; [assumption|]. split; [now apply Hcell|].
  split; [assumption|]. split; [assumption|]. split; assumption.
Qed.

#[local] Existing Instance Random.replay.

Lemma cell_assigned_to_nearest_seed_witness :
  exists region_map region_data i s,
    _assign_tiles_to_regions 3 1 [(0, 0); (2, 0)] meadow
    = Ok (region_map, region_data)
    /\ getitem2 region_map 0 1 = Ok i
    /\ 0 <= i /\ nth_error [(0, 0); (2, 0)] (Z.to_nat i) = Some s
    /\ (forall j s', nth_error [(0, 0); (2, 0)] j = Some s' ->
          Z.abs (1 - fst s) + Z.abs (0 - snd s)
          <= Z.abs (1 - fst s') + Z.abs (0 - snd s'))
    /\ (forall j s', (j < Z.to_nat i)%nat ->
          nth_error [(0, 0); (2, 0)] j = Some s' ->
          Z.abs (1 - fst s) + Z.abs (0 - snd s)
          < Z.abs (1 - fst s') + Z.abs (0 - snd s')).
Proof.
  apply (cell_assigned_to_nearest_seed 3 1 [(0, 0); (2, 0)] meadow 1 0);
    [discriminate|reflexivity|lia|lia].
Defined.

(** C2 as stated fails on a 3 by 1 map of grassland with two requested
    regions and the draws 0 and 0.99: the seeds are (0,0) and (2,0), the
    assignment gives the ids 0, 0, 1, and smoothing turns the last cell
    into 0.  The returned record of region 0 still has the two tiles and
    the area 2 of the assignment, while three cells of the returned grid
    hold the id 0. *)
Lemma records_stale_after_smoothing :
  exists region_map placed region_data r g',
    generate_regions 3 1 2 meadow 20 [0%float; 0.99%float]
    = (Ok (region_map, placed, region_data), g')
    /\ lookup 0 region_data = Some r
    /\ In (2, 0) (cells_with_id region_map 0 (cells 3 1))
    /\ ~ In (2, 0) (tiles r)
    /\ area r
       <> Z.of_nat (List.length (cells_with_id region_map 0 (cells 3 1))).
Proof.
  eexists _, _, _, _, _. split; [vm_compute; reflexivity|].
  split; [reflexivity|]. split; [vm_compute; tauto|].
  split; [|vm_compute; discriminate].
  vm_compute. intros [H|[H|[]]]; discriminate.
Qed.

(** C2, amended: the records returned by [generate_regions] are those of
    the nearest-seed assignment, computed from the region grid before
    smoothing: the tiles of every region id are exactly the cells holding
    that id in the pre-smoothing grid, its area is their number, and its
    biome counts, dominant biome and centroid are derived from those
    tiles; an id without a record holds no cell of that grid. *)
Theorem region_records_describe_assignment {G} `{Random.Source G}
    width height num_regions biome_map min_region_size (g g' : G)
    region_map placed region_data :
  generate_regions width height num_regions biome_map min_region_size g
  = (Ok (region_map, placed, region_data), g') ->
  exists assigned,
    _assign_tiles_to_regions width height placed biome_map
    = Ok (assigned, region_data)
    /\ _smooth_regions assigned 2 = Ok region_map
    /\ (forall id r, lookup id region_data = Some r ->
          record_of width height biome_map assigned id r)
    /\ (forall id, lookup id region_data = None ->
          cells_with_id assigned id (cells width height) = []).
Proof.
  unfold generate_regions.
  destruct (_generate_seed_points _ _ _ _ _ g) as [[sd|e] g1]; cbn [bind];
    [|discriminate].
  destruct (_assign_tiles_to_regions width height sd biome_map)
    as [[assigned rd]|e] eqn:Eassign; cbn [bind]; [|discriminate].
  destruct (_smooth_regions assigned 2) as [smoothed|e] eqn:Esmooth;
    cbn [bind]; [|discriminate].
  intros [= <- <- <- <-]. exists assigned.
  destruct (assign_tiles_spec _ _ _ _ _ _ Eassign) as (_ & Hrec & Hnone).
  auto.
Qed.

(** The records of the nearest-seed assignment of [meadow] to the seeds
    (0,0) and (2,0). *)
Definition meadow_records : region_table :=
  [(0, {| region_id := 0; seed := (0, 0); area := 2;
          tiles := [(0, 0); (1, 0)];
          biome_counts := [("grassland"%string, 2)];
          dominant_biome := Some "grassland"%string;
          centroid := (0, 0) |});
   (1, {| region_id := 1; seed := (2, 0); area := 1;
          tiles := [(2, 0)];
          biome_counts := [("grassland"%string, 1)];
          dominant_biome := Some "grassland"%string;
          centroid := (2, 0) |})].

Lemma region_records_describe_assignment_witness :
  exists assigned,
    _assign_tiles_to_regions 3 1 [(0, 0); (2, 0)] meadow
    = Ok (assigned, meadow_records)
    /\ _smooth_regions assigned 2 = Ok [[0; 0; 0]]
    /\ (forall id r, lookup id meadow_records = Some r ->
          record_of 3 1 meadow assigned id r)
    /\ (forall id, lookup id meadow_records = None ->
          cells_with_id assigned id (cells 3 1) = []).
Proof.
  apply (region_records_describe_assignment 3 1 2 meadow 20
           [0%float; 0.99%float] []).
  vm_compute. reflexivity.
Defined.

End RegionFacts.

(** ** The whole pipeline *)
Module PipelineFacts.

(** C5: with the seed, the dimensions and the number of regions fixed, two
    runs of the pipeline return the same outcome - the same biome, terrain
    and region grids, seeds and region records - and leave the generator in
    the same state, whatever state the global generator was in before each
    run: both constructors reseed it from the given seed before any draw. *)
Theorem pipeline_deterministic {G} `{Random.Source G}
    (np_sin np_cos : float -> float) (width height sd num_regions : Z)
    (g1 g2 : G) :
  Pipeline.run np_sin np_cos width height (Some sd) num_regions g1
  = Pipeline.run np_sin np_cos width height (Some sd) num_regions g2.
Proof.
  unfold Pipeline.run, BiomeGenerator.__init__, RegionGenerator.__init__.
  cbv beta iota zeta. reflexivity.
Qed.

End PipelineFacts.

(* ================================================================== *)
(** * Part III. Further properties of the same code *)
(* ================================================================== *)

(** ** Nested loops and rectangular grids *)
Module LoopFacts.
Import PyFacts NoiseFacts GridFacts SeedFacts.

Lemma bind_ext {A B} (m : result A) (k1 k2 : A -> result B) :
  (forall a, k1 a = k2 a) -> Py.bind m k1 = Py.bind m k2.
Proof. intros Hk. destruct m; simpl; auto. Qed.

Lemma foldM_app {A S} (body : S -> A -> result S) l1 l2 s :
  foldM body (l1 ++ l2) s = Py.bind (foldM body l1 s) (foldM body l2).
Proof.
  revert s. induction l1 as [|a t IH]; intros s; simpl; [reflexivity|].
  destruct (body s a); simpl; auto.
Qed.

Lemma foldM_map {A B S} (body : S -> B -> result S) (f : A -> B) l s :
  foldM body (map f l) s = foldM (fun s a => body s (f a)) l s.
Proof.
  revert s. induction l as [|a t IH]; intros s; simpl; [reflexivity|].
  apply bind_ext. auto.
Qed.

(** The two nested [for] loops over rows and columns visit the cells in
    the order of [cells]. *)
Lemma foldM_rows {S} (body : S -> RegionGenerator.point -> result S)
    width ys s :
  foldM (fun s y => foldM (fun s x => body s (x, y)) (range width) s) ys s
  = foldM body (flat_map (fun y => map (fun x => (x, y)) (range width)) ys) s.
Proof.
  revert s. induction ys as [|y t IH]; intros s; simpl; [reflexivity|].
  rewrite foldM_app, foldM_map. apply bind_ext. auto.
Qed.

Lemma nth_error_range n i :
  nth_error (range n) i
  = if (i <? Z.to_nat n)%nat then Some (Z.of_nat i) else None.
Proof.
  unfold range. rewrite nth_error_map, nth_error_seq.
  now destruct (i <? Z.to_nat n)%nat.
Qed.

Lemma mapM_nth {A B} (f : A -> result B) l bs :
  mapM f l = Ok bs ->
  forall i a, nth_error l i = Some a ->
    exists b, f a = Ok b /\ nth_error bs i = Some b.
Proof.
  revert bs. induction l as [|a0 t IH]; intros bs; simpl.
  - intros _ [|i] a; discriminate.
  - destruct (f a0) as [b0|] eqn:E0; simpl; [|discriminate].
    destruct (mapM f t) as [bt|]; simpl; [|discriminate].
    intros [= <-] [|i] a Hi; simpl in *.
    + injection Hi as <-. eauto.
    + now apply IH.
Qed.

(** Reading every index of a list in turn rebuilds the list. *)
Lemma mapM_getitem {A B} (f : A -> B) (l : list A) :
  mapM (fun i => a <- getitem l i ;; Ok (f a))
       (range (Z.of_nat (List.length l)))
  = Ok (map f l).
Proof.
  destruct (mapM_ok (fun i => a <- getitem l i ;; Ok (f a))
              (range (Z.of_nat (List.length l)))) as (bs & Hbs & Hlen).
  { intros i Hi. apply In_range in Hi.
    destruct (getitem_in_bounds l i Hi) as (a & -> & _). simpl. eauto. }
  rewrite Hbs. f_equal. apply nth_error_ext. intros n.
  rewrite range_length, Nat2Z.id in Hlen.
  destruct (Nat.lt_ge_cases n (List.length l)) as [Hn|Hn].
  - destruct (mapM_nth _ _ _ Hbs n (Z.of_nat n)) as (b & Hb & ->).
    { rewrite nth_error_range, Nat2Z.id.
      now destruct (Nat.ltb_spec n (List.length l)); [|lia]. }
    rewrite getitem_nonneg, Nat2Z.id in Hb by lia.
    rewrite nth_error_map. destruct (nth_error l n); simpl in *; congruence.
  - rewrite (proj2 (nth_error_None _ _)) by lia.
    symmetry. apply nth_error_None. rewrite length_map. lia.
Qed.

Lemma getitem2_shaped {A} h w (g : list (list A)) x y :
  shaped h w g -> 0 <= x < Z.of_nat w -> 0 <= y < Z.of_nat h ->
  exists row v, getitem g y = Ok row /\ In row g
                /\ getitem row x = Ok v /\ In v row
                /\ getitem2 g y x = Ok v.
Proof.
  intros [Hh Hw] Hx Hy. unfold getitem2.
  destruct (getitem_in_bounds g y) as (row & Hrow & Hin); [lia|].
  rewrite Forall_forall in Hw.
  destruct (getitem_in_bounds row x) as (v & Hv & Hvin);
    [rewrite (Hw _ Hin); lia|].
  exists row, v. rewrite Hrow. simpl. auto.
Qed.

(** Two grids of one shape with the same cells are the same grid. *)
Lemma grid_ext {A} h w (a b : list (list A)) :
  shaped h w a -> shaped h w b ->
  (forall x y, 0 <= x < Z.of_nat w -> 0 <= y < Z.of_nat h ->
     getitem2 a y x = getitem2 b y x) ->
  a = b.
Proof.
  intros [Hah Haw] [Hbh Hbw] Hcell. apply nth_error_ext. intros j.
  destruct (Nat.lt_ge_cases j h) as [Hj|Hj];
    [|rewrite !(proj2 (nth_error_None _ _)) by lia; reflexivity].
  destruct (nth_error a j) as [ra|] eqn:Era;
    [|apply nth_error_None in Era; lia].
  destruct (nth_error b j) as [rb|] eqn:Erb;
    [|apply nth_error_None in Erb; lia].
  f_equal. apply nth_error_ext. intros i.
  rewrite Forall_forall in Haw, Hbw.
  pose proof (Haw _ (nth_error_In _ _ Era)) as Hla.
  pose proof (Hbw _ (nth_error_In _ _ Erb)) as Hlb.
  destruct (Nat.lt_ge_cases i w) as [Hi|Hi];
    [|rewrite !(proj2 (nth_error_None _ _)) by lia; reflexivity].
  specialize (Hcell (Z.of_nat i) (Z.of_nat j) ltac:(lia) ltac:(lia)).
  unfold getitem2 in Hcell.
  rewrite !getitem_nonneg, !Nat2Z.id, Era, Erb in Hcell by lia.
  simpl in Hcell. rewrite !getitem_nonneg, !Nat2Z.id in Hcell by lia.
  destruct (nth_error ra i) eqn:E1, (nth_error rb i) eqn:E2;
    congruence.
Qed.

End LoopFacts.

(** ** The rule pass on rectangular grids *)
Module RulePassFacts.
Import BiomeRuleEngine PyFacts NoiseFacts GridFacts LoopFacts SeedFacts
       RegionFacts.

(** The four rewrites a rule can make: from the type it triggers on to the
    type it returns. *)
Definition rewrites (c v : string) : Prop :=
  (c = TileType.MOUNTAIN /\ v = TileType.FOREST)
  \/ (c = TileType.GRASS /\ v = TileType.SAND)
  \/ (c = TileType.SHALLOW_WATER /\ v = TileType.SAND)
  \/ (c = TileType.FOREST /\ v = TileType.GRASS).

(** The six values of the tile enumeration. *)
Definition tile_labels : list string :=
  [TileType.DEEP_WATER; TileType.SHALLOW_WATER; TileType.SAND;
   TileType.GRASS; TileType.FOREST; TileType.MOUNTAIN].

Lemma shaped_row0 {A} h w (g : list (list A)) :
  shaped h w g -> (0 < h)%nat ->
  exists row0, getitem g 0 = Ok row0 /\ List.length row0 = w.
Proof.
  intros [Hh Hw] Hpos.
  destruct (getitem_in_bounds g 0) as (row0 & Hrow0 & Hin); [lia|].
  rewrite Forall_forall in Hw. eauto.
Qed.

Lemma get_neighbors_total h w (g : grid) x y :
  shaped h w g -> (0 < h)%nat ->
  exists ns, _get_neighbors g x y = Ok ns /\ List.length ns = 8%nat.
Proof.
  intros Hs Hpos. unfold _get_neighbors.
  destruct (shaped_row0 h w g Hs Hpos) as (row0 & -> & Hlen). cbn [bind].
  destruct (mapM_ok
    (fun '(dx, dy) =>
       if (0 <=? x + dx) && (x + dx <? Z.of_nat (List.length row0))
          && (0 <=? y + dy) && (y + dy <? Z.of_nat (List.length g))
       then getitem2 g (y + dy) (x + dx) else Ok ""%string) offsets)
    as (ns & Hns & Hl).
  { intros [dx dy] _.
    destruct ((0 <=? x + dx) && (x + dx <? Z.of_nat (List.length row0))
              && (0 <=? y + dy) && (y + dy <? Z.of_nat (List.length g)))
      eqn:E; [|eauto].
    apply andb_prop in E as [E E4]. apply andb_prop in E as [E E3].
    apply andb_prop in E as [E1 E2]. destruct Hs as [Hh Hw].
    destruct (getitem2_shaped h w g (x + dx) (y + dy) (conj Hh Hw))
      as (_ & v & _ & _ & _ & _ & Hv); [lia|lia|eauto]. }
  exists ns. split; [exact Hns|]. rewrite Hl. reflexivity.
Qed.

(** A rule applied to a cell of a rectangular grid returns the cell's type
    or one of the four rewrites of it. *)
Definition rule_ok (r : rule) : Prop :=
  forall h w (g : grid) x y c,
    shaped h w g -> 0 <= x < Z.of_nat w -> 0 <= y < Z.of_nat h ->
    getitem2 g y x = Ok c ->
    exists v, r g x y = Ok v /\ (v = c \/ rewrites c v).

Ltac rule_case TYPE :=
  let E := fresh "E" in
  intros h w g x y c Hs Hx Hy Hc;
  match goal with |- exists v, ?r g x y = _ /\ _ => unfold r end;
  rewrite Hc; cbn [bind];
  destruct (String.eqb_spec c TYPE) as [E|E]; cbn [negb];
    [|exists c; split; [first [reflexivity|exact Hc]|now left]];
  destruct (get_neighbors_total h w g x y Hs ltac:(lia)) as (ns & -> & _);
  cbn [bind].

Lemma rules_ok : Forall rule_ok rules.
Proof.
  unfold rules. repeat constructor.
  - rule_case TileType.MOUNTAIN.
    destruct (contains _ ns);
      [exists TileType.FOREST; split; [reflexivity|right; unfold rewrites; tauto]
      |exists c; split; [first [reflexivity|exact Hc]|now left]].
  - rule_case TileType.GRASS.
    destruct (5 <=? _);
      [exists TileType.SAND; split; [reflexivity|right; unfold rewrites; tauto]
      |exists c; split; [first [reflexivity|exact Hc]|now left]].
  - rule_case TileType.SHALLOW_WATER.
    destruct (6 <=? _);
      [exists TileType.SAND; split; [reflexivity|right; unfold rewrites; tauto]
      |exists c; split; [first [reflexivity|exact Hc]|now left]].
  - rule_case TileType.FOREST.
    destruct (negb _);
      [exists TileType.GRASS; split; [reflexivity|right; unfold rewrites; tauto]
      |exists c; split; [first [reflexivity|exact Hc]|now left]].
Qed.

Lemma apply_cell_outcome rs h w (g : grid) x y c :
  Forall rule_ok rs ->
  shaped h w g -> 0 <= x < Z.of_nat w -> 0 <= y < Z.of_nat h ->
  getitem2 g y x = Ok c ->
  exists g', apply_cell rs g x y c = Ok g'
    /\ (g' = g \/ exists v, rewrites c v /\ setitem2 g y x v = Ok g').
Proof.
  intros Hrs Hs Hx Hy Hc. induction Hrs as [|r rs Hr _ IH]; simpl.
  - exists g. auto.
  - destruct (Hr h w g x y c Hs Hx Hy Hc) as (v & -> & Hv). cbn [bind].
    destruct (String.eqb_spec v c) as [->|Hne]; cbn [negb]; [exact IH|].
    destruct (setitem2_ok h w g x y v Hs Hx Hy) as (g' & Hg').
    exists g'. split; [exact Hg'|]. right. exists v.
    destruct Hv as [Heq|Hv]; [contradiction|auto].
Qed.

Definition coast_row : grid :=
  [["deep_water"; "mountain"; "forest"]]%string.

(** The body of the two nested loops of [apply_rules] for one cell. *)
Definition cell_body (new_map : grid) (p : RegionGenerator.point) : result grid :=
  let '(x, y) := p in
  current_type <- getitem2 new_map y x ;;
  apply_cell rules new_map x y current_type.

Lemma apply_rules_cells g :
  apply_rules g
  = (row0 <- getitem g 0 ;;
     foldM cell_body
       (RegionGenerator.cells (Z.of_nat (List.length row0))
          (Z.of_nat (List.length g))) g).
Proof.
  unfold apply_rules. apply bind_ext. intros row0.
  exact (foldM_rows cell_body _ _ g).
Qed.

(** While the pass runs: the cells already visited hold their input type or
    a rewrite of it, the others still hold their input type. *)
Definition pass_inv (g0 : grid) (h w : nat) (done : list RegionGenerator.point)
    (g : grid) : Prop :=
  shaped h w g
  /\ forall x y, 0 <= x < Z.of_nat w -> 0 <= y < Z.of_nat h ->
       exists c v, getitem2 g0 y x = Ok c /\ getitem2 g y x = Ok v
         /\ (In (x, y) done -> v = c \/ rewrites c v)
         /\ (~ In (x, y) done -> v = c).

Lemma pass_inv_init g0 h w : shaped h w g0 -> pass_inv g0 h w [] g0.
Proof.
  intros Hs. split; [assumption|]. intros x y Hx Hy.
  destruct (getitem2_shaped h w g0 x y Hs Hx Hy) as (_ & v & _ & _ & _ & _ & Hv).
  exists v, v. repeat split; auto.
Qed.

Lemma pass_inv_step g0 h w done p rest g :
  done ++ p :: rest = RegionGenerator.cells (Z.of_nat w) (Z.of_nat h) ->
  pass_inv g0 h w done g ->
  exists g', cell_body g p = Ok g' /\ pass_inv g0 h w (done ++ [p]) g'.
Proof.
  intros Hall (Hs & Hcells). destruct p as [x y].
  pose proof (NoDup_cells (Z.of_nat w) (Z.of_nat h)) as Hnd.
  rewrite <- Hall in Hnd.
  assert (Hfresh : ~ In (x, y) done).
  { intros Hin. apply (NoDup_remove_2 _ _ _ Hnd). apply in_or_app. now left. }
  assert (Hin : In (x, y) (RegionGenerator.cells (Z.of_nat w) (Z.of_nat h))).
  { rewrite <- Hall. apply in_or_app. right. now left. }
  apply In_cells in Hin as [Hx Hy].
  destruct (Hcells x y Hx Hy) as (c & v & Hc & Hv & _ & Hsame).
  specialize (Hsame Hfresh). subst v.
  unfold cell_body. rewrite Hv. cbn [bind].
  destruct (apply_cell_outcome rules h w g x y c rules_ok Hs Hx Hy Hv)
    as (g' & -> & Hg').
  exists g'. split; [reflexivity|].
  destruct Hg' as [->|(v & Hrw & Hset)].
  - split; [assumption|]. intros a b Ha Hb.
    destruct (Hcells a b Ha Hb) as (c' & v' & Hc' & Hv' & Hdone & Hnot).
    exists c', v'. repeat split; try assumption.
    + intros Hi. apply in_app_or in Hi as [Hi|[[= <- <-]|[]]]; [auto|].
      left. congruence.
    + intros Hi. apply Hnot. intros Hd. apply Hi. apply in_or_app. now left.
  - split; [exact (setitem2_shaped _ _ g g' x y v (proj1 Hx) (proj1 Hy) Hs Hset)|].
    intros a b Ha Hb.
    destruct (Hcells a b Ha Hb) as (c' & v' & Hc' & Hv' & Hdone & Hnot).
    rewrite (getitem2_setitem2 g g' x y a b v
               (proj1 Hx) (proj1 Hy) (proj1 Ha) (proj1 Hb) Hset).
    destruct ((a =? x) && (b =? y)) eqn:E.
    + apply andb_prop in E as [E1 E2]. apply Z.eqb_eq in E1, E2. subst a b.
      exists c, v. repeat split; try assumption; auto.
      intros Hi. exfalso. apply Hi. apply in_or_app. right. now left.
    + exists c', v'. repeat split; try assumption.
      * intros Hi. apply in_app_or in Hi as [Hi|[Heq|[]]]; [auto|].
        injection Heq as <- <-. rewrite !Z.eqb_refl in E. discriminate.
      * intros Hi. apply Hnot. intros Hd. apply Hi. apply in_or_app. now left.
Qed.

Lemma apply_rules_pass h w (g : grid) :
  shaped h w g -> (0 < h)%nat ->
  exists g', apply_rules g = Ok g'
    /\ pass_inv g h w (RegionGenerator.cells (Z.of_nat w) (Z.of_nat h)) g'.
Proof.
  intros Hs Hpos. rewrite apply_rules_cells.
  destruct (shaped_row0 h w g Hs Hpos) as (row0 & Hrow0 & Hlen).
  rewrite Hrow0. cbn [bind]. rewrite Hlen, (proj1 Hs).
  apply (foldM_total cell_body (pass_inv g h w)
           (RegionGenerator.cells (Z.of_nat w) (Z.of_nat h)))
    with (done := @nil RegionGenerator.point);
    [|reflexivity|now apply pass_inv_init].
  intros done p rest s Hall Hi. eapply pass_inv_step; eassumption.
Qed.

(** X1: On a rectangular grid with at least one row, [apply_rules] never
    raises and returns a grid of the same shape in which every cell holds
    its input type or one of the four rewrites of it: mountain to forest,
    grass to sand, shallow water to sand, forest to grass. *)
Theorem apply_rules_rewrites_cells h w (g : grid) :
  shaped h w g -> (0 < h)%nat ->
  exists g', apply_rules g = Ok g' /\ shaped h w g'
    /\ forall x y, 0 <= x < Z.of_nat w -> 0 <= y < Z.of_nat h ->
         exists c v, getitem2 g y x = Ok c /\ getitem2 g' y x = Ok v
                     /\ (v = c \/ rewrites c v).
Proof.
  intros Hs Hpos.
  destruct (apply_rules_pass h w g Hs Hpos) as (g' & Hg' & Hs' & Hcells).
  exists g'. split; [exact Hg'|]. split; [exact Hs'|].
  intros x y Hx Hy. destruct (Hcells x y Hx Hy) as (c & v & Hc & Hv & Hdone & _).
  exists c, v. split; [assumption|]. split; [assumption|].
  apply Hdone. apply In_cells. lia.
Qed.

Lemma apply_rules_rewrites_cells_witness :
  exists g', apply_rules coast_row = Ok g' /\ shaped 1 3 g'
    /\ forall x y, 0 <= x < Z.of_nat 3 -> 0 <= y < Z.of_nat 1 ->
         exists c v, getitem2 coast_row y x = Ok c /\ getitem2 g' y x = Ok v
                     /\ (v = c \/ rewrites c v).
Proof.
  apply (apply_rules_rewrites_cells 1 3 coast_row); [|lia].
  split; [reflexivity|]. repeat constructor.
Defined.

Lemma foldM_fixed {A S} (body : S -> A -> result S) l s :
  (forall a, In a l -> body s a = Ok s) -> foldM body l s = Ok s.
Proof.
  induction l as [|a t IH]; intros Hl; simpl; [reflexivity|].
  rewrite (Hl a) by now left. cbn [bind]. apply IH. intros; apply Hl. now right.
Qed.

Lemma apply_cell_quiet rs (g : grid) x y c :
  (forall r, In r rs -> r g x y = Ok c) -> apply_cell rs g x y c = Ok g.
Proof.
  induction rs as [|r t IH]; intros Hq; simpl; [reflexivity|].
  rewrite (Hq r) by now left. cbn [bind]. rewrite String.eqb_refl. cbn [negb].
  apply IH. intros; apply Hq. now right.
Qed.


Definition lagoon : grid :=
  [["deep_water"; "sand"]; ["sand"; "deep_water"]]%string.




End RulePassFacts.

(** ** From biomes to terrain *)
Module MapperFacts.
Import PyFacts NoiseFacts GridFacts LoopFacts RulePassFacts.

Lemma mapM_ext_in {A B} (f g : A -> result B) l :
  (forall a, In a l -> f a = g a) -> mapM f l = mapM g l.
Proof.
  induction l as [|a t IH]; intros Hfg; simpl; [reflexivity|].
  rewrite (Hfg a) by now left. rewrite IH; [reflexivity|].
  intros; apply Hfg. now right.
Qed.

Lemma dict_get_range {V} (d : list (string * V)) k default :
  dict_get d k default = default \/ In (dict_get d k default) (map snd d).
Proof.
  unfold dict_get. induction d as [|[k' v] t IH]; simpl; [now left|].
  destruct (String.eqb k' k); [right; now left|].
  destruct IH as [IH|IH]; [now left|right; now right].
Qed.

Lemma terrain_for_biome_label b :
  In (TerrainMapper.get_terrain_for_biome b) tile_labels.
Proof.
  unfold TerrainMapper.get_terrain_for_biome.
  destruct (dict_get_range TerrainMapper.biome_to_terrain b TileType.GRASS)
    as [->|Hin]; [simpl; tauto|].
  simpl in Hin. simpl. intuition congruence.
Qed.

Lemma shaped_map2d_any {A B} h w (f : A -> B) (a : list (list A)) :
  shaped h w a -> shaped h w (map (map f) a).
Proof.
  intros [Hh Hw]. split; [now rewrite length_map|].
  apply Forall_map. eapply Forall_impl; [|exact Hw].
  intros r Hr. simpl. now rewrite length_map.
Qed.

(** Reading every cell of a rectangular grid row by row rebuilds the grid
    with the cell function applied. *)
Lemma mapM_cells {A B} (f : A -> B) h w (g : list (list A)) :
  shaped h w g ->
  mapM (fun y =>
    mapM (fun x => a <- getitem2 g y x ;; Ok (f a)) (range (Z.of_nat w)))
    (range (Z.of_nat h))
  = Ok (map (map f) g).
Proof.
  intros [Hh Hw]. subst h.
  rewrite <- (mapM_getitem (map f) g). apply mapM_ext_in.
  intros y Hy. apply In_range in Hy.
  destruct (getitem_in_bounds g y Hy) as (row & Hrow & Hin).
  rewrite Hrow. cbn [bind]. rewrite Forall_forall in Hw.
  rewrite <- (Hw row Hin), <- (mapM_getitem f row).
  apply mapM_ext_in. intros x _. unfold getitem2. now rewrite Hrow.
Qed.

(** X4: [translate_biomes] raises [IndexError] on the empty map; on a
    rectangular map it never raises and returns, cell by cell, the terrain
    of [get_terrain_for_biome], which is one of the six tile types whatever
    the string it is given. *)
Theorem translate_biomes_cellwise :
  TerrainMapper.translate_biomes [] = Raise IndexError
  /\ (forall h w biome_map,
        shaped h w biome_map -> (0 < h)%nat ->
        TerrainMapper.translate_biomes biome_map
        = Ok (map (map TerrainMapper.get_terrain_for_biome) biome_map))
  /\ (forall b, In (TerrainMapper.get_terrain_for_biome b) tile_labels).
Proof.
  split; [reflexivity|]. split; [|exact terrain_for_biome_label].
  intros h w bm Hs Hpos. unfold TerrainMapper.translate_biomes.
  destruct (shaped_row0 h w bm Hs Hpos) as (row0 & Hrow0 & Hlen).
  rewrite Hrow0. cbn [bind]. rewrite Hlen, (proj1 Hs).
  exact (mapM_cells TerrainMapper.get_terrain_for_biome h w bm Hs).
Qed.

Lemma translate_biomes_cellwise_witness :
  TerrainMapper.translate_biomes [["ocean"; "lava"]; ["snow"; "steppe"]]%string
  = Ok [["deep_water"; "grass"]; ["mountain"; "grass"]]%string.
Proof.
  destruct translate_biomes_cellwise as (_ & H & _).
  apply (H 2%nat 2%nat); [|lia].
  split; [reflexivity|]. repeat constructor.
Defined.

End MapperFacts.

(** ** The biome generator's output *)
Module GenerateFacts.
Import BiomeGenerator PyFacts NoiseFacts GridFacts LoopFacts RulePassFacts
       MapperFacts.

Lemma get_biome_label e m : In (_get_biome e m) BiomeType.labels.
Proof.
  unfold _get_biome.
  repeat match goal with
         | |- context [if ?b then _ else _] => destruct b
         end; simpl; tauto.
Qed.

(** Two arrays of one shape read cell by cell. *)
Lemma mapM_cells2 {B} (f : float -> float -> B) h w (e m : list (list float)) :
  shaped h w e -> shaped h w m ->
  exists bm,
    mapM (fun y =>
      mapM (fun x =>
        a <- getitem2 e y x ;; b <- getitem2 m y x ;; Ok (f a b))
        (range (Z.of_nat w)))
      (range (Z.of_nat h)) = Ok bm
    /\ shaped h w bm
    /\ Forall (Forall (fun v => exists a b, v = f a b)) bm.
Proof.
  intros He Hm.
  set (cell := fun y x : Z =>
         a <- getitem2 e y x ;; b <- getitem2 m y x ;; Ok (f a b)).
  assert (Hcell : forall y x, 0 <= y < Z.of_nat h -> 0 <= x < Z.of_nat w ->
                    exists a b, cell y x = Ok (f a b)).
  { intros y x Hy Hx. unfold cell.
    destruct (getitem2_shaped h w e x y He Hx Hy) as (_ & a & _ & _ & _ & _ & ->).
    destruct (getitem2_shaped h w m x y Hm Hx Hy) as (_ & b & _ & _ & _ & _ & ->).
    cbn [bind]. eauto. }
  destruct (mapM_ok (fun y => mapM (fun x => cell y x) (range (Z.of_nat w)))
              (range (Z.of_nat h))) as (bm & Hbm & Hlen).
  { intros y Hy. apply In_range in Hy.
    destruct (mapM_ok (fun x => cell y x) (range (Z.of_nat w)))
      as (row & Hrow & _); [|eauto].
    intros x Hx. apply In_range in Hx.
    destruct (Hcell y x Hy Hx) as (a & b & Hab). eauto. }
  exists bm. split; [exact Hbm|]. split; [split|].
  - now rewrite Hlen, range_length, Nat2Z.id.
  - eapply mapM_Forall; [|exact Hbm]. intros y row _ Hrow.
    apply mapM_length in Hrow. now rewrite Hrow, range_length, Nat2Z.id.
  - eapply mapM_Forall; [|exact Hbm]. intros y row Hy Hrow.
    apply In_range in Hy.
    eapply mapM_Forall; [|exact Hrow]. intros x v Hx Hv.
    apply In_range in Hx. destruct (Hcell y x Hy Hx) as (a & b & Hab).
    exists a, b. congruence.
Qed.

Lemma generate_spec (np_sin np_cos : float -> float) s :
  0 < width s -> 0 < height s ->
  exists log biome_map terrain_map,
    generate np_sin np_cos s = (log, Ok (biome_map, terrain_map))
    /\ shaped (Z.to_nat (height s)) (Z.to_nat (width s)) biome_map
    /\ shaped (Z.to_nat (height s)) (Z.to_nat (width s)) terrain_map
    /\ Forall (Forall (fun b => In b BiomeType.labels)) biome_map
    /\ terrain_map
       = map (map TerrainMapper.get_terrain_for_biome) biome_map.
Proof.
  intros Hw Hh. unfold generate.
  destruct (noise_map_ok np_sin np_cos s 4.0 4 Hw Hh) as (l1 & e & -> & He).
  destruct (noise_map_ok np_sin np_cos s 3.0 3 Hw Hh) as (l2 & m & -> & Hm).
  cbn [Np.tbind].
  destruct (mapM_cells2 _get_biome _ _ e m He Hm) as (bm & Hbm & Hs & Hlab).
  rewrite !Z2Nat.id in Hbm by lia.
  unfold Np.lift at 1. rewrite Hbm. cbn [Np.tbind].
  assert (Htm : TerrainMapper.translate_biomes bm
                = Ok (map (map TerrainMapper.get_terrain_for_biome) bm)).
  { unfold TerrainMapper.translate_biomes.
    destruct (shaped_row0 _ _ bm Hs ltac:(lia)) as (row0 & Hrow0 & Hlen).
    rewrite Hrow0. cbn [bind]. rewrite Hlen, (proj1 Hs).
    exact (mapM_cells TerrainMapper.get_terrain_for_biome _ _ bm Hs). }
  rewrite Htm. cbn.
  eexists _, bm, _. split; [reflexivity|]. split; [exact Hs|].
  split; [now apply shaped_map2d_any|]. split; [|reflexivity].
  eapply Forall_impl; [|exact Hlab]. intros row Hrow.
  eapply Forall_impl; [|exact Hrow]. intros v (a & b & ->).
  apply get_biome_label.
Qed.

(** X5: For positive dimensions [generate] returns a biome map and a terrain
    map of [height] rows of [width] cells; every biome cell is one of the
    eight biome labels, and the terrain map is the biome map translated
    cell by cell. *)
Theorem generate_shapes (np_sin np_cos : float -> float) s :
  0 < width s -> 0 < height s ->
  exists log biome_map terrain_map,
    generate np_sin np_cos s = (log, Ok (biome_map, terrain_map))
    /\ shaped (Z.to_nat (height s)) (Z.to_nat (width s)) biome_map
    /\ shaped (Z.to_nat (height s)) (Z.to_nat (width s)) terrain_map
    /\ Forall (Forall (fun b => In b BiomeType.labels)) biome_map
    /\ terrain_map
       = map (map TerrainMapper.get_terrain_for_biome) biome_map.
Proof. intros Hw Hh. now apply generate_spec. Qed.

Lemma generate_shapes_witness :
  exists log biome_map terrain_map,
    generate (fun v => v) (fun _ => 1%float)
      {| width := 3; height := 2; seed := 7 |}
    = (log, Ok (biome_map, terrain_map))
    /\ shaped (Z.to_nat 2) (Z.to_nat 3) biome_map
    /\ shaped (Z.to_nat 2) (Z.to_nat 3) terrain_map
    /\ Forall (Forall (fun b => In b BiomeType.labels)) biome_map
    /\ terrain_map
       = map (map TerrainMapper.get_terrain_for_biome) biome_map.
Proof.
  apply (generate_shapes (fun v => v) (fun _ => 1%float)
           {| width := 3; height := 2; seed := 7 |}); simpl; lia.
Defined.

End GenerateFacts.

(** ** Counting with [Counter] *)
Module CounterFacts.

(** The count recorded for [k] in a counter over integers. *)
Fixpoint count_in (c : list (Z * Z)) (k : Z) : Z :=
  match c with
  | [] => 0
  | (k', n) :: t => if k' =? k then n else count_in t k
  end.

Definition occurrences (l : list Z) (k : Z) : Z :=
  Z.of_nat (count_occ Z.eq_dec l k).

Lemma count_in_incr c k k' :
  count_in (counter_incr Z.eqb c k) k'
  = count_in c k' + (if k =? k' then 1 else 0).
Proof.
  induction c as [|[k0 n] t IH]; simpl.
  - destruct (k =? k'); lia.
  - destruct (Z.eqb_spec k0 k) as [->|Hne]; simpl.
    + destruct (k =? k'); lia.
    + destruct (Z.eqb_spec k0 k') as [->|Hne'].
      * destruct (Z.eqb_spec k k'); [congruence|lia].
      * apply IH.
Qed.

Lemma count_in_fold l : forall c k,
  count_in (fold_left (counter_incr Z.eqb) l c) k
  = count_in c k + occurrences l k.
Proof.
  unfold occurrences.
  induction l as [|a t IH]; intros c k; simpl; [lia|].
  rewrite IH, count_in_incr.
  destruct (Z.eq_dec a k) as [->|Hne].
  - rewrite Z.eqb_refl. lia.
  - destruct (Z.eqb_spec a k); [contradiction|lia].
Qed.

Lemma count_in_counter_of l k :
  count_in (counter_of Z.eqb l) k = occurrences l k.
Proof. unfold counter_of. now rewrite count_in_fold. Qed.

Lemma keys_incr c k :
  NoDup (map fst c) -> NoDup (map fst (counter_incr Z.eqb c k))
  /\ forall k', In k' (map fst (counter_incr Z.eqb c k)) <->
                k' = k \/ In k' (map fst c).
Proof.
  induction c as [|[k0 n] t IH]; simpl; intros Hnd.
  - split; [repeat constructor; auto|]. intuition.
  - inversion Hnd as [|? ? Hk0 Ht]; subst.
    destruct (Z.eqb_spec k0 k) as [->|Hne]; simpl.
    + split; [assumption|]. intuition.
    + destruct (IH Ht) as [Hnd' Hkeys]. split.
      * constructor; [|assumption]. rewrite Hkeys. intuition.
      * intros k'. rewrite Hkeys. intuition.
Qed.

Lemma keys_fold l : forall c,
  NoDup (map fst c) -> NoDup (map fst (fold_left (counter_incr Z.eqb) l c)).
Proof.
  induction l as [|a t IH]; intros c Hnd; simpl; [assumption|].
  apply IH. now apply keys_incr.
Qed.

Lemma count_in_item c k n :
  NoDup (map fst c) -> In (k, n) c -> count_in c k = n.
Proof.
  induction c as [|[k0 n0] t IH]; simpl; intros Hnd Hin; [contradiction|].
  inversion Hnd as [|? ? Hk0 Ht]; subst. destruct Hin as [Heq|Hin].
  - injection Heq as -> ->. now rewrite Z.eqb_refl.
  - destruct (Z.eqb_spec k0 k) as [->|_]; [|auto].
    exfalso. apply Hk0. apply in_map_iff. now exists (k, n).
Qed.

Lemma item_of_positive_count c k :
  0 < count_in c k -> In (k, count_in c k) c.
Proof.
  induction c as [|[k0 n0] t IH]; simpl; [lia|].
  destruct (Z.eqb_spec k0 k) as [->|_]; [now left|]. intros; right; auto.
Qed.

Lemma max_item_in {K} (best : K * Z) c :
  In (max_item best c) (best :: c).
Proof.
  revert best. induction c as [|kv t IH]; intros best; simpl; [now left|].
  destruct (IH (if snd best <? snd kv then kv else best)) as [H|H];
    [|right; now right].
  rewrite <- H. destruct (snd best <? snd kv); [right; now left|now left].
Qed.

Lemma max_item_ge {K} (best : K * Z) c kv :
  In kv (best :: c) -> snd kv <= snd (max_item best c).
Proof.
  revert best kv. induction c as [|kv0 t IH]; intros best kv; simpl.
  - intros [<-|[]]. lia.
  - intros [<-|[<-|Hin]]; [| |apply IH; now right];
      (etransitivity;
       [|apply (IH (if snd best <? snd kv0 then kv0 else best)); now left]);
      destruct (Z.ltb_spec (snd best) (snd kv0)); simpl; lia.
Qed.

(** [Counter(l).most_common(1)] is empty only for the empty list;
    otherwise its item is an element of [l] with its number of occurrences,
    and no element of [l] occurs more often. *)
Lemma most_common_spec l :
  match most_common_1 (counter_of Z.eqb l) with
  | [] => l = []
  | (v, n) :: _ =>
      In v l /\ n = occurrences l v
      /\ forall u, occurrences l u <= occurrences l v
  end.
Proof.
  pose proof (keys_fold l [] (NoDup_nil _)) as Hnd. fold (counter_of Z.eqb l) in Hnd.
  assert (Hpos : forall u, In u l -> 0 < occurrences l u).
  { intros u Hu. unfold occurrences.
    apply (count_occ_In Z.eq_dec) in Hu. lia. }
  destruct (counter_of Z.eqb l) as [|kv t] eqn:Ec; simpl.
  - destruct l as [|a l']; [reflexivity|]. exfalso.
    specialize (Hpos a ltac:(now left)).
    rewrite <- count_in_counter_of, Ec in Hpos. simpl in Hpos. lia.
  - destruct (max_item kv t) as [v n] eqn:Em.
    pose proof (max_item_in kv t) as Hin. rewrite Em in Hin.
    assert (Hn : n = occurrences l v).
    { rewrite <- count_in_counter_of, Ec. symmetry.
      now apply count_in_item. }
    assert (Hmax : forall u, occurrences l u <= occurrences l v).
    { intros u. destruct (Z.le_gt_cases (occurrences l u) 0) as [Hz|Hu].
      - unfold occurrences in *. lia.
      - rewrite <- Hn. rewrite <- count_in_counter_of, Ec in Hu |- *.
        apply item_of_positive_count in Hu.
        pose proof (max_item_ge kv t _ Hu) as Hge.
        rewrite Em in Hge. exact Hge. }
    split; [|split; assumption].
    apply (count_occ_In Z.eq_dec).
    assert (0 < occurrences l v); [|unfold occurrences in *; lia].
    rewrite <- Hn. destruct l as [|a l']; [discriminate|].
    specialize (Hmax a). specialize (Hpos a ltac:(now left)). lia.
Qed.

End CounterFacts.

(** ** Smoothing of the region map *)
Module SmoothFacts.
Import RegionGenerator PyFacts NoiseFacts GridFacts LoopFacts SeedFacts
       RegionFacts RulePassFacts CounterFacts.

Definition in_grid (w h : nat) (x y : Z) : bool :=
  (0 <=? x) && (x <? Z.of_nat w) && (0 <=? y) && (y <? Z.of_nat h).

(** The ids around [(x, y)] that lie in the grid, in scan order. *)
Definition neighbors_of (g : list (list Z)) (w h : nat) (x y : Z) : list Z :=
  flat_map (fun '(dx, dy) =>
    if in_grid w h (x + dx) (y + dy)
    then match getitem2 g (y + dy) (x + dx) with
         | Ok v => [v]
         | Raise _ => []
         end
    else []) BiomeRuleEngine.offsets.

(** The vote for the cell [(x, y)] of [g]: without a neighbour the cell
    keeps its id; otherwise it takes a neighbour's id that no other id
    outnumbers among the neighbours. *)
Definition vote (g : list (list Z)) (w h : nat) (x y v : Z) : Prop :=
  match neighbors_of g w h x y with
  | [] => getitem2 g y x = Ok v
  | ns => In v ns /\ forall u, occurrences ns u <= occurrences ns v
  end.

Lemma in_grid_spec w h x y :
  in_grid w h x y = true <-> 0 <= x < Z.of_nat w /\ 0 <= y < Z.of_nat h.
Proof. unfold in_grid. rewrite !andb_true_iff. lia. Qed.

Lemma neighbor_fold h w (g : list (list Z)) x y l :
  shaped h w g ->
  forall acc,
    foldM (fun neighbors '(dx, dy) =>
      let nx := x + dx in
      let ny := y + dy in
      if (0 <=? nx) && (nx <? Z.of_nat w) && (0 <=? ny) && (ny <? Z.of_nat h)
      then v <- getitem2 g ny nx ;; Ok (neighbors ++ [v])
      else Ok neighbors) l acc
    = Ok (acc ++ flat_map (fun '(dx, dy) =>
            if in_grid w h (x + dx) (y + dy)
            then match getitem2 g (y + dy) (x + dx) with
                 | Ok v => [v]
                 | Raise _ => []
                 end
            else []) l).
Proof.
  intros Hs. induction l as [|[dx dy] t IH]; intros acc; simpl.
  - now rewrite app_nil_r.
  - fold (in_grid w h (x + dx) (y + dy)).
    destruct (in_grid w h (x + dx) (y + dy)) eqn:E.
    + apply in_grid_spec in E as [Hx Hy].
      destruct (getitem2_shaped h w g _ _ Hs Hx Hy)
        as (_ & v & _ & _ & _ & _ & ->).
      cbn [bind]. rewrite IH. now rewrite <- app_assoc.
    + apply IH.
Qed.

Lemma neighbor_ids_eq h w (g : list (list Z)) x y :
  shaped h w g ->
  neighbor_ids g (Z.of_nat w) (Z.of_nat h) x y = Ok (neighbors_of g w h x y).
Proof.
  intros Hs. exact (neighbor_fold h w g x y BiomeRuleEngine.offsets Hs []).
Qed.

Lemma neighbors_in_grid h w (g : list (list Z)) x y v :
  In v (neighbors_of g w h x y) ->
  exists x' y', 0 <= x' < Z.of_nat w /\ 0 <= y' < Z.of_nat h
                /\ getitem2 g y' x' = Ok v.
Proof.
  unfold neighbors_of. intros Hin. apply in_flat_map in Hin as ([dx dy] & _ & Hv).
  destruct (in_grid w h (x + dx) (y + dy)) eqn:E; [|contradiction].
  apply in_grid_spec in E.
  destruct (getitem2 g (y + dy) (x + dx)) as [v'|] eqn:Ev; [|contradiction].
  destruct Hv as [<-|[]]. exists (x + dx), (y + dy). tauto.
Qed.

(** While a pass runs: visited cells hold their vote, the others their
    id in the snapshot. *)
Definition smooth_inv (sm : list (list Z)) (h w : nat) (done : list point)
    (g : list (list Z)) : Prop :=
  shaped h w g
  /\ forall x y, 0 <= x < Z.of_nat w -> 0 <= y < Z.of_nat h ->
       exists v, getitem2 g y x = Ok v
         /\ (In (x, y) done -> vote sm w h x y v)
         /\ (~ In (x, y) done -> getitem2 sm y x = Ok v).

Definition smooth_body (sm : list (list Z)) (width height : Z)
    (new_map : list (list Z)) (p : point) : result (list (list Z)) :=
  let '(x, y) := p in
  neighbors <- neighbor_ids sm width height x y ;;
  match most_common_1 (counter_of Z.eqb neighbors) with
  | (v, _) :: _ => setitem2 new_map y x v
  | [] => Ok new_map
  end.

Lemma smooth_inv_step sm h w done p rest g :
  shaped h w sm ->
  done ++ p :: rest = cells (Z.of_nat w) (Z.of_nat h) ->
  smooth_inv sm h w done g ->
  exists g', smooth_body sm (Z.of_nat w) (Z.of_nat h) g p = Ok g'
             /\ smooth_inv sm h w (done ++ [p]) g'.
Proof.
  intros Hsm Hall (Hs & Hcells). destruct p as [x y].
  pose proof (NoDup_cells (Z.of_nat w) (Z.of_nat h)) as Hnd.
  rewrite <- Hall in Hnd.
  assert (Hfresh : ~ In (x, y) done).
  { intros Hin. apply (NoDup_remove_2 _ _ _ Hnd). apply in_or_app. now left. }
  assert (Hin : In (x, y) (cells (Z.of_nat w) (Z.of_nat h))).
  { rewrite <- Hall. apply in_or_app. right. now left. }
  apply In_cells in Hin as [Hx Hy].
  unfold smooth_body. rewrite (neighbor_ids_eq h w sm x y Hsm). cbn [bind].
  pose proof (most_common_spec (neighbors_of sm w h x y)) as Hmc.
  assert (Hkeep : forall g', shaped h w g' ->
            (forall a b, 0 <= a < Z.of_nat w -> 0 <= b < Z.of_nat h ->
               (a, b) <> (x, y) -> getitem2 g' b a = getitem2 g b a) ->
            (exists v, getitem2 g' y x = Ok v /\ vote sm w h x y v) ->
            smooth_inv sm h w (done ++ [(x, y)]) g').
  { intros g' Hs' Hother (v & Hv & Hvote). split; [assumption|].
    intros a b Ha Hb.
    destruct ((a =? x) && (b =? y)) eqn:E.
    - apply andb_prop in E as [E1 E2]. apply Z.eqb_eq in E1, E2. subst a b.
      exists v. repeat split; auto.
      intros Hi. exfalso. apply Hi. apply in_or_app. right. now left.
    - assert (Hne : (a, b) <> (x, y)).
      { intros [= -> ->]. rewrite !Z.eqb_refl in E. discriminate. }
      rewrite (Hother a b Ha Hb Hne).
      destruct (Hcells a b Ha Hb) as (v' & Hv' & Hdone & Hnot).
      exists v'. repeat split; try assumption.
      + intros Hi. apply in_app_or in Hi as [Hi|[Heq|[]]]; [auto|].
        symmetry in Heq. contradiction.
      + intros Hi. apply Hnot. intros Hd. apply Hi. apply in_or_app. now left. }
  destruct (most_common_1 (counter_of Z.eqb (neighbors_of sm w h x y)))
    as [|[v n] rest'] eqn:Emc.
  - exists g. split; [reflexivity|]. apply Hkeep; auto.
    destruct (Hcells x y Hx Hy) as (v & Hv & _ & Hnot).
    exists v. split; [assumption|]. unfold vote. rewrite Hmc. auto.
  - destruct (setitem2_ok h w g x y v Hs Hx Hy) as (g' & Hg').
    exists g'. split; [exact Hg'|]. apply Hkeep.
    + exact (setitem2_shaped _ _ g g' x y v (proj1 Hx) (proj1 Hy) Hs Hg').
    + intros a b Ha Hb Hne.
      rewrite (getitem2_setitem2 g g' x y a b v
                 (proj1 Hx) (proj1 Hy) (proj1 Ha) (proj1 Hb) Hg').
      destruct ((a =? x) && (b =? y)) eqn:E; [|reflexivity].
      apply andb_prop in E as [E1 E2]. apply Z.eqb_eq in E1, E2. congruence.
    + exists v. split.
      * rewrite (getitem2_setitem2 g g' x y x y v
                   (proj1 Hx) (proj1 Hy) (proj1 Hx) (proj1 Hy) Hg').
        now rewrite !Z.eqb_refl.
      * destruct Hmc as (Hvin & _ & Hmax). unfold vote.
        destruct (neighbors_of sm w h x y); [contradiction|]. auto.
Qed.

Lemma smooth_pass_votes h w (sm : list (list Z)) :
  shaped h w sm ->
  exists g', smooth_pass (Z.of_nat w) (Z.of_nat h) sm = Ok g'
    /\ shaped h w g'
    /\ forall x y, 0 <= x < Z.of_nat w -> 0 <= y < Z.of_nat h ->
         exists v, getitem2 g' y x = Ok v /\ vote sm w h x y v.
Proof.
  intros Hs.
  destruct (foldM_total (smooth_body sm (Z.of_nat w) (Z.of_nat h))
              (smooth_inv sm h w) (cells (Z.of_nat w) (Z.of_nat h)))
    with (rest := cells (Z.of_nat w) (Z.of_nat h))
         (done := @nil point) (s := sm)
    as (g' & Hg' & Hs' & Hcells); [|reflexivity| |].
  { intros done p rest s Hall Hi. eapply smooth_inv_step; eassumption. }
  { split; [assumption|]. intros x y Hx Hy.
    destruct (getitem2_shaped h w sm x y Hs Hx Hy)
      as (_ & v & _ & _ & _ & _ & Hv).
    exists v. repeat split; auto. intros []. }
  exists g'. split; [exact Hg'|]. split; [exact Hs'|].
  intros x y Hx Hy. destruct (Hcells x y Hx Hy) as (v & Hv & Hdone & _).
  exists v. split; [assumption|]. apply Hdone. apply In_cells. lia.
Qed.

Lemma vote_in_grid h w (sm : list (list Z)) x y v :
  0 <= x < Z.of_nat w -> 0 <= y < Z.of_nat h ->
  vote sm w h x y v ->
  exists x' y', 0 <= x' < Z.of_nat w /\ 0 <= y' < Z.of_nat h
                /\ getitem2 sm y' x' = Ok v.
Proof.
  intros Hx Hy. unfold vote.
  destruct (neighbors_of sm w h x y) as [|n ns] eqn:E.
  - intros Hv. exists x, y. tauto.
  - intros [Hin _]. apply (neighbors_in_grid h w sm x y). now rewrite E.
Qed.

(** Every cell of [a] holds an id found somewhere in [b]. *)
Definition ids_within (h w : nat) (a b : list (list Z)) : Prop :=
  forall x y, 0 <= x < Z.of_nat w -> 0 <= y < Z.of_nat h ->
    exists v, getitem2 a y x = Ok v
      /\ exists x' y', 0 <= x' < Z.of_nat w /\ 0 <= y' < Z.of_nat h
                       /\ getitem2 b y' x' = Ok v.

Lemma smooth_iterations h w (g : list (list Z)) (l : list Z) :
  forall sm, shaped h w sm -> ids_within h w sm g ->
    exists g', foldM (fun smoothed _ =>
                        smooth_pass (Z.of_nat w) (Z.of_nat h) smoothed) l sm
               = Ok g'
               /\ shaped h w g' /\ ids_within h w g' g.
Proof.
  induction l as [|i t IH]; intros sm Hs Hids; simpl; [eauto|].
  destruct (smooth_pass_votes h w sm Hs) as (g1 & -> & Hs1 & Hv1). cbn [bind].
  apply IH; [assumption|]. intros x y Hx Hy.
  destruct (Hv1 x y Hx Hy) as (v & Hv & Hvote). exists v. split; [assumption|].
  destruct (vote_in_grid h w sm x y v Hx Hy Hvote) as (x1 & y1 & Hx1 & Hy1 & Hsm).
  destruct (Hids x1 y1 Hx1 Hy1) as (v' & Hv' & x2 & y2 & Hx2 & Hy2 & Hg).
  exists x2, y2. repeat split; try tauto. congruence.
Qed.

(** X6: On a rectangular region map with at least one row, [_smooth_regions]
    never raises, whatever the number of iterations, keeps the shape of the
    map and invents no region id: every cell of the result holds an id
    that some cell of the input holds. *)
Theorem smooth_regions_keeps_ids h w (g : list (list Z)) iterations :
  shaped h w g -> (0 < h)%nat ->
  exists g', _smooth_regions g iterations = Ok g'
    /\ shaped h w g' /\ ids_within h w g' g.
Proof.
  intros Hs Hpos. unfold _smooth_regions.
  destruct (shaped_row0 h w g Hs Hpos) as (row0 & Hrow0 & Hlen).
  rewrite Hrow0. cbn [bind]. rewrite Hlen, (proj1 Hs).
  apply smooth_iterations; [assumption|].
  intros x y Hx Hy.
  destruct (getitem2_shaped h w g x y Hs Hx Hy) as (_ & v & _ & _ & _ & _ & Hv).
  exists v. split; [assumption|]. exists x, y. tauto.
Qed.

Definition two_regions : list (list Z) := [[0; 0; 1]; [0; 1; 1]].

Lemma smooth_regions_keeps_ids_witness :
  exists g', _smooth_regions two_regions 2 = Ok g'
    /\ shaped 2 3 g' /\ ids_within 2 3 g' two_regions.
Proof.
  apply (smooth_regions_keeps_ids 2 3 two_regions 2); [|lia].
  split; [reflexivity|]. repeat constructor.
Defined.

(** X7: One smoothing pass is a majority vote on the input map: a cell without
    neighbour keeps its id; any other cell takes the id of one of its
    neighbours in the input map, and no id occurs more often among those
    neighbours. *)
Theorem smooth_pass_majority h w (g : list (list Z)) :
  shaped h w g -> (0 < h)%nat ->
  exists g', _smooth_regions g 1 = Ok g' /\ shaped h w g'
    /\ forall x y, 0 <= x < Z.of_nat w -> 0 <= y < Z.of_nat h ->
         exists v, getitem2 g' y x = Ok v
           /\ match neighbors_of g w h x y with
              | [] => getitem2 g y x = Ok v
              | ns => In v ns
                      /\ forall u, occurrences ns u <= occurrences ns v
              end.
Proof.
  intros Hs Hpos. unfold _smooth_regions.
  destruct (shaped_row0 h w g Hs Hpos) as (row0 & Hrow0 & Hlen).
  rewrite Hrow0. cbn [bind]. rewrite Hlen, (proj1 Hs).
  destruct (smooth_pass_votes h w g Hs) as (g' & Hg' & Hs' & Hv).
  exists g'. split; [|split; [assumption|exact Hv]].
  change (range 1) with [0]. cbn [foldM]. rewrite Hg'. reflexivity.
Qed.

Lemma smooth_pass_majority_witness :
  exists g', _smooth_regions two_regions 1 = Ok g' /\ shaped 2 3 g'
    /\ forall x y, 0 <= x < Z.of_nat 3 -> 0 <= y < Z.of_nat 2 ->
         exists v, getitem2 g' y x = Ok v
           /\ match neighbors_of two_regions 3 2 x y with
              | [] => getitem2 two_regions y x = Ok v
              | ns => In v ns
                      /\ forall u, occurrences ns u <= occurrences ns v
              end.
Proof.
  apply (smooth_pass_majority 2 3 two_regions); [|lia].
  split; [reflexivity|]. repeat constructor.
Defined.



End SmoothFacts.

(** ** The pool of eligible positions *)
Module SeedPoolFacts.
Import RegionGenerator PyFacts SeedFacts.

Lemma insert_desc_In p q l : In q (insert_desc p l) <-> q = p \/ In q l.
Proof.
  induction l as [|a t IH]; simpl; [intuition|].
  destruct (PrimFloat.ltb (snd a) (snd p)); simpl; [intuition|].
  rewrite IH. intuition.
Qed.

Lemma sort_desc_In q l : In q (sort_desc l) <-> In q l.
Proof.
  unfold sort_desc.
  assert (Hgen : forall acc, In q (fold_left (fun acc p => insert_desc p acc) l acc)
                             <-> In q acc \/ In q l).
  { induction l as [|a t IH]; intros acc; simpl; [intuition|].
    rewrite IH, insert_desc_In. intuition. }
  rewrite Hgen. simpl. intuition.
Qed.

Lemma select_In vp : forall cw r p, select vp cw r = Some p -> In p vp.
Proof.
  induction vp as [|a t IH]; intros cw r p; simpl; [discriminate|].
  destruct (PrimFloat.leb r (cw + snd a)).
  - intros [= <-]. now left.
  - intros Hs. right. eapply IH; eassumption.
Qed.

Definition position_cell (p : position) : point := (fst (fst p), snd (fst p)).

(** The placed seeds and the positions still eligible are cells of [l]. *)
Definition inside (l : list point) (st : loop_state) : Prop :=
  (forall s, In s (seeds st) -> In s l)
  /\ (forall p, In p (valid_positions st) -> In (position_cell p) l).

(** Every eligible position is at least [d] away from every placed seed. *)
Definition pool_clear (d : Z) (st : loop_state) : Prop :=
  forall p s, In p (valid_positions st) -> In s (seeds st) ->
    d <= _manhattan_distance (fst (fst p)) (snd (fst p)) (fst s) (snd s).

Section Pool.
Context {G : Type} `{Random.Source G}.

Lemma attempt_inside l d st (g : G) :
  inside l st -> inside l (fst (attempt d st g)).
Proof.
  intros [Hseeds Hpool]. unfold attempt.
  destruct (Random.uniform _ _ g) as [r g1].
  destruct (select _ _ _) as [[[x y] w]|] eqn:Es; [|split; assumption].
  apply select_In in Es.
  destruct (negb _); [|split; assumption]. split; simpl.
  - intros s Hs. apply in_app_or in Hs as [Hs|[<-|[]]]; [auto|].
    exact (Hpool _ Es).
  - intros p Hp. apply filter_In in Hp as [Hp _]. auto.
Qed.

Lemma attempt_pool_clear d st (g : G) :
  pool_clear d st -> pool_clear d (fst (attempt d st g)).
Proof.
  intros Hclear. unfold attempt.
  destruct (Random.uniform _ _ g) as [r g1].
  destruct (select _ _ _) as [[[x y] w]|] eqn:Es; [|assumption].
  destruct (negb _); [|assumption].
  intros p s Hp Hs. simpl in Hp, Hs.
  apply filter_In in Hp as [Hp Hfar].
  apply in_app_or in Hs as [Hs|[<-|[]]]; [auto|].
  destruct p as [[px py] pw]. simpl in *. lia.
Qed.

Lemma after_attempts_keeps (P : loop_state -> Prop) d :
  (forall st (g : G), P st -> P (fst (attempt d st g))) ->
  forall k st g, P st -> P (fst (after_attempts k d st g)).
Proof.
  intros Hstep k. induction k as [|k IH]; intros st g HP; simpl; [assumption|].
  pose proof (Hstep st g HP) as HP'.
  destruct (attempt d st g) as [st1 g1]. now apply IH.
Qed.

(** X9: In the selection loop the test against the seeds already placed never
    rejects: after any number of attempts from a state without seeds, every
    position that can still be selected is at least [min_distance] away
    from every seed, so [too_close] is false for it. *)
Theorem selected_position_never_too_close k d vp (g : G) :
  let st := fst (after_attempts k d
                   {| seeds := []; valid_positions := vp; attempts := 0 |} g) in
  pool_clear d st
  /\ forall cw r x y w,
       select (valid_positions st) cw r = Some (x, y, w) ->
       too_close d x y (seeds st) = false.
Proof.
  cbv zeta.
  assert (Hclear : pool_clear d
            (fst (after_attempts k d
                    {| seeds := []; valid_positions := vp; attempts := 0 |} g))).
  { apply (after_attempts_keeps (pool_clear d) d (attempt_pool_clear d)).
    intros p s _ []. }
  split; [exact Hclear|].
  intros cw r x y w Hsel. apply select_In in Hsel.
  unfold too_close. apply not_true_is_false. intros Hex.
  apply existsb_exists in Hex as ([sx sy] & Hs & Hlt).
  specialize (Hclear _ _ Hsel Hs). simpl in Hclear. lia.
Qed.

Lemma seed_search_pool width height num_regions biome_map (g g' : G) st :
  seed_search width height num_regions biome_map g = (Ok st, g') ->
  exists d vp,
    min_distance_of width height num_regions = Ok d
    /\ (forall p, In p vp -> In (position_cell p) (cells width height))
    /\ while_loop (Z.to_nat (num_regions * 100)) d num_regions
         (num_regions * 100)
         {| seeds := []; valid_positions := vp; attempts := 0 |} g
       = (st, g').
Proof.
  unfold seed_search.
  destruct (min_distance_of width height num_regions) as [d|e];
    cbn [bind]; [|discriminate].
  match goal with
  | |- context [mapM ?f ?l] => destruct (mapM f l) as [vp|e] eqn:Evp
  end; cbn [bind]; [|discriminate].
  destruct (while_loop _ _ _ _ _ g) as [st1 g1] eqn:E.
  intros [= <- <-]. exists d, (sort_desc vp).
  split; [reflexivity|]. split; [|exact E].
  intros p Hp. apply (proj1 (sort_desc_In _ _)) in Hp.
  assert (Hall : Forall (fun p => In (position_cell p) (cells width height)) vp).
  { eapply mapM_Forall; [|exact Evp]. intros [x y] b Ha Hb.
    cbv beta iota in Hb.
    destruct (getitem2 biome_map y x); [|discriminate].
    injection Hb as <-. exact Ha. }
  rewrite Forall_forall in Hall. now apply Hall.
Qed.

(** X10: Every seed returned by [_generate_seed_points] is a cell of the map. *)
Theorem seeds_inside_map width height num_regions biome_map min_region_size
    (g g' : G) placed :
  _generate_seed_points width height num_regions biome_map min_region_size g
  = (Ok placed, g') ->
  forall x y, In (x, y) placed -> 0 <= x < width /\ 0 <= y < height.
Proof.
  unfold _generate_seed_points.
  destruct (seed_search width height num_regions biome_map g)
    as [[st|e] g1] eqn:Es; cbn [bind]; [|discriminate].
  intros [= <- <-].
  destruct (seed_search_pool _ _ _ _ _ _ _ Es) as (d & vp & _ & Hvp & Hloop).
  destruct (while_loop_trace d num_regions (num_regions * 100)
              (Z.to_nat (num_regions * 100))
              {| seeds := []; valid_positions := vp; attempts := 0 |} g)
    as (k & _ & Heq & _).
  rewrite Hloop in Heq.
  pose proof (after_attempts_keeps (inside (cells width height)) d
                (attempt_inside (cells width height) d) k
                {| seeds := []; valid_positions := vp; attempts := 0 |} g
                (conj (fun s (Hs : In s []) => match Hs with end) Hvp))
    as [Hin _].
  rewrite <- Heq in Hin. simpl in Hin.
  intros x y Hxy. apply In_cells. now apply Hin.
Qed.

Lemma separated_NoDup d (l : list point) :
  1 <= d -> separated d l -> NoDup l.
Proof.
  intros Hd Hsep. apply NoDup_nth_error. intros i j Hi Hij.
  destruct (Nat.eq_dec i j) as [|Hne]; [assumption|]. exfalso.
  destruct (nth_error l i) as [p|] eqn:Ep;
    [|apply nth_error_None in Ep; lia].
  symmetry in Hij. specialize (Hsep i j p p Hne Ep Hij).
  unfold _manhattan_distance in Hsep. lia.
Qed.

(** X11: When the map has at least two cells per requested region, the
    minimum distance computed is at least 1 and the seeds returned are
    pairwise distinct. *)
Theorem seeds_distinct width height num_regions biome_map min_region_size
    (g g' : G) placed :
  0 < num_regions -> num_regions * 2 <= width * height ->
  _generate_seed_points width height num_regions biome_map min_region_size g
  = (Ok placed, g') ->
  exists d,
    min_distance_of width height num_regions = Ok d
    /\ 1 <= d
    /\ NoDup placed.
Proof.
  intros Hn Hcells. unfold _generate_seed_points.
  destruct (seed_search width height num_regions biome_map g)
    as [[st|e] g1] eqn:Es; cbn [bind]; [|discriminate].
  intros [= <- <-].
  destruct (seed_search_inv _ _ _ _ _ _ _ Es) as (d & vp & Hd & Hloop).
  assert (Hge : 1 <= d).
  { apply (MinDistanceFacts.min_distance_of_ge width height num_regions d 1 Hd);
      [lia|split; [lia|reflexivity]|lia]. }
  exists d. split; [exact Hd|]. split; [exact Hge|].
  destruct (while_loop_trace d num_regions (num_regions * 100)
              (Z.to_nat (num_regions * 100))
              {| seeds := []; valid_positions := vp; attempts := 0 |} g)
    as (k & _ & Heq & _).
  rewrite Hloop in Heq.
  pose proof (after_attempts_separated k d
                {| seeds := []; valid_positions := vp; attempts := 0 |} g
                (separated_nil d)) as Hsep.
  rewrite <- Heq in Hsep. exact (separated_NoDup d _ Hge Hsep).
Qed.
End Pool.

#[local] Existing Instance Random.replay.

Lemma seeds_inside_map_witness :
  In (3, 0) [(0, 0); (3, 0)] /\ 0 <= 3 < 4 /\ 0 <= 0 < 1.
Proof.
  split; [right; left; reflexivity|].
  apply (seeds_inside_map 4 1 2 plain 20 [0%float; 0.99%float] []
           [(0, 0); (3, 0)]).
  - reflexivity.
  - right; left; reflexivity.
Defined.

Lemma seeds_distinct_witness :
  exists d,
    min_distance_of 4 1 2 = Ok d /\ 1 <= d /\ NoDup [(0, 0); (3, 0)].
Proof.
  apply (seeds_distinct 4 1 2 plain 20 [0%float; 0.99%float] []);
    [lia|lia|reflexivity].
Defined.

Lemma selected_position_never_too_close_witness :
  let st := fst (after_attempts 1 1
                   {| seeds := [];
                      valid_positions :=
                        [(0, 0, 1%float); (1, 0, 1%float); (2, 0, 1%float)];
                      attempts := 0 |} [0%float]) in
  select (valid_positions st) 0%float 0%float = Some (1, 0, 1%float)
  /\ too_close 1 1 0 (seeds st) = false.
Proof.
  intros st. split; [vm_compute; reflexivity|].
  apply (proj2 (selected_position_never_too_close 1 1
                  [(0, 0, 1%float); (1, 0, 1%float); (2, 0, 1%float)]
                  [0%float]) 0%float 0%float 1 0 1%float).
  vm_compute. reflexivity.
Defined.

End SeedPoolFacts.

(** ** The region records *)
Module AssignFacts.
Import RegionGenerator PyFacts NoiseFacts GridFacts LoopFacts SeedFacts
       RegionFacts.

(** The sum of the areas of all the records. *)
Definition total_area (rd : region_table) : Z :=
  sum (map (fun kr => area (snd kr)) rd).

Lemma sum_cons a l : sum (a :: l) = a + sum l.
Proof.
  unfold sum. simpl.
  assert (Hgen : forall l x y, fold_left Z.add l (x + y) = x + fold_left Z.add l y).
  { clear. induction l as [|b t IH]; intros x y; simpl; [reflexivity|].
    now rewrite <- IH, Z.add_assoc. }
  rewrite <- (Hgen l a 0). f_equal. lia.
Qed.

Lemma sum_bounds m l :
  (forall v, In v l -> 0 <= v <= m) ->
  0 <= sum l <= m * Z.of_nat (List.length l).
Proof.
  induction l as [|a t IH]; intros Hl; [unfold sum; simpl; lia|].
  rewrite sum_cons. specialize (Hl a (or_introl eq_refl)) as Ha.
  destruct IH as [IH1 IH2]; [intros; apply Hl; now right|].
  simpl List.length. nia.
Qed.

Lemma total_area_modify k f rd :
  (forall r, area (f r) = area r + 1) ->
  total_area (modify k f rd) = total_area rd + 1.
Proof.
  intros Hf. unfold total_area.
  induction rd as [|[k' v] t IH]; simpl.
  - rewrite sum_cons, Hf. reflexivity.
  - destruct (k' =? k); simpl; rewrite !sum_cons.
    + rewrite Hf. lia.
    + rewrite IH. lia.
Qed.

Lemma assign_cell_area sds biome_map st c st' :
  assign_cell sds biome_map st c = Ok st' ->
  total_area (snd st') = total_area (snd st) + 1.
Proof.
  destruct st as [rm rd], c as [x y]. unfold assign_cell.
  destruct (setitem2 rm y x _); cbn [bind]; [|discriminate].
  destruct (getitem2 biome_map y x); cbn [bind]; [|discriminate].
  intros [= <-]. simpl. now apply total_area_modify.
Qed.

Lemma foldM_counts {A S} (body : S -> A -> result S) (m : S -> Z) l :
  (forall s a s', body s a = Ok s' -> m s' = m s + 1) ->
  forall s s', foldM body l s = Ok s' ->
               m s' = m s + Z.of_nat (List.length l).
Proof.
  intros Hstep. induction l as [|a t IH]; intros s s'; simpl.
  - intros [= <-]. lia.
  - destruct (body s a) as [s1|] eqn:E; cbn [bind]; [|discriminate].
    intros Hs'. rewrite (IH _ _ Hs'), (Hstep _ _ _ E). lia.
Qed.

Lemma init_regions_no_area seed_list :
  forall i d,
    Forall (fun kr => area (snd kr) = 0) d ->
    Forall (fun kr => area (snd kr) = 0) (init_regions i seed_list d).
Proof.
  induction seed_list as [|[x y] t IH]; intros i d Hd; simpl; [assumption|].
  apply IH. apply (modify_Forall (fun r => area r = 0)); [assumption|reflexivity].
Qed.

Lemma total_area_zero rd :
  Forall (fun kr => area (snd kr) = 0) rd -> total_area rd = 0.
Proof.
  unfold total_area. induction 1 as [|kr t Hz _ IH]; [reflexivity|].
  simpl. rewrite sum_cons. lia.
Qed.

Lemma finalize_fields r r' :
  finalize r = Ok r' ->
  region_id r' = region_id r /\ seed r' = seed r
  /\ area r' = area r /\ tiles r' = tiles r.
Proof.
  unfold finalize. destruct (tiles r) eqn:Et.
  - intros [= <-]. simpl. auto.
  - destruct (area r =? 0); [discriminate|]. intros [= <-]. simpl. auto.
Qed.

Lemma finalize_total_area rd : forall rd',
  mapM (fun '(k, data) => data' <- finalize data ;; Ok (k, data')) rd = Ok rd' ->
  total_area rd' = total_area rd.
Proof.
  unfold total_area. induction rd as [|[k v] t IH]; intros rd'; simpl.
  - now intros [= <-].
  - destruct (finalize v) as [v'|] eqn:Ev; cbn [bind]; [|discriminate].
    destruct (mapM _ t) as [t'|]; cbn [bind]; [|discriminate].
    intros [= <-]. simpl. rewrite !sum_cons, (IH t' eq_refl).
    destruct (finalize_fields _ _ Ev) as (_ & _ & -> & _). reflexivity.
Qed.

Lemma cells_length width height :
  Z.of_nat (List.length (cells width height))
  = Z.max 0 width * Z.max 0 height.
Proof.
  unfold cells.
  assert (Hlen : forall ys : list Z,
            List.length (flat_map (fun y => map (fun x => (x, y)) (range width)) ys)
            = (List.length ys * Z.to_nat width)%nat).
  { induction ys as [|y t IH]; simpl; [reflexivity|].
    now rewrite length_app, length_map, range_length, IH. }
  rewrite Hlen, range_length. lia.
Qed.

(** X12: The areas of the records returned by [_assign_tiles_to_regions] add up
    to the number of cells of the map. *)
Theorem areas_sum_to_map width height sds biome_map region_map region_data :
  _assign_tiles_to_regions width height sds biome_map
  = Ok (region_map, region_data) ->
  sum (map (fun kr => area (snd kr)) region_data)
  = Z.max 0 width * Z.max 0 height.
Proof.
  unfold _assign_tiles_to_regions.
  destruct (foldM _ _ _) as [[rm0 rd0]|] eqn:Efold; cbn [bind]; [|discriminate].
  destruct (mapM _ rd0) as [rd1|] eqn:Emap; cbn [bind]; [|discriminate].
  intros [= <- <-].
  pose proof (foldM_counts (assign_cell sds biome_map)
                (fun st => total_area (snd st)) (cells width height)
                (assign_cell_area sds biome_map) _ _ Efold) as Hcount.
  simpl in Hcount.
  rewrite (total_area_zero (init_regions 0 sds []))
    in Hcount by (apply init_regions_no_area; constructor).
  rewrite cells_length in Hcount.
  apply finalize_total_area in Emap. unfold total_area in *. lia.
Qed.

Lemma areas_sum_to_map_witness :
  sum (map (fun kr => area (snd kr)) meadow_records) = Z.max 0 3 * Z.max 0 1.
Proof.
  apply (areas_sum_to_map 3 1 [(0, 0); (2, 0)] meadow [[0; 0; 1]]).
  reflexivity.
Defined.

(** X13: The centroid of a record with at least one tile is a cell position of
    the map. *)
Theorem centroid_inside_map width height sds biome_map region_map region_data
    id r :
  _assign_tiles_to_regions width height sds biome_map
  = Ok (region_map, region_data) ->
  lookup id region_data = Some r -> tiles r <> [] ->
  0 <= fst (centroid r) < width /\ 0 <= snd (centroid r) < height.
Proof.
  intros Hassign Hr Hne.
  destruct (assign_tiles_spec _ _ _ _ _ _ Hassign) as (_ & Hrec & _).
  destruct (Hrec id r Hr) as (Ht & Ha & _ & _ & Hc).
  assert (Hin : forall c, In c (tiles r) ->
                  0 <= fst c <= width - 1 /\ 0 <= snd c <= height - 1).
  { intros [x y] Hxy. rewrite Ht in Hxy. unfold cells_with_id in Hxy.
    apply filter_In in Hxy as [Hxy _]. apply In_cells in Hxy. simpl. lia. }
  assert (Hpos : 0 < area r).
  { rewrite Ha. destruct (tiles r); [contradiction|simpl; lia]. }
  assert (Hc' : centroid r = (sum (map fst (tiles r)) / area r,
                              sum (map snd (tiles r)) / area r)).
  { rewrite Hc. destruct (tiles r); [contradiction|reflexivity]. }
  rewrite Hc'. simpl fst. simpl snd.
  pose proof (sum_bounds (width - 1) (map fst (tiles r))) as Hx.
  pose proof (sum_bounds (height - 1) (map snd (tiles r))) as Hy.
  rewrite length_map in Hx. rewrite length_map in Hy.
  destruct Hx as [Hx1 Hx2].
  { intros v Hv. apply in_map_iff in Hv as (c & <- & Hv). now apply Hin. }
  destruct Hy as [Hy1 Hy2].
  { intros v Hv. apply in_map_iff in Hv as (c & <- & Hv). now apply Hin. }
  assert (Hx3 : sum (map fst (tiles r)) <= (width - 1) * area r)
    by (rewrite Ha; exact Hx2).
  assert (Hy3 : sum (map snd (tiles r)) <= (height - 1) * area r)
    by (rewrite Ha; exact Hy2).
  split; split.
  - apply Z.div_pos; lia.
  - apply Z.div_lt_upper_bound; nia.
  - apply Z.div_pos; lia.
  - apply Z.div_lt_upper_bound; nia.
Qed.

Lemma centroid_inside_map_witness :
  0 <= fst (0, 0) < 3 /\ 0 <= snd (0, 0) < 1.
Proof.
  apply (centroid_inside_map 3 1 [(0, 0); (2, 0)] meadow [[0; 0; 1]]
           meadow_records 0
           {| region_id := 0; seed := (0, 0); area := 2;
              tiles := [(0, 0); (1, 0)];
              biome_counts := [("grassland"%string, 2)];
              dominant_biome := Some "grassland"%string;
              centroid := (0, 0) |});
    [reflexivity|reflexivity|discriminate].
Defined.

Lemma modify_entries (P : Z -> Region -> Prop) k f d :
  Forall (fun kr => P (fst kr) (snd kr)) d ->
  P k (f match lookup k d with Some r => r | None => default_region end) ->
  Forall (fun kr => P (fst kr) (snd kr)) (modify k f d).
Proof.
  induction d as [|[k' v] t IH]; simpl; intros Hd Hf.
  - now repeat constructor.
  - inversion Hd as [|? ? Hv Ht]; subst.
    destruct (Z.eqb_spec k' k) as [->|Hne]; constructor; auto.
Qed.

Lemma lookup_In k r d : lookup k d = Some r -> In (k, r) d.
Proof.
  induction d as [|[k' v] t IH]; simpl; [discriminate|].
  destruct (Z.eqb_spec k' k) as [->|Hne].
  - intros [= ->]. now left.
  - intros Hl. right. auto.
Qed.

Lemma In_lookup k r d : In (k, r) d -> exists r', lookup k d = Some r'.
Proof.
  induction d as [|[k' v] t IH]; simpl; [contradiction|].
  intros [Heq|Hin].
  - injection Heq as -> ->. rewrite Z.eqb_refl. eauto.
  - destruct (k' =? k); eauto.
Qed.

(** The record of key [k] carries the id [k] and the seed of index [k]. *)
Definition tagged (sds : list point) (k : Z) (r : Region) : Prop :=
  0 <= k /\ region_id r = k /\ nth_error sds (Z.to_nat k) = Some (seed r).

(** The records up to now: one per seed, under the seed's index. *)
Definition keyed (sds : list point) (rd : region_table) : Prop :=
  Forall (fun kr => tagged sds (fst kr) (snd kr)) rd
  /\ forall k, 0 <= k < Z.of_nat (List.length sds) -> lookup k rd <> None.

Lemma init_regions_keyed sds :
  forall pre d,
    keyed pre d ->
    keyed (pre ++ sds) (init_regions (Z.of_nat (List.length pre)) sds d).
Proof.
  induction sds as [|[x y] t IH]; intros pre d Hk; simpl.
  - now rewrite app_nil_r.
  - change (pre ++ (x, y) :: t) with (pre ++ [(x, y)] ++ t).
    rewrite app_assoc.
    replace (Z.of_nat (List.length pre) + 1)
      with (Z.of_nat (List.length (pre ++ [(x, y)])))
      by (rewrite length_app; simpl; lia).
    apply IH. destruct Hk as [Htag Hkeys]. split.
    + apply modify_entries.
      * eapply Forall_impl; [|exact Htag]. intros [k r] (Hk0 & Hid & Hs).
        simpl in *. repeat split; try assumption.
        rewrite nth_error_app1; [assumption|].
        apply nth_error_Some. congruence.
      * repeat split; [lia|]. simpl. rewrite Nat2Z.id.
        rewrite nth_error_app2 by lia. now rewrite Nat.sub_diag.
    + intros k Hk'. rewrite lookup_modify.
      destruct (Z.eqb_spec k (Z.of_nat (List.length pre))); [discriminate|].
      apply Hkeys. rewrite length_app in Hk'. simpl in Hk'. lia.
Qed.

Lemma assign_cell_keyed sds biome_map st c st' :
  sds <> [] -> keyed sds (snd st) ->
  assign_cell sds biome_map st c = Ok st' -> keyed sds (snd st').
Proof.
  intros Hne [Htag Hkeys]. destruct st as [rm rd], c as [x y].
  unfold assign_cell.
  destruct (setitem2 rm y x _); cbn [bind]; [|discriminate].
  destruct (getitem2 biome_map y x); cbn [bind]; [|discriminate].
  intros [= <-]. simpl in *.
  destruct (nearest_seed_correct x y sds Hne) as (s & Hi & Hs & _).
  assert (Hrange : 0 <= nearest_seed x y sds < Z.of_nat (List.length sds)).
  { split; [assumption|].
    assert (Z.to_nat (nearest_seed x y sds) < List.length sds)%nat; [|lia].
    apply nth_error_Some. congruence. }
  split.
  - apply modify_entries; [assumption|].
    destruct (lookup (nearest_seed x y sds) rd) as [r|] eqn:El;
      [|exfalso; exact (Hkeys _ Hrange El)].
    apply lookup_In in El. rewrite Forall_forall in Htag.
    exact (Htag _ El).
  - intros k Hk. rewrite lookup_modify.
    destruct (k =? nearest_seed x y sds); [discriminate|auto].
Qed.

Lemma foldM_keeps {A S} (body : S -> A -> result S) (P : S -> Prop) l :
  (forall s a s', P s -> body s a = Ok s' -> P s') ->
  forall s s', P s -> foldM body l s = Ok s' -> P s'.
Proof.
  intros Hstep. induction l as [|a t IH]; intros s s' HP; simpl.
  - now intros [= <-].
  - destruct (body s a) as [s1|] eqn:E; cbn [bind]; [|discriminate].
    apply IH. eapply Hstep; eassumption.
Qed.

(** X14: With at least one seed, a successful [_assign_tiles_to_regions] gives
    every cell of the map a region id that is the index of a seed, and
    returns exactly one record per seed index: it carries that index as its
    id and that seed as its seed, also when no cell was assigned to it. *)
Theorem one_record_per_seed width height sds biome_map region_map region_data :
  sds <> [] ->
  _assign_tiles_to_regions width height sds biome_map
  = Ok (region_map, region_data) ->
  (forall x y, 0 <= x < width -> 0 <= y < height ->
     exists i, getitem2 region_map y x = Ok i
               /\ 0 <= i < Z.of_nat (List.length sds))
  /\ (forall k, 0 <= k < Z.of_nat (List.length sds) ->
        exists r, lookup k region_data = Some r /\ region_id r = k
                  /\ nth_error sds (Z.to_nat k) = Some (seed r))
  /\ (forall k r, lookup k region_data = Some r ->
        0 <= k < Z.of_nat (List.length sds)).
Proof.
  intros Hne Hassign.
  destruct (assign_tiles_spec _ _ _ _ _ _ Hassign) as (Hcell & _ & _).
  unfold _assign_tiles_to_regions in Hassign.
  destruct (foldM _ _ _) as [[rm0 rd0]|] eqn:Efold; cbn [bind] in Hassign;
    [|discriminate].
  destruct (mapM _ rd0) as [rd1|] eqn:Emap; cbn [bind] in Hassign;
    [|discriminate].
  injection Hassign as <- <-.
  assert (Hinit : keyed sds (init_regions 0 sds [])).
  { apply (init_regions_keyed sds [] []).
    split; [constructor|]. simpl. intros k Hk. lia. }
  assert (Hkeyed : keyed sds rd0).
  { exact (foldM_keeps (assign_cell sds biome_map)
             (fun st => keyed sds (snd st)) (cells width height)
             (fun s a s' => assign_cell_keyed sds biome_map s a s' Hne)
             (repeat (repeat (-1) (Z.to_nat width)) (Z.to_nat height),
              init_regions 0 sds [])
             (rm0, rd0) Hinit Efold). }
  destruct Hkeyed as [Htag Hkeys]. rewrite Forall_forall in Htag.
  split; [|split].
  - intros x y Hx Hy. exists (nearest_seed x y sds).
    split; [now apply Hcell|].
    destruct (nearest_seed_correct x y sds Hne) as (s & Hi & Hs & _).
    split; [assumption|].
    assert (Z.to_nat (nearest_seed x y sds) < List.length sds)%nat; [|lia].
    apply nth_error_Some. congruence.
  - intros k Hk. pose proof (lookup_mapM finalize rd0 rd1 Emap k) as Hl.
    destruct (lookup k rd0) as [r0|] eqn:E0; [|exfalso; exact (Hkeys k Hk E0)].
    destruct Hl as (r' & Hfin & Hr'). exists r'. split; [assumption|].
    destruct (finalize_fields _ _ Hfin) as (-> & -> & _).
    destruct (Htag _ (lookup_In _ _ _ E0)) as (_ & Hid & Hs). auto.
  - intros k r Hr. pose proof (lookup_mapM finalize rd0 rd1 Emap k) as Hl.
    destruct (lookup k rd0) as [r0|] eqn:E0; [|congruence].
    destruct (Htag _ (lookup_In _ _ _ E0)) as (Hk0 & _ & Hs). simpl in *.
    split; [assumption|].
    assert (Z.to_nat k < List.length sds)%nat; [|lia].
    apply nth_error_Some. congruence.
Qed.

Lemma one_record_per_seed_witness :
  (forall x y, 0 <= x < 3 -> 0 <= y < 1 ->
     exists i, getitem2 [[0; 0; 1]] y x = Ok i
               /\ 0 <= i < Z.of_nat (List.length [(0, 0); (2, 0)]))
  /\ (forall k, 0 <= k < Z.of_nat (List.length [(0, 0); (2, 0)]) ->
        exists r, lookup k meadow_records = Some r /\ region_id r = k
                  /\ nth_error [(0, 0); (2, 0)] (Z.to_nat k) = Some (seed r))
  /\ (forall k r, lookup k meadow_records = Some r ->
        0 <= k < Z.of_nat (List.length [(0, 0); (2, 0)])).
Proof.
  apply (one_record_per_seed 3 1 [(0, 0); (2, 0)] meadow);
    [discriminate|reflexivity].
Defined.

(** Without seeds the nearest region stays at its initial value -1. *)
Definition unseeded (k : Z) (r : Region) : Prop :=
  k = -1 /\ region_id r = -1 /\ seed r = (0, 0).

Lemma assign_cell_unseeded biome_map st c st' :
  Forall (fun kr => unseeded (fst kr) (snd kr)) (snd st) ->
  assign_cell [] biome_map st c = Ok st' ->
  Forall (fun kr => unseeded (fst kr) (snd kr)) (snd st').
Proof.
  intros Hall. destruct st as [rm rd], c as [x y]. unfold assign_cell.
  destruct (setitem2 rm y x _); cbn [bind]; [|discriminate].
  destruct (getitem2 biome_map y x); cbn [bind]; [|discriminate].
  intros [= <-]. simpl in *. apply modify_entries; [assumption|].
  change (nearest_seed x y []) with (-1).
  destruct (lookup (-1) rd) as [r|] eqn:El; [|repeat split].
  apply lookup_In in El. rewrite Forall_forall in Hall.
  destruct (Hall _ El) as (_ & Hid & Hs). repeat split; assumption.
Qed.

(** X15: With an empty list of seeds, [_assign_tiles_to_regions] on a map that
    [biome_map] covers returns a region map filled with -1 and no record
    under any other key; the record of key -1 has the id -1, the seed
    (0, 0) and the whole map as its area, and it exists as soon as the map
    has a cell. *)
Theorem no_seeds_one_region width height biome_map :
  covers biome_map width height = true ->
  exists region_map region_data,
    _assign_tiles_to_regions width height [] biome_map
    = Ok (region_map, region_data)
    /\ (forall x y, 0 <= x < width -> 0 <= y < height ->
          getitem2 region_map y x = Ok (-1))
    /\ (forall k r, lookup k region_data = Some r ->
          k = -1 /\ region_id r = -1 /\ seed r = (0, 0)
          /\ area r = Z.max 0 width * Z.max 0 height)
    /\ (0 < width -> 0 < height -> lookup (-1) region_data <> None).
Proof.
  intros Hcov.
  destruct (assign_tiles_total width height [] biome_map Hcov)
    as (rm & rd & Hassign).
  exists rm, rd. split; [exact Hassign|].
  destruct (assign_tiles_spec _ _ _ _ _ _ Hassign) as (Hcell & Hrec & Hnone).
  assert (Hall : cells_with_id rm (-1) (cells width height)
                 = cells width height).
  { unfold cells_with_id. apply forallb_filter_id. apply forallb_forall.
    intros [x y] Hin. simpl. apply In_cells in Hin as [Hx Hy].
    now rewrite (Hcell x y Hx Hy). }
  split; [exact Hcell|]. split.
  - intros k r Hr.
    unfold _assign_tiles_to_regions in Hassign.
    destruct (foldM _ _ _) as [[rm0 rd0]|] eqn:Efold; cbn [bind] in Hassign;
      [|discriminate].
    destruct (mapM _ rd0) as [rd1|] eqn:Emap; cbn [bind] in Hassign;
      [|discriminate].
    injection Hassign as <- <-.
    assert (Hun : Forall (fun kr => unseeded (fst kr) (snd kr)) rd0).
    { exact (foldM_keeps (assign_cell [] biome_map)
               (fun st => Forall (fun kr => unseeded (fst kr) (snd kr)) (snd st))
               (cells width height)
               (assign_cell_unseeded biome_map)
               (repeat (repeat (-1) (Z.to_nat width)) (Z.to_nat height), [])
               (rm0, rd0) (Forall_nil _) Efold). }
    pose proof (lookup_mapM finalize rd0 rd1 Emap k) as Hl.
    destruct (lookup k rd0) as [r0|] eqn:E0; [|congruence].
    destruct Hl as (r' & Hfin & Hr'). rewrite Hr in Hr'. injection Hr' as <-.
    rewrite Forall_forall in Hun.
    destruct (Hun _ (lookup_In _ _ _ E0)) as (Hk & Hid & Hs). simpl in *.
    destruct (finalize_fields _ _ Hfin) as (-> & -> & _).
    subst k. repeat split; try assumption.
    destruct (Hrec (-1) r Hr) as (Ht & Ha & _).
    rewrite Ha, Ht, Hall. apply cells_length.
  - intros Hw Hh Hl. apply Hnone in Hl. rewrite Hall in Hl.
    assert (Hin : In (0, 0) (cells width height)) by (apply In_cells; lia).
    rewrite Hl in Hin. contradiction.
Qed.

Lemma no_seeds_one_region_witness :
  exists region_map region_data,
    _assign_tiles_to_regions 3 1 [] meadow = Ok (region_map, region_data)
    /\ (forall x y, 0 <= x < 3 -> 0 <= y < 1 ->
          getitem2 region_map y x = Ok (-1))
    /\ (forall k r, lookup k region_data = Some r ->
          k = -1 /\ region_id r = -1 /\ seed r = (0, 0)
          /\ area r = Z.max 0 3 * Z.max 0 1)
    /\ (0 < 3 -> 0 < 1 -> lookup (-1) region_data <> None).
Proof.
  apply (no_seeds_one_region 3 1 meadow). reflexivity.
Defined.

(** X16: When the seeds are pairwise distinct, the cell of every seed that lies
    on the map is assigned to the region of that seed. *)
Theorem seed_in_own_region width height sds biome_map region_map region_data
    i x y :
  NoDup sds ->
  _assign_tiles_to_regions width height sds biome_map
  = Ok (region_map, region_data) ->
  nth_error sds i = Some (x, y) -> 0 <= x < width -> 0 <= y < height ->
  getitem2 region_map y x = Ok (Z.of_nat i).
Proof.
  intros Hnd Hassign Hi Hx Hy.
  destruct (assign_tiles_spec _ _ _ _ _ _ Hassign) as (Hcell & _ & _).
  rewrite (Hcell x y Hx Hy). f_equal.
  assert (Hne : sds <> []) by (intros ->; destruct i; discriminate).
  destruct (nearest_seed_correct x y sds Hne) as (s & Hr & Hs & Hmin & _).
  specialize (Hmin i (x, y) Hi).
  unfold dist_to, _manhattan_distance in Hmin. simpl in Hmin.
  assert (Heq : s = (x, y)) by (destruct s as [sx sy]; simpl in Hmin; f_equal; lia).
  subst s.
  assert (Hidx : Z.to_nat (nearest_seed x y sds) = i).
  { apply (proj1 (NoDup_nth_error sds) Hnd).
    - apply nth_error_Some. unfold point in *. congruence.
    - unfold point in *. congruence. }
  lia.
Qed.

Lemma seed_in_own_region_witness :
  getitem2 [[0; 0; 1]] 0 2 = Ok (Z.of_nat 1).
Proof.
  apply (seed_in_own_region 3 1 [(0, 0); (2, 0)] meadow [[0; 0; 1]]
           meadow_records 1 2 0);
    [|reflexivity|reflexivity|lia|lia].
  repeat constructor; simpl; intuition discriminate.
Defined.

End AssignFacts.

(** ** Edge cases of the region generator *)
Module RegionEdgeFacts.
Import RegionGenerator PyFacts SeedFacts SeedPoolFacts.

Section Edges.
Context {G : Type} `{Random.Source G}.

(** X17: [generate_regions] refuses a zero number of regions with
    [ZeroDivisionError].  A negative quotient of the map's area by the
    number of regions, as long as it neither overflows nor underflows, has
    NaN for square root, which [int] refuses with [ValueError].  In both
    cases nothing has been drawn from the generator. *)
Theorem generate_regions_bad_count width height num_regions biome_map
    min_region_size (g : G) :
  (num_regions = 0 ->
     generate_regions width height num_regions biome_map min_region_size g
     = (Raise ZeroDivisionError, g))
  /\ (width * height * num_regions < 0 ->
      Z.abs (width * height) < 2 ^ 1023 -> Z.abs num_regions < 2 ^ 1073 ->
        exists msg,
          generate_regions width height num_regions biome_map min_region_size g
          = (Raise (ValueError msg), g)).
Proof.
  split.
  - intros ->. unfold generate_regions, _generate_seed_points, seed_search,
      min_distance_of. reflexivity.
  - intros Hneg Ha Hn.
    destruct (MinDistanceFacts.min_distance_of_negative width height
                num_regions Hneg Ha Hn) as (msg & Hd).
    exists msg.
    unfold generate_regions, _generate_seed_points, seed_search.
    rewrite Hd. reflexivity.
Qed.

Lemma attempt_empty_pool d st (g : G) :
  seeds st = [] /\ valid_positions st = [] ->
  seeds (fst (attempt d st g)) = []
  /\ valid_positions (fst (attempt d st g)) = [].
Proof.
  intros [Hs Hv]. unfold attempt. rewrite Hv, Hs.
  destruct (Random.uniform _ _ g) as [r g1]. simpl. auto.
Qed.

(** X18: On a map without rows, of non-negative area below 2^1023,
    [generate_regions] raises [IndexError]: no seed can be placed, the
    region map is the empty list, and the smoothing step reads its first
    row. *)
Theorem generate_regions_no_rows width height num_regions biome_map
    min_region_size (g : G) :
  height <= 0 -> 0 <= width * height < 2 ^ 1023 -> 1 <= num_regions ->
  exists g',
    _generate_seed_points width height num_regions biome_map min_region_size g
    = (Ok [], g')
    /\ _assign_tiles_to_regions width height [] biome_map = Ok ([], [])
    /\ generate_regions width height num_regions biome_map min_region_size g
       = (Raise IndexError, g').
Proof.
  intros Hh Harea Hn.
  assert (Hcells : cells width height = []).
  { unfold cells, range. replace (Z.to_nat height) with 0%nat by lia.
    reflexivity. }
  assert (Hassign : _assign_tiles_to_regions width height [] biome_map
                    = Ok ([], [])).
  { unfold _assign_tiles_to_regions. rewrite Hcells.
    replace (Z.to_nat height) with 0%nat by lia. reflexivity. }
  assert (Hseeds : exists g',
            _generate_seed_points width height num_regions biome_map
              min_region_size g = (Ok [], g')).
  { destruct (MinDistanceFacts.min_distance_of_ok width height num_regions
                Harea Hn) as (d & Hd & _).
    unfold _generate_seed_points, seed_search. rewrite Hd.
    rewrite Hcells. cbn [bind mapM].
    change (sort_desc []) with (@nil position).
    destruct (while_loop_trace d num_regions (num_regions * 100)
                (Z.to_nat (num_regions * 100))
                {| seeds := []; valid_positions := []; attempts := 0 |} g)
      as (k & _ & Heq & _).
    rewrite Heq.
    pose proof (after_attempts_keeps
                  (fun st => seeds st = [] /\ valid_positions st = [])
                  d (attempt_empty_pool _) k
                  {| seeds := []; valid_positions := []; attempts := 0 |} g
                  (conj eq_refl eq_refl)) as [Hs _].
    destruct (after_attempts k _ _ g) as [st g'] eqn:Ek.
    simpl in Hs. exists g'. cbn [bind]. now rewrite Hs. }
  destruct Hseeds as (g' & Hseeds). exists g'.
  split; [exact Hseeds|]. split; [exact Hassign|].
  unfold generate_regions. rewrite Hseeds. cbn [bind].
  rewrite Hassign. reflexivity.
Qed.
End Edges.

#[local] Existing Instance Random.replay.

Lemma generate_regions_bad_count_witness :
  generate_regions 3 1 0 meadow 20 [0.5%float]
  = (Raise ZeroDivisionError, [0.5%float])
  /\ exists msg,
       generate_regions 3 1 (-2) meadow 20 [0.5%float]
       = (Raise (ValueError msg), [0.5%float]).
Proof.
  split.
  - apply (generate_regions_bad_count 3 1 0 meadow 20 [0.5%float]).
    reflexivity.
  - apply (generate_regions_bad_count 3 1 (-2) meadow 20 [0.5%float]);
      [lia|reflexivity|reflexivity].
Defined.

Lemma generate_regions_no_rows_witness :
  exists g',
    _generate_seed_points 3 0 1 [] 20 [0.5%float] = (Ok [], g')
    /\ _assign_tiles_to_regions 3 0 [] [] = Ok ([], [])
    /\ generate_regions 3 0 1 [] 20 [0.5%float] = (Raise IndexError, g').
Proof.
  apply (generate_regions_no_rows 3 0 1 [] 20 [0.5%float]);
    [lia|split; [lia|reflexivity]|lia].
Defined.

End RegionEdgeFacts.

(** ** The tile enumeration and the world map generator *)
Module WorldFacts.
Import PyFacts NoiseFacts GridFacts LoopFacts SeedFacts RulePassFacts
       MapperFacts.

Lemma tile_labels_values : map TileTypeEnum.value TileTypeEnum.members = tile_labels.
Proof. reflexivity. Qed.

Lemma of_value_label s :
  In s tile_labels ->
  exists m c, TileTypeEnum.of_value s = Ok m /\ TileTypeEnum.value m = s
              /\ TileTypeEnum.get_color m = Ok c.
Proof.
  intros Hs. simpl in Hs.
  destruct Hs as [<-|[<-|[<-|[<-|[<-|[<-|[]]]]]]];
    eexists _, _; repeat split; reflexivity.
Qed.

(** X19: [TileType(m.value)] is [m]; a string accepted by the constructor is the
    value of the member returned; every other string raises [ValueError];
    [get_color] has a colour for every member. *)
Theorem tile_type_round_trip :
  (forall m, TileTypeEnum.of_value (TileTypeEnum.value m) = Ok m)
  /\ (forall s m, TileTypeEnum.of_value s = Ok m -> TileTypeEnum.value m = s)
  /\ (forall s, ~ In s tile_labels ->
        exists msg, TileTypeEnum.of_value s = Raise (ValueError msg))
  /\ (forall m, exists c, TileTypeEnum.get_color m = Ok c).
Proof.
  split; [intros []; reflexivity|]. split; [|split].
  - intros s m. unfold TileTypeEnum.of_value.
    destruct (find _ TileTypeEnum.members) as [m'|] eqn:E; [|discriminate].
    intros [= <-]. apply find_some in E as [_ E]. now apply String.eqb_eq.
  - intros s Hs. unfold TileTypeEnum.of_value.
    destruct (find _ TileTypeEnum.members) as [m'|] eqn:E; [|eauto].
    exfalso. apply find_some in E as [Hin E]. apply String.eqb_eq in E.
    apply Hs. rewrite <- E, <- tile_labels_values. now apply in_map.
  - intros []; eexists; reflexivity.
Qed.

Lemma tile_type_round_trip_witness :
  TileTypeEnum.value TileTypeEnum.SAND = "sand"%string
  /\ exists msg, TileTypeEnum.of_value "dirt" = Raise (ValueError msg).
Proof.
  destruct tile_type_round_trip as (_ & H2 & H3 & _). split.
  - apply (H2 "sand"%string TileTypeEnum.SAND). reflexivity.
  - apply H3. simpl. intuition discriminate.
Defined.

Lemma rewrites_label c v :
  In c tile_labels -> v = c \/ rewrites c v -> In v tile_labels.
Proof.
  intros Hc [->|Hrw]; [assumption|]. unfold rewrites in Hrw. simpl.
  intuition (subst; auto).
Qed.

Lemma cells_Forall {A} (P : A -> Prop) h w (g : list (list A)) :
  shaped h w g ->
  (forall x y, 0 <= x < Z.of_nat w -> 0 <= y < Z.of_nat h ->
     exists v, getitem2 g y x = Ok v /\ P v) ->
  Forall (Forall P) g.
Proof.
  intros [Hh Hw] Hcells. rewrite Forall_forall in Hw.
  apply Forall_forall. intros row Hrow. apply Forall_forall. intros v Hv.
  pose proof (Hw row Hrow) as Hlen.
  apply In_nth_error in Hrow as (j & Hj). apply In_nth_error in Hv as (i & Hi).
  assert (Hjl : (j < h)%nat) by (rewrite <- Hh; apply nth_error_Some; congruence).
  assert (Hil : (i < w)%nat) by (rewrite <- Hlen; apply nth_error_Some; congruence).
  destruct (Hcells (Z.of_nat i) (Z.of_nat j)) as (v' & Hv' & HP); [lia|lia|].
  unfold getitem2 in Hv'. rewrite getitem_nonneg, Nat2Z.id, Hj in Hv' by lia.
  cbn [bind] in Hv'. rewrite getitem_nonneg, Nat2Z.id, Hi in Hv' by lia.
  now injection Hv' as <-.
Qed.

Lemma Forall_cells {A} (P : A -> Prop) h w (g : list (list A)) x y v :
  shaped h w g -> Forall (Forall P) g ->
  0 <= x < Z.of_nat w -> 0 <= y < Z.of_nat h ->
  getitem2 g y x = Ok v -> P v.
Proof.
  intros Hs HP Hx Hy Hv.
  destruct (getitem2_shaped h w g x y Hs Hx Hy)
    as (row & v' & _ & Hrow & _ & Hin & Hv').
  rewrite Hv in Hv'. injection Hv' as ->.
  rewrite Forall_forall in HP. specialize (HP row Hrow).
  rewrite Forall_forall in HP. now apply HP.
Qed.

Section World.
Variables np_sin np_cos : float -> float.

Lemma world_noise_map s :
  WorldMapGenerator._generate_noise_map np_sin np_cos s
  = BiomeGenerator._generate_noise_map np_sin np_cos
      {| BiomeGenerator.width := WorldMapGenerator.width s;
         BiomeGenerator.height := WorldMapGenerator.height s;
         BiomeGenerator.seed := WorldMapGenerator.seed s |} 4 4.
Proof. reflexivity. Qed.

(** X20: For positive dimensions [WorldMapGenerator.generate] never raises and
    returns [height] rows of [width] cells, each one of the six tile
    types, on which the pixel loop of [render_to_image] succeeds. *)
Theorem world_generate_renders s :
  0 < WorldMapGenerator.width s -> 0 < WorldMapGenerator.height s ->
  exists log terrain_map pixels,
    WorldMapGenerator.generate np_sin np_cos s = (log, Ok terrain_map)
    /\ shaped (Z.to_nat (WorldMapGenerator.height s))
              (Z.to_nat (WorldMapGenerator.width s)) terrain_map
    /\ Forall (Forall (fun v => In v tile_labels)) terrain_map
    /\ WorldMapGenerator.render_to_image s terrain_map = Ok pixels.
Proof.
  intros Hw Hh. unfold WorldMapGenerator.generate. rewrite world_noise_map.
  destruct (noise_map_ok np_sin np_cos
              {| BiomeGenerator.width := WorldMapGenerator.width s;
                 BiomeGenerator.height := WorldMapGenerator.height s;
                 BiomeGenerator.seed := WorldMapGenerator.seed s |} 4 4 Hw Hh)
    as (l1 & noise & -> & Hn).
  cbn [Np.tbind BiomeGenerator.width BiomeGenerator.height] in *.
  set (h := Z.to_nat (WorldMapGenerator.height s)) in *.
  set (w := Z.to_nat (WorldMapGenerator.width s)) in *.
  pose proof (mapM_cells
    (fun v => TileTypeEnum.value (WorldMapGenerator._noise_to_terrain v))
    h w noise Hn) as Hmap.
  unfold h, w in Hmap. rewrite !Z2Nat.id in Hmap by lia. fold h w in Hmap.
  unfold Np.lift at 1. rewrite Hmap. cbn [Np.tbind].
  set (t0 := map (map (fun v =>
          TileTypeEnum.value (WorldMapGenerator._noise_to_terrain v))) noise).
  assert (Hs0 : shaped h w t0) by now apply shaped_map2d_any.
  assert (Hl0 : Forall (Forall (fun v => In v tile_labels)) t0).
  { unfold t0. apply Forall_map. apply Forall_forall. intros row _.
    apply Forall_map. apply Forall_forall. intros v _.
    rewrite <- tile_labels_values. apply in_map.
    destruct (WorldMapGenerator._noise_to_terrain v); simpl; tauto. }
  destruct (apply_rules_pass h w t0 Hs0 ltac:(lia)) as (tm & Htm & Hs & Hcells).
  assert (Hlab : Forall (Forall (fun v => In v tile_labels)) tm).
  { apply (cells_Forall _ h w tm Hs). intros x y Hx Hy.
    destruct (Hcells x y Hx Hy) as (c & v & Hc & Hv & Hdone & _).
    exists v. split; [assumption|].
    apply (rewrites_label c).
    - exact (Forall_cells _ h w t0 x y c Hs0 Hl0 Hx Hy Hc).
    - apply Hdone. apply In_cells. lia. }
  destruct (mapM_ok
    (fun y => mapM (fun x =>
        v <- getitem2 tm y x ;;
        terrain_type <- TileTypeEnum.of_value v ;;
        TileTypeEnum.get_color terrain_type)
      (range (WorldMapGenerator.width s)))
    (range (WorldMapGenerator.height s))) as (px & Hpx & _).
  { intros y Hy. apply In_range in Hy.
    destruct (mapM_ok (fun x =>
        v <- getitem2 tm y x ;;
        terrain_type <- TileTypeEnum.of_value v ;;
        TileTypeEnum.get_color terrain_type)
      (range (WorldMapGenerator.width s))) as (row & Hrow & _); [|eauto].
    intros x Hx. apply In_range in Hx.
    destruct (getitem2_shaped h w tm x y Hs) as (_ & v & _ & _ & _ & _ & Hv);
      [unfold w; lia|unfold h; lia|].
    rewrite Hv. cbn [bind].
    destruct (of_value_label v) as (m & c & -> & _ & Hc).
    { apply (Forall_cells _ h w tm x y v Hs Hlab); [unfold w|unfold h|]; auto; lia. }
    cbn [bind]. eauto. }
  exists l1, tm, px. rewrite Htm. cbn. rewrite app_nil_r.
  repeat split; try assumption.
  - exact (proj1 Hs).
  - exact (proj2 Hs).
Qed.
End World.

Lemma world_generate_renders_witness :
  exists log terrain_map pixels,
    WorldMapGenerator.generate (fun v => v) (fun _ => 1%float)
      {| WorldMapGenerator.width := 3; WorldMapGenerator.height := 2;
         WorldMapGenerator.seed := 7 |} = (log, Ok terrain_map)
    /\ shaped (Z.to_nat 2) (Z.to_nat 3) terrain_map
    /\ Forall (Forall (fun v => In v tile_labels)) terrain_map
    /\ WorldMapGenerator.render_to_image
         {| WorldMapGenerator.width := 3; WorldMapGenerator.height := 2;
            WorldMapGenerator.seed := 7 |} terrain_map = Ok pixels.
Proof.
  apply (world_generate_renders (fun v => v) (fun _ => 1%float)
           {| WorldMapGenerator.width := 3; WorldMapGenerator.height := 2;
              WorldMapGenerator.seed := 7 |}); simpl; lia.
Defined.

Lemma mapM_In_ok {A B} (f : A -> result B) l bs a :
  mapM f l = Ok bs -> In a l -> exists b, f a = Ok b.
Proof.
  intros H Hin. apply In_nth_error in Hin as (i & Hi).
  destruct (mapM_nth f l bs H i a Hi) as (b & Hb & _). eauto.
Qed.

Lemma of_value_ok_label s m : TileTypeEnum.of_value s = Ok m -> In s tile_labels.
Proof.
  unfold TileTypeEnum.of_value.
  destruct (find _ TileTypeEnum.members) as [m'|] eqn:E; [|discriminate].
  intros _. apply find_some in E as [Hin E]. apply String.eqb_eq in E.
  rewrite <- E, <- tile_labels_values. now apply in_map.
Qed.



End WorldFacts.

(** ** The terrain renderer *)
Module RenderFacts.
Import PyFacts NoiseFacts GridFacts LoopFacts RulePassFacts MapperFacts.

Lemma index_in_range n i : 0 <= i < n -> Image.index n i = Ok i.
Proof.
  intros Hi. unfold Image.index.
  destruct (i <? 0) eqn:E; [lia|].
  destruct (0 <=? i) eqn:E1; [|lia]. destruct (i <? n) eqn:E2; [|lia].
  reflexivity.
Qed.

Lemma point_eqb_spec (p q : Z * Z) :
  Image.xy_eqb p q = true <-> p = q.
Proof.
  destruct p as [a b], q as [c d]. unfold Image.xy_eqb. simpl.
  rewrite andb_true_iff, !Z.eqb_eq. split; [intros []; congruence|].
  intros [= -> ->]. auto.
Qed.

(** A write inside the image changes the pixel written and no other. *)
Lemma putpixel_in_range im x y c :
  0 <= x < fst (Image.size im) -> 0 <= y < snd (Image.size im) ->
  exists im', Image.putpixel im (x, y) c = Ok im'
    /\ Image.size im' = Image.size im
    /\ forall q, (q = (x, y) -> Image.pixel_at im' q = c)
              /\ (q <> (x, y) -> Image.pixel_at im' q = Image.pixel_at im q).
Proof.
  intros Hx Hy. unfold Image.putpixel. cbn [fst snd].
  rewrite (index_in_range _ x Hx). cbn [bind].
  rewrite (index_in_range _ y Hy). cbn [bind].
  eexists. split; [reflexivity|]. split; [reflexivity|].
  intros q. unfold Image.pixel_at. cbn [Image.data find fst snd].
  destruct (Image.xy_eqb (x, y) q) eqn:E.
  - apply point_eqb_spec in E. split; [reflexivity|]. intros Hq. congruence.
  - split; [|reflexivity]. intros ->.
    rewrite (proj2 (point_eqb_spec _ _) eq_refl) in E. discriminate.
Qed.

Section Paint.
Context {A : Type} (sz : Z * Z).

(** [body] paints the region [R] with the colours [V] and leaves every
    other pixel alone. *)
Definition paints (body : Image.t -> result Image.t)
    (R : Z * Z -> Prop) (V : Z * Z -> color) : Prop :=
  forall im, Image.size im = sz ->
    exists im', body im = Ok im' /\ Image.size im' = sz
      /\ forall q, (R q -> Image.pixel_at im' q = V q)
                /\ (~ R q -> Image.pixel_at im' q = Image.pixel_at im q).

(** A loop whose passes paint disjoint regions paints their union. *)
Lemma foldM_paints (f : Image.t -> A -> result Image.t)
    (R : A -> Z * Z -> Prop) (V : A -> Z * Z -> color)
    (R' : Z * Z -> Prop) (V' : Z * Z -> color) (l : list A) :
  NoDup l ->
  (forall a, In a l -> paints (fun im => f im a) (R a) (V a)) ->
  (forall a b q, In a l -> In b l -> a <> b -> R a q -> ~ R b q) ->
  (forall q, R' q -> exists a, In a l /\ R a q /\ V a q = V' q) ->
  (forall q a, In a l -> R a q -> R' q) ->
  paints (fun im => foldM f l im) R' V'.
Proof.
  intros Hnd Hp Hdis Hcov Hsub.
  assert (Hall : forall im, Image.size im = sz ->
    exists im', foldM f l im = Ok im' /\ Image.size im' = sz
      /\ forall q, (forall a, In a l -> R a q -> Image.pixel_at im' q = V a q)
                /\ ((forall a, In a l -> ~ R a q) ->
                    Image.pixel_at im' q = Image.pixel_at im q)).
  { clear Hcov Hsub R' V'.
    induction l as [|a t IH]; intros im Him; simpl.
    - exists im. split; [reflexivity|]. split; [assumption|].
      intros q. split; [intros a []|reflexivity].
    - inversion Hnd as [|? ? Hnotin Hnd']; subst.
      destruct (Hp a (or_introl eq_refl) im Him) as (im1 & -> & Him1 & H1).
      cbn [bind].
      destruct (IH Hnd') with (im := im1) as (im' & Hf & Him' & H');
        [intros; apply Hp; now right
        |intros a0 b q Ha0 Hb; apply Hdis; now right
        |assumption|].
      exists im'. split; [assumption|]. split; [assumption|].
      intros q. split.
      + intros b [<-|Hb] HR.
        * assert (Hrest : forall c, In c t -> ~ R c q).
          { intros c Hc. apply (Hdis a c q); auto; [now left|now right|].
            intros ->. contradiction. }
          rewrite (proj2 (H' q) Hrest). now apply (proj1 (H1 q)).
        * now apply (proj1 (H' q)).
      + intros Hno.
        assert (Hrest : forall c, In c t -> ~ R c q)
          by (intros c Hc; apply Hno; now right).
        rewrite (proj2 (H' q) Hrest). apply (proj2 (H1 q)).
        apply Hno. now left. }
  intros im Him. destruct (Hall im Him) as (im' & Hf & Him' & H').
  exists im'. split; [assumption|]. split; [assumption|].
  intros q. split.
  - intros HR. destruct (Hcov q HR) as (a & Ha & HRa & <-).
    now apply (proj1 (H' q)).
  - intros HR. apply (proj2 (H' q)). intros a Ha HRa. apply HR.
    now apply (Hsub q a).
Qed.
End Paint.

(** The tile that holds a pixel coordinate. *)
Lemma block_index ts p x :
  0 < ts -> (x * ts <= p < x * ts + ts <-> p / ts = x).
Proof.
  intros Hts. split.
  - intros Hp. symmetry. apply (Z.div_unique p ts x (p - x * ts)); lia.
  - intros <-. pose proof (Z.div_mod p ts ltac:(lia)).
    pose proof (Z.mod_pos_bound p ts Hts). lia.
Qed.

Lemma block_bounds ts p n :
  0 < ts -> 0 <= p < n * ts -> 0 <= p / ts < n.
Proof.
  intros Hts Hp. split; [apply Z.div_pos; lia|].
  apply Z.div_lt_upper_bound; lia.
Qed.

Definition tile_at (terrain_map : list (list string)) (y x : Z) : string :=
  match getitem2 terrain_map y x with
  | Ok t => t
  | Raise _ => EmptyString
  end.

Section Render.
Variables (terrain_map : list (list string)) (tile_size : Z) (h w : nat).
Hypothesis Hshape : shaped h w terrain_map.
Hypothesis Hts : 0 < tile_size.

Let sz : Z * Z := (Z.of_nat w * tile_size, Z.of_nat h * tile_size).

Lemma paint_tile x y c :
  0 <= x < Z.of_nat w -> 0 <= y < Z.of_nat h ->
  paints sz
    (fun pixels =>
       foldM (fun pixels dy =>
         foldM (fun pixels dx =>
           Image.putpixel pixels (x * tile_size + dx, y * tile_size + dy) c)
           (range tile_size) pixels)
         (range tile_size) pixels)
    (fun q => fst q / tile_size = x /\ snd q / tile_size = y)
    (fun _ => c).
Proof.
  intros Hx Hy.
  apply (foldM_paints sz _
           (fun dy q => fst q / tile_size = x /\ snd q = y * tile_size + dy)
           (fun _ _ => c)).
  - apply NoDup_range.
  - intros dy Hdy. apply In_range in Hdy.
    apply (foldM_paints sz _
             (fun dx q => q = (x * tile_size + dx, y * tile_size + dy))
             (fun _ _ => c)).
    + apply NoDup_range.
    + intros dx Hdx. apply In_range in Hdx. intros im Him.
      destruct (putpixel_in_range im (x * tile_size + dx)
                  (y * tile_size + dy) c) as (im' & Hput & Hsz & Hpix).
      * rewrite Him. unfold sz. cbn [fst]. nia.
      * rewrite Him. unfold sz. cbn [snd]. nia.
      * exists im'. split; [assumption|]. split; [congruence|assumption].
    + intros a b q _ _ Hab -> [= Heq]. apply Hab. lia.
    + intros [px py] [Hpx Hpy]. cbn [fst snd] in *.
      apply block_index in Hpx; [|assumption].
      exists (px - x * tile_size). split; [apply In_range; lia|].
      split; [|reflexivity]. f_equal; lia.
    + intros q dx Hdx ->. apply In_range in Hdx. cbn [fst snd].
      split; [|reflexivity]. apply block_index; lia.
  - intros a b q _ _ Hab [_ Ha] [_ Hb]. apply Hab. lia.
  - intros [px py] [Hpx Hpy]. cbn [fst snd] in *.
    apply block_index in Hpy; [|assumption].
    exists (py - y * tile_size). split; [apply In_range; lia|].
    split; [|reflexivity]. split; [assumption|lia].
  - intros q dy Hdy [Hpx Hpy]. apply In_range in Hdy.
    split; [assumption|]. apply block_index; lia.
Qed.

Lemma paint_row y :
  0 <= y < Z.of_nat h ->
  paints sz
    (fun pixels =>
       foldM (fun pixels x =>
         terrain <- getitem2 terrain_map y x ;;
         let color := TerrainRenderer.tile_color terrain in
         foldM (fun pixels dy =>
           foldM (fun pixels dx =>
             let px := x * tile_size + dx in
             let py := y * tile_size + dy in
             Image.putpixel pixels (px, py) color)
             (range tile_size) pixels)
           (range tile_size) pixels)
         (range (Z.of_nat w)) pixels)
    (fun q => 0 <= fst q < Z.of_nat w * tile_size /\ snd q / tile_size = y)
    (fun q => TerrainRenderer.tile_color
                (tile_at terrain_map y (fst q / tile_size))).
Proof.
  intros Hy.
  apply (foldM_paints sz _
           (fun x q => fst q / tile_size = x /\ snd q / tile_size = y)
           (fun x _ => TerrainRenderer.tile_color (tile_at terrain_map y x))).
  - apply NoDup_range.
  - intros x Hx. apply In_range in Hx. unfold tile_at.
    destruct (getitem2_shaped h w terrain_map x y Hshape Hx Hy)
      as (_ & t & _ & _ & _ & _ & ->).
    cbn [bind]. cbv zeta. now apply paint_tile.
  - intros a b q _ _ Hab [Ha _] [Hb _]. congruence.
  - intros q [Hpx Hpy]. exists (fst q / tile_size).
    split; [apply In_range; now apply block_bounds|]. auto.
  - intros q x Hx [Hpx Hpy]. apply In_range in Hx.
    split; [|assumption]. apply block_index in Hpx; [nia|assumption].
Qed.

Lemma paint_map :
  paints sz
    (fun pixels =>
       foldM (fun pixels y =>
         foldM (fun pixels x =>
           terrain <- getitem2 terrain_map y x ;;
           let color := TerrainRenderer.tile_color terrain in
           foldM (fun pixels dy =>
             foldM (fun pixels dx =>
               let px := x * tile_size + dx in
               let py := y * tile_size + dy in
               Image.putpixel pixels (px, py) color)
               (range tile_size) pixels)
             (range tile_size) pixels)
           (range (Z.of_nat w)) pixels)
         (range (Z.of_nat h)) pixels)
    (fun q => 0 <= fst q < Z.of_nat w * tile_size
              /\ 0 <= snd q < Z.of_nat h * tile_size)
    (fun q => TerrainRenderer.tile_color
                (tile_at terrain_map (snd q / tile_size) (fst q / tile_size))).
Proof.
  apply (foldM_paints sz _
           (fun y q => 0 <= fst q < Z.of_nat w * tile_size
                       /\ snd q / tile_size = y)
           (fun y q => TerrainRenderer.tile_color
                         (tile_at terrain_map y (fst q / tile_size)))).
  - apply NoDup_range.
  - intros y Hy. apply In_range in Hy. now apply paint_row.
  - intros a b q _ _ Hab [_ Ha] [_ Hb]. congruence.
  - intros q [Hpx Hpy]. exists (snd q / tile_size).
    split; [apply In_range; now apply block_bounds|]. auto.
  - intros q y Hy [Hpx Hpy]. apply In_range in Hy.
    split; [assumption|]. apply block_index in Hpy; [nia|assumption].
Qed.

Lemma render_spec :
  (0 < h)%nat ->
  exists image,
    TerrainRender.render terrain_map tile_size = Ok image
    /\ Image.size image = (Z.of_nat w * tile_size, Z.of_nat h * tile_size)
    /\ forall px py,
         0 <= px < Z.of_nat w * tile_size ->
         0 <= py < Z.of_nat h * tile_size ->
         exists terrain,
           getitem2 terrain_map (py / tile_size) (px / tile_size) = Ok terrain
           /\ Image.getpixel image (px, py)
              = Ok (TerrainRenderer.tile_color terrain).
Proof.
  intros Hh. unfold TerrainRender.render.
  destruct (shaped_row0 h w terrain_map Hshape Hh) as (row0 & -> & Hlen).
  cbn [bind]. rewrite Hlen, (proj1 Hshape).
  unfold Image.new. cbn [fst snd].
  destruct (Z.of_nat w * tile_size <? 0) eqn:E1; [nia|].
  destruct (Z.of_nat h * tile_size <? 0) eqn:E2; [nia|].
  cbn [orb bind].
  destruct (paint_map {| Image.size := sz; Image.data := [] |} eq_refl)
    as (image & Himg & Hsz & Hpix).
  exists image. split; [exact Himg|]. split; [exact Hsz|].
  intros px py Hpx Hpy.
  destruct (getitem2_shaped h w terrain_map (px / tile_size) (py / tile_size)
              Hshape) as (_ & t & _ & _ & _ & _ & Ht);
    [now apply block_bounds|now apply block_bounds|].
  exists t. split; [assumption|].
  unfold Image.getpixel. rewrite Hsz. unfold sz. cbn [fst snd].
  rewrite (index_in_range _ px Hpx). cbn [bind].
  rewrite (index_in_range _ py Hpy). cbn [bind].
  rewrite (proj1 (Hpix (px, py))) by (cbn [fst snd]; auto).
  cbn [fst snd]. unfold tile_at. now rewrite Ht.
Qed.

(** X22: On a rectangular map with at least one row and a positive tile size
    [render] never raises; the image is [tile_size] times the map in each
    direction, and every pixel has the palette colour (magenta for an
    unknown string) of the tile it lies in. *)
Theorem render_scales_tiles :
  (0 < h)%nat ->
  exists image,
    TerrainRender.render terrain_map tile_size = Ok image
    /\ Image.size image = (Z.of_nat w * tile_size, Z.of_nat h * tile_size)
    /\ forall px py,
         0 <= px < Z.of_nat w * tile_size ->
         0 <= py < Z.of_nat h * tile_size ->
         exists terrain,
           getitem2 terrain_map (py / tile_size) (px / tile_size) = Ok terrain
           /\ Image.getpixel image (px, py)
              = Ok (TerrainRenderer.tile_color terrain).
Proof. exact render_spec. Qed.
End Render.

Lemma tile_label_in_palette t :
  In t tile_labels ->
  In t (map fst TerrainRenderer.terrain_colors)
  /\ TerrainRenderer.tile_color t <> (255, 0, 255).
Proof.
  intros Ht. simpl in Ht.
  destruct Ht as [<-|[<-|[<-|[<-|[<-|[<-|[]]]]]]];
    (split; [simpl; tauto|vm_compute; discriminate]).
Qed.

(** X23: The run of [main]: for positive dimensions and tile size, the terrain
    map made by [BiomeGenerator.generate] is rendered without an exception,
    and every pixel has the palette colour of one of the six tile types,
    never the magenta kept for unknown strings. *)
Theorem generated_terrain_renders (np_sin np_cos : float -> float) s tile_size :
  0 < BiomeGenerator.width s -> 0 < BiomeGenerator.height s ->
  0 < tile_size ->
  exists log biome_map terrain_map image,
    BiomeGenerator.generate np_sin np_cos s
    = (log, Ok (biome_map, terrain_map))
    /\ TerrainRender.render terrain_map tile_size = Ok image
    /\ Image.size image = (BiomeGenerator.width s * tile_size,
                           BiomeGenerator.height s * tile_size)
    /\ forall px py,
         0 <= px < BiomeGenerator.width s * tile_size ->
         0 <= py < BiomeGenerator.height s * tile_size ->
         exists terrain,
           In terrain tile_labels
           /\ Image.getpixel image (px, py)
              = Ok (TerrainRenderer.tile_color terrain)
           /\ TerrainRenderer.tile_color terrain <> (255, 0, 255).
Proof.
  intros Hw Hh Hts.
  destruct (GenerateFacts.generate_spec np_sin np_cos s Hw Hh)
    as (log & bm & tm & Hgen & _ & Hs & _ & Htm).
  destruct (render_spec tm tile_size _ _ Hs Hts ltac:(lia))
    as (image & Hr & Hsz & Hpix).
  rewrite !Z2Nat.id in Hsz, Hpix by lia.
  exists log, bm, tm, image. repeat split; try assumption.
  intros px py Hpx Hpy. destruct (Hpix px py Hpx Hpy) as (t & Ht & Hc).
  exists t.
  assert (Hlab : In t tile_labels).
  { apply (WorldFacts.Forall_cells (fun v => In v tile_labels)
             _ _ tm (px / tile_size) (py / tile_size) t Hs);
      [|apply block_bounds; lia|apply block_bounds; lia|exact Ht].
    subst tm. apply Forall_map. apply Forall_forall. intros row _.
    apply Forall_map. apply Forall_forall. intros b _.
    apply terrain_for_biome_label. }
  split; [assumption|]. split; [assumption|].
  now apply tile_label_in_palette.
Qed.

Lemma render_scales_tiles_witness :
  exists image,
    TerrainRender.render [["sand"; "lava"]]%string 2 = Ok image
    /\ Image.size image = (Z.of_nat 2 * 2, Z.of_nat 1 * 2)
    /\ forall px py,
         0 <= px < Z.of_nat 2 * 2 -> 0 <= py < Z.of_nat 1 * 2 ->
         exists terrain,
           getitem2 [["sand"; "lava"]]%string (py / 2) (px / 2) = Ok terrain
           /\ Image.getpixel image (px, py)
              = Ok (TerrainRenderer.tile_color terrain).
Proof.
  apply (render_scales_tiles [["sand"; "lava"]]%string 2 1 2).
  - split; [reflexivity|]. repeat constructor.
  - lia.
  - lia.
Defined.

Lemma generated_terrain_renders_witness :
  exists log biome_map terrain_map image,
    BiomeGenerator.generate (fun v => v) (fun _ => 1%float)
      {| BiomeGenerator.width := 3; BiomeGenerator.height := 2;
         BiomeGenerator.seed := 7 |}
    = (log, Ok (biome_map, terrain_map))
    /\ TerrainRender.render terrain_map 4 = Ok image
    /\ Image.size image = (3 * 4, 2 * 4)
    /\ forall px py,
         0 <= px < 3 * 4 -> 0 <= py < 2 * 4 ->
         exists terrain,
           In terrain tile_labels
           /\ Image.getpixel image (px, py)
              = Ok (TerrainRenderer.tile_color terrain)
           /\ TerrainRenderer.tile_color terrain <> (255, 0, 255).
Proof.
  apply (generated_terrain_renders (fun v => v) (fun _ => 1%float)
           {| BiomeGenerator.width := 3; BiomeGenerator.height := 2;
              BiomeGenerator.seed := 7 |} 4); simpl; lia.
Defined.

End RenderFacts.

(** ** A complete run of the region partitioner *)
Module RegionRunFacts.
Import RegionGenerator PyFacts NoiseFacts GridFacts LoopFacts SeedFacts
       RegionFacts SmoothFacts RulePassFacts.

Lemma nearest_seed_range x y sds :
  (sds <> [] -> 0 <= nearest_seed x y sds < Z.of_nat (List.length sds))
  /\ (sds = [] -> nearest_seed x y sds = -1).
Proof.
  split.
  - intros Hne. destruct (nearest_seed_correct x y sds Hne) as (s & H0 & Hs & _).
    split; [assumption|].
    assert (Hlt : (Z.to_nat (nearest_seed x y sds) < List.length sds)%nat)
      by (apply nth_error_Some; congruence).
    lia.
  - intros ->. reflexivity.
Qed.

Lemma assign_tiles_shaped width height sds biome_map rm rd :
  _assign_tiles_to_regions width height sds biome_map = Ok (rm, rd) ->
  shaped (Z.to_nat height) (Z.to_nat width) rm.
Proof.
  unfold _assign_tiles_to_regions.
  destruct (foldM _ _ _) as [[rm0 rd0]|] eqn:Efold; cbn [bind]; [|discriminate].
  destruct (mapM _ rd0) as [rd1|]; cbn [bind]; [|discriminate].
  intros [= <- <-].
  exact (proj1 (foldM_invariant (assign_cell sds biome_map)
                  (assign_inv width height sds biome_map)
                  (cells width height)
                  (assign_cell_inv width height sds biome_map)
                  (cells width height) [] _ _ eq_refl
                  (assign_inv_init width height sds biome_map) Efold)).
Qed.

Section Run.
Context {G : Type} `{Random.Source G}.

Lemma seed_search_total width height num_regions biome_map (g : G) :
  1 <= num_regions -> 0 <= width * height < 2 ^ 1023 ->
  covers biome_map width height = true ->
  exists st g',
    seed_search width height num_regions biome_map g = (Ok st, g')
    /\ Z.of_nat (List.length (seeds st)) <= num_regions.
Proof.
  intros Hn Harea Hcov.
  destruct (MinDistanceFacts.min_distance_of_ok width height num_regions
              Harea Hn) as (d0 & Hd0 & _).
  unfold seed_search. rewrite Hd0.
  cbn [bind].
  match goal with
  | |- context [mapM ?f ?l] => destruct (mapM_ok f l) as (vp & -> & _)
  end.
  { intros [x y] Hc. unfold covers in Hcov. rewrite forallb_forall in Hcov.
    specialize (Hcov _ Hc). cbv beta iota in Hcov.
    destruct (getitem2 biome_map y x); [|discriminate]. cbn [bind]. eauto. }
  cbn [bind].
  match goal with
  | |- context [while_loop ?n ?d ?nr ?ma ?st0 g] =>
      destruct (while_loop_trace d nr ma n st0 g) as (k & _ & Heq & Hlt & _);
      rewrite Heq;
      pose proof (after_attempts_seeds_bounded nr ma k d st0 g
                    ltac:(simpl; lia) Hlt) as Hlen;
      destruct (after_attempts k d st0 g) as [st g']
  end.
  exists st, g'. split; [reflexivity|exact Hlen].
Qed.

Lemma generate_regions_spec width height num_regions biome_map
    min_region_size (g : G) :
  0 < width -> 0 < height -> width * height < 2 ^ 1023 ->
  1 <= num_regions -> covers biome_map width height = true ->
  exists region_map placed region_data g',
    generate_regions width height num_regions biome_map min_region_size g
    = (Ok (region_map, placed, region_data), g')
    /\ Z.of_nat (List.length placed) <= num_regions
    /\ shaped (Z.to_nat height) (Z.to_nat width) region_map
    /\ forall x y, 0 <= x < width -> 0 <= y < height ->
         exists v, getitem2 region_map y x = Ok v
           /\ (placed <> [] -> 0 <= v < Z.of_nat (List.length placed))
           /\ (placed = [] -> v = -1).
Proof.
  intros Hw Hh Hsize Hn Hcov.
  destruct (seed_search_total width height num_regions biome_map g Hn
              ltac:(split; [nia|assumption]) Hcov)
    as (st & g' & Hsearch & Hlen).
  unfold generate_regions, _generate_seed_points. rewrite Hsearch.
  cbn [bind].
  destruct (assign_tiles_total width height (seeds st) biome_map Hcov)
    as (rm & rd & Hassign).
  rewrite Hassign. cbn [bind].
  pose proof (assign_tiles_shaped _ _ _ _ _ _ Hassign) as Hshape.
  destruct (assign_tiles_spec width height (seeds st) biome_map rm rd Hassign)
    as (Hcell & _).
  unfold _smooth_regions.
  destruct (shaped_row0 _ _ rm Hshape ltac:(lia)) as (row0 & -> & Hrow0).
  cbn [bind]. rewrite Hrow0, (proj1 Hshape).
  destruct (smooth_iterations (Z.to_nat height) (Z.to_nat width) rm (range 2)
              rm Hshape) as (sm & -> & Hsm & Hids).
  { intros x y Hx Hy.
    destruct (getitem2_shaped _ _ rm x y Hshape Hx Hy)
      as (_ & v & _ & _ & _ & _ & Hv).
    exists v. split; [assumption|]. exists x, y. auto. }
  cbn [bind]. exists sm, (seeds st), rd, g'.
  split; [reflexivity|]. split; [assumption|]. split; [assumption|].
  intros x y Hx Hy.
  destruct (Hids x y ltac:(lia) ltac:(lia))
    as (v & Hv & x' & y' & Hx' & Hy' & Hrm).
  exists v. split; [assumption|].
  rewrite (Hcell x' y') in Hrm by lia. injection Hrm as <-.
  apply nearest_seed_range.
Qed.

(** X24: For positive dimensions and fewer than 2^1023 cells, at least one
    region asked for and a biome map that covers the map,
    [generate_regions] never raises: it returns
    at most [num_regions] seeds and a region map of [height] rows of
    [width] cells, every one of which holds the index of a returned seed,
    or -1 when no seed could be placed. *)
Theorem generate_regions_total width height num_regions biome_map
    min_region_size (g : G) :
  0 < width -> 0 < height -> width * height < 2 ^ 1023 ->
  1 <= num_regions -> covers biome_map width height = true ->
  exists region_map placed region_data g',
    generate_regions width height num_regions biome_map min_region_size g
    = (Ok (region_map, placed, region_data), g')
    /\ Z.of_nat (List.length placed) <= num_regions
    /\ shaped (Z.to_nat height) (Z.to_nat width) region_map
    /\ forall x y, 0 <= x < width -> 0 <= y < height ->
         exists v, getitem2 region_map y x = Ok v
           /\ (placed <> [] -> 0 <= v < Z.of_nat (List.length placed))
           /\ (placed = [] -> v = -1).
Proof.
  exact (generate_regions_spec width height num_regions biome_map
           min_region_size g).
Qed.

Lemma shaped_covers (biome_map : list (list string)) width height :
  shaped (Z.to_nat height) (Z.to_nat width) biome_map ->
  covers biome_map width height = true.
Proof.
  intros Hs. unfold covers. apply forallb_forall. intros [x y] Hc.
  apply In_cells in Hc.
  destruct (getitem2_shaped _ _ biome_map x y Hs)
    as (_ & v & _ & _ & _ & _ & ->); [lia|lia|reflexivity].
Qed.

Lemma np_random_seed_ok s :
  0 <= s <= 2 ^ 32 - 1 -> BiomeGenerator.np_random_seed s = Ok tt.
Proof.
  intros Hs. unfold BiomeGenerator.np_random_seed.
  destruct (Z.leb_spec 0 s); [|lia].
  destruct (Z.leb_spec s (2 ^ 32 - 1)); [reflexivity|lia].
Qed.

(** X25: The whole run of region_generator.py for a given seed: for positive
    dimensions and fewer than 2^1023 cells, a seed that fits 32 bits and
    at least one region asked for, no step raises; the biome, terrain and region maps all have
    [height] rows of [width] cells and at most [num_regions] seeds are
    returned. *)
Theorem pipeline_total (np_sin np_cos : float -> float) width height s
    num_regions (g : G) :
  0 < width -> 0 < height -> width * height < 2 ^ 1023 ->
  0 <= s <= 2 ^ 32 - 1 -> 1 <= num_regions ->
  exists w g',
    Pipeline.run np_sin np_cos width height (Some s) num_regions g
    = (Ok w, g')
    /\ shaped (Z.to_nat height) (Z.to_nat width) (Pipeline.biome_map w)
    /\ shaped (Z.to_nat height) (Z.to_nat width) (Pipeline.terrain_map w)
    /\ shaped (Z.to_nat height) (Z.to_nat width) (Pipeline.region_map w)
    /\ Z.of_nat (List.length (Pipeline.region_seeds w)) <= num_regions.
Proof.
  intros Hw Hh Hsize Hs Hn. unfold Pipeline.run, BiomeGenerator.__init__,
    RegionGenerator.__init__.
  rewrite (np_random_seed_ok s Hs). cbn [bind].
  destruct (GenerateFacts.generate_spec np_sin np_cos
              {| BiomeGenerator.width := width; BiomeGenerator.height := height;
                 BiomeGenerator.seed := s |} Hw Hh)
    as (log & bm & tm & Hgen & Hbm & Htm & _).
  cbn [BiomeGenerator.width BiomeGenerator.height] in Hbm, Htm.
  rewrite Hgen. cbn [snd].
  destruct (generate_regions_spec width height num_regions bm 20
              (Random.seeded s) Hw Hh Hsize Hn
              (shaped_covers bm width height Hbm))
    as (rm & placed & rd & g' & Hrun & Hlen & Hrm & _).
  rewrite Hrun. cbn [bind].
  eexists _, g'. split; [reflexivity|]. cbn. auto.
Qed.

(** X26: A seed that does not fit 32 bits stops the run at once: building the
    biome generator raises the [ValueError] of [np.random.seed]. *)
Theorem pipeline_seed_out_of_range (np_sin np_cos : float -> float)
    width height s num_regions (g : G) :
  ~ 0 <= s <= 2 ^ 32 - 1 ->
  exists msg,
    Pipeline.run np_sin np_cos width height (Some s) num_regions g
    = (Raise (ValueError msg), Random.seeded s).
Proof.
  intros Hs. unfold Pipeline.run, BiomeGenerator.__init__,
    BiomeGenerator.np_random_seed.
  destruct (Z.leb_spec 0 s); destruct (Z.leb_spec s (2 ^ 32 - 1));
    try lia; cbn; eauto.
Qed.
End Run.

#[local] Existing Instance Random.replay.

Lemma generate_regions_total_witness :
  exists region_map placed region_data g',
    generate_regions 3 1 2 meadow 20 [0%float; 0.99%float]
    = (Ok (region_map, placed, region_data), g')
    /\ Z.of_nat (List.length placed) <= 2
    /\ shaped (Z.to_nat 1) (Z.to_nat 3) region_map
    /\ forall x y, 0 <= x < 3 -> 0 <= y < 1 ->
         exists v, getitem2 region_map y x = Ok v
           /\ (placed <> [] -> 0 <= v < Z.of_nat (List.length placed))
           /\ (placed = [] -> v = -1).
Proof.
  apply (generate_regions_total 3 1 2 meadow 20 [0%float; 0.99%float]);
    [lia|lia|reflexivity|lia|reflexivity].
Defined.

Lemma pipeline_total_witness :
  exists w g',
    Pipeline.run (fun v => v) (fun _ => 1%float) 3 2 (Some 7) 2
      [0.5%float]
    = (Ok w, g')
    /\ shaped (Z.to_nat 2) (Z.to_nat 3) (Pipeline.biome_map w)
    /\ shaped (Z.to_nat 2) (Z.to_nat 3) (Pipeline.terrain_map w)
    /\ shaped (Z.to_nat 2) (Z.to_nat 3) (Pipeline.region_map w)
    /\ Z.of_nat (List.length (Pipeline.region_seeds w)) <= 2.
Proof.
  apply (pipeline_total (fun v => v) (fun _ => 1%float) 3 2 7 2 [0.5%float]);
    [lia|lia|reflexivity|lia|lia].
Defined.

Lemma pipeline_seed_out_of_range_witness :
  exists msg,
    Pipeline.run (fun v => v) (fun _ => 1%float) 3 2 (Some (-1)) 2
      [0.5%float]
    = (Raise (ValueError msg), Random.seeded (-1)).
Proof.
  apply (pipeline_seed_out_of_range (fun v => v) (fun _ => 1%float) 3 2 (-1) 2
           [0.5%float]).
  lia.
Defined.

End RegionRunFacts.

(** ** The region map renderer *)
Module RegionRenderFacts.
Import RegionGenerator RegionRender PyFacts NoiseFacts GridFacts LoopFacts
       SeedFacts RulePassFacts RenderFacts.

(** The id read at a cell (-1 where the read raises). *)
Definition id_at (g : list (list Z)) (y x : Z) : Z :=
  match getitem2 g y x with
  | Ok v => v
  | Raise _ => -1
  end.

Definition inside (width height x y : Z) : bool :=
  (0 <=? x) && (x <? width) && (0 <=? y) && (y <? height).

(** The test made at the offset [(dx, dy)] of the boundary scan. *)
Definition differs (g : list (list Z)) (width height x y dy dx : Z) : bool :=
  negb ((dx =? 0) && (dy =? 0))
  && inside width height (x + dx) (y + dy)
  && negb (id_at g (y + dy) (x + dx) =? id_at g y x).

Definition is_boundary (g : list (list Z)) (width height x y : Z) : bool :=
  existsb (fun dy => existsb (differs g width height x y dy) [-1; 0; 1])
          [-1; 0; 1].

(** A cell of the map next to [(x, y)], the diagonals included, holds
    another id. *)
Definition boundary (g : list (list Z)) (width height x y : Z) : Prop :=
  exists x' y',
    0 <= x' < width /\ 0 <= y' < height
    /\ Z.abs (x' - x) <= 1 /\ Z.abs (y' - y) <= 1 /\ (x', y') <> (x, y)
    /\ id_at g y' x' <> id_at g y x.

(** [(x, y)] is the seed of a record or one step away from it. *)
Definition near_seed (region_data : region_table) (x y : Z) : Prop :=
  exists k r, In (k, r) region_data
    /\ _manhattan_distance x y (fst (seed r)) (snd (seed r)) <= 1.

Lemma inside_spec width height x y :
  inside width height x y = true <-> 0 <= x < width /\ 0 <= y < height.
Proof. unfold inside. rewrite !andb_true_iff. lia. Qed.

Lemma In_steps d : In d [-1; 0; 1] <-> -1 <= d <= 1.
Proof. simpl. lia. Qed.

Lemma is_boundary_spec g width height x y :
  is_boundary g width height x y = true <-> boundary g width height x y.
Proof.
  unfold is_boundary, boundary. rewrite existsb_exists. split.
  - intros (dy & Hdy & Hex). apply existsb_exists in Hex as (dx & Hdx & Hd).
    apply In_steps in Hdy, Hdx. unfold differs in Hd.
    rewrite !andb_true_iff, !negb_true_iff, inside_spec in Hd.
    destruct Hd as [[Hne Hin] Hid].
    exists (x + dx), (y + dy).
    split; [lia|]. split; [lia|]. split; [lia|]. split; [lia|]. split.
    + intros [= Hx Hy].
      assert (dx = 0) by lia. assert (dy = 0) by lia. subst.
      discriminate.
    + now apply Z.eqb_neq.
  - intros (x' & y' & Hx & Hy & Hax & Hay & Hne & Hid).
    exists (y' - y). split; [apply In_steps; lia|].
    apply existsb_exists. exists (x' - x). split; [apply In_steps; lia|].
    unfold differs. replace (x + (x' - x)) with x' by lia.
    replace (y + (y' - y)) with y' by lia.
    rewrite !andb_true_iff, !negb_true_iff, inside_spec.
    split; [split; [|lia]|].
    + apply andb_false_iff.
      destruct (Z.eqb_spec (x' - x) 0) as [Ex|]; [|now left].
      destruct (Z.eqb_spec (y' - y) 0) as [Ey|]; [|now right].
      exfalso. apply Hne. f_equal; lia.
    + now apply Z.eqb_neq.
Qed.

Lemma id_at_shaped h w (g : list (list Z)) x y :
  shaped h w g -> 0 <= x < Z.of_nat w -> 0 <= y < Z.of_nat h ->
  getitem2 g y x = Ok (id_at g y x).
Proof.
  intros Hs Hx Hy. unfold id_at.
  destruct (getitem2_shaped h w g x y Hs Hx Hy) as (_ & v & _ & _ & _ & _ & ->).
  reflexivity.
Qed.

Lemma scan_dx_spec h w (g : list (list Z)) x y dy dxs :
  shaped h w g ->
  scan_dx g (Z.of_nat w) (Z.of_nat h) x y (id_at g y x) dy dxs
  = Ok (existsb (differs g (Z.of_nat w) (Z.of_nat h) x y dy) dxs).
Proof.
  intros Hs. induction dxs as [|dx t IH]; [reflexivity|].
  cbn [scan_dx existsb]. unfold differs at 1.
  destruct ((dx =? 0) && (dy =? 0)); [exact IH|]. cbn [negb andb].
  fold (inside (Z.of_nat w) (Z.of_nat h) (x + dx) (y + dy)).
  destruct (inside _ _ (x + dx) (y + dy)) eqn:Ein; [|exact IH].
  apply inside_spec in Ein.
  rewrite (id_at_shaped h w g (x + dx) (y + dy) Hs) by lia. cbn [bind andb].
  destruct (negb (id_at g (y + dy) (x + dx) =? id_at g y x)); [reflexivity|].
  exact IH.
Qed.

Lemma scan_dy_spec h w (g : list (list Z)) x y dys :
  shaped h w g ->
  scan_dy g (Z.of_nat w) (Z.of_nat h) x y (id_at g y x) dys
  = Ok (existsb (fun dy =>
          existsb (differs g (Z.of_nat w) (Z.of_nat h) x y dy) [-1; 0; 1])
          dys).
Proof.
  intros Hs.
  set (row := fun dy =>
         existsb (differs g (Z.of_nat w) (Z.of_nat h) x y dy) [-1; 0; 1]).
  induction dys as [|dy t IH]; [reflexivity|].
  change (existsb row (dy :: t)) with (row dy || existsb row t).
  cbn [scan_dy]. rewrite (scan_dx_spec h w g x y dy _ Hs).
  cbn [bind]. fold (row dy). destruct (row dy); [reflexivity|exact IH].
Qed.

Lemma fold_max_ge t :
  forall a, a <= fold_left Z.max t a
            /\ forall v, In v t -> v <= fold_left Z.max t a.
Proof.
  induction t as [|b t IH]; intros a; simpl; [split; [lia|tauto]|].
  destruct (IH (Z.max a b)) as [Ha Ht]. split; [lia|].
  intros v [<-|Hv]; [lia|auto].
Qed.

Lemma py_max_ge l m : py_max l = Ok m -> forall v, In v l -> v <= m.
Proof.
  destruct l as [|a t]; [discriminate|]. simpl.
  destruct (fold_max_ge t a) as [Ha Ht].
  intros [= <-] v [<-|Hv]; [assumption|now apply Ht].
Qed.

(** [max(max(row) for row in region_map)] on a map with a cell. *)
Lemma rows_max_ok h w (g : list (list Z)) :
  shaped h w g -> (0 < h)%nat -> (0 < w)%nat ->
  exists m, (maxima <- mapM py_max g ;; py_max maxima) = Ok m
            /\ Forall (Forall (fun v => v <= m)) g.
Proof.
  intros [Hh Hw] Hhpos Hwpos. rewrite Forall_forall in Hw.
  destruct (mapM_ok py_max g) as (maxima & Hmax & Hlen).
  { intros row Hrow. specialize (Hw row Hrow).
    destruct row as [|a t]; [simpl in Hw; lia|]. simpl. eauto. }
  rewrite Hmax. cbn [bind].
  destruct maxima as [|a t] eqn:Em; [simpl in Hlen; lia|]. rewrite <- Em in *.
  assert (Hm : exists m, py_max maxima = Ok m) by (rewrite Em; simpl; eauto).
  destruct Hm as (m & Hm). exists m. split; [assumption|].
  apply Forall_forall. intros row Hrow. apply Forall_forall. intros v Hv.
  apply In_nth_error in Hrow as (i & Hi).
  destruct (mapM_nth py_max g maxima Hmax i row Hi) as (b & Hb & Hnth).
  apply Z.le_trans with b; [now apply (py_max_ge row)|].
  apply (py_max_ge maxima m Hm). eapply nth_error_In; eassumption.
Qed.

Lemma getitem_map_range {A} (f : Z -> A) n i :
  0 <= i < n -> getitem (map f (range n)) i = Ok (f i).
Proof.
  intros Hi. rewrite getitem_nonneg by lia.
  rewrite nth_error_map, nth_error_range.
  destruct (Nat.ltb_spec (Z.to_nat i) (Z.to_nat n)) as [_|E]; [|lia].
  simpl. now rewrite Z2Nat.id by lia.
Qed.

Section Colors.
Context {G : Type} `{Random.Source G}.

(** The colour of region [i]: three draws from the generator seeded with
    [seed + i]. *)
Definition color_of (seed i : Z) : color :=
  let g := Random.seeded (seed + i) in
  let (r, g) := Random.randint 50 200 g in
  let (gr, g) := Random.randint 50 200 g in
  let (b, g) := Random.randint 50 200 g in
  (r, gr, b).

Lemma region_colors_spec seed n (g : G) :
  fst (region_colors seed n g) = map (color_of seed) (range n).
Proof.
  unfold region_colors.
  assert (Hgen : forall l acc (g : G),
    fst (fold_left (fun '(colors, g) i =>
           let g := Random.seeded (seed + i) in
           let (r, g) := Random.randint 50 200 g in
           let (gr, g) := Random.randint 50 200 g in
           let (b, g) := Random.randint 50 200 g in
           (colors ++ [(r, gr, b)], g)) l (acc, g))
    = acc ++ map (color_of seed) l).
  { induction l as [|i t IH]; intros acc g0; simpl; [now rewrite app_nil_r|].
    pose proof (eq_refl (color_of seed i)) as Hc.
    unfold color_of at 2 in Hc. cbv zeta in Hc.
    destruct (Random.randint 50 200 (Random.seeded (seed + i))) as [r g1].
    destruct (Random.randint 50 200 g1) as [gr g2].
    destruct (Random.randint 50 200 g2) as [b g3].
    rewrite IH, <- app_assoc, Hc. reflexivity. }
  apply (Hgen (range n) [] g).
Qed.
End Colors.

(** A loop whose passes all paint with one colour paints the union of
    their regions, which may overlap. *)
Lemma foldM_paints_const {A} sz (f : Image.t -> A -> result Image.t)
    (R : A -> Z * Z -> Prop) (c : color) (l : list A) :
  (forall a q, R a q \/ ~ R a q) ->
  (forall a, In a l -> paints sz (fun im => f im a) (R a) (fun _ => c)) ->
  paints sz (fun im => foldM f l im)
    (fun q => exists a, In a l /\ R a q) (fun _ => c).
Proof.
  intros Hdec. induction l as [|a t IH]; intros Hp im Him; simpl.
  - exists im. split; [reflexivity|]. split; [assumption|].
    intros q. split; [intros (a & [] & _)|reflexivity].
  - destruct (Hp a (or_introl eq_refl) im Him) as (im1 & -> & Him1 & H1).
    cbn [bind].
    destruct (IH (fun b Hb => Hp b (or_intror Hb)) im1 Him1)
      as (im' & Hf & Him' & H').
    exists im'. split; [assumption|]. split; [assumption|].
    assert (Hrest : forall q, (exists b, In b t /\ R b q)
                              \/ ~ (exists b, In b t /\ R b q)).
    { intros q. clear -Hdec. induction t as [|b t IHt].
      - right. intros (b & [] & _).
      - destruct (Hdec b q) as [Hb|Hb]; [left; exists b; split; auto; now left|].
        destruct IHt as [(b' & Hin & Hb')|Hno];
          [left; exists b'; split; auto; now right|].
        right. intros (b' & [<-|Hin] & Hb'); [contradiction|].
        apply Hno. eauto. }
    intros q. split.
    + intros (b & [<-|Hb] & HR).
      * destruct (Hrest q) as [Hsome|Hnone].
        -- now apply (proj1 (H' q)).
        -- rewrite (proj2 (H' q) Hnone). now apply (proj1 (H1 q)).
      * apply (proj1 (H' q)). eauto.
    + intros Hno. rewrite (proj2 (H' q)), (proj2 (H1 q)).
      * reflexivity.
      * intros Ha. apply Hno. exists a. split; [now left|assumption].
      * intros (b & Hb & HR). apply Hno. exists b. split; [now right|assumption].
Qed.

Section Passes.
Variables (region_map : list (list Z)) (h w : nat).
Hypothesis Hshape : shaped h w region_map.

Let sz : Z * Z := (Z.of_nat w, Z.of_nat h).

Lemma fill_paints (colors : Z -> color) n :
  Forall (Forall (fun v => 0 <= v < n)) region_map ->
  paints sz
    (fill_regions region_map (Z.of_nat w) (Z.of_nat h) (map colors (range n)))
    (fun q => 0 <= fst q < Z.of_nat w /\ 0 <= snd q < Z.of_nat h)
    (fun q => colors (id_at region_map (snd q) (fst q))).
Proof.
  intros Hids. unfold fill_regions.
  apply (foldM_paints sz _
           (fun y q => 0 <= fst q < Z.of_nat w /\ snd q = y)
           (fun y q => colors (id_at region_map y (fst q)))).
  - apply NoDup_range.
  - intros y Hy. apply In_range in Hy.
    apply (foldM_paints sz _
             (fun x q => q = (x, y))
             (fun x _ => colors (id_at region_map y x))).
    + apply NoDup_range.
    + intros x Hx. apply In_range in Hx. intros im Him.
      pose proof (id_at_shaped h w region_map x y Hshape Hx Hy) as Hid.
      rewrite Hid. cbn [bind].
      rewrite getitem_map_range
        by exact (WorldFacts.Forall_cells (fun v => 0 <= v < n) h w
                    region_map x y _ Hshape Hids Hx Hy Hid).
      cbn [bind].
      destruct (putpixel_in_range im x y (colors (id_at region_map y x)))
        as (im' & Hput & Hsz & Hpix);
        [rewrite Him; exact Hx|rewrite Him; exact Hy|].
      exists im'. split; [assumption|]. split; [congruence|assumption].
    + intros a b q _ _ Hab -> [= E]. contradiction.
    + intros [px py] [Hpx Hpy]. cbn [fst snd] in *. subst py.
      exists px. split; [now apply In_range|]. split; reflexivity.
    + intros q x Hx ->. apply In_range in Hx. cbn [fst snd]. split; auto.
  - intros a b q _ _ Hab [_ Ha] [_ Hb]. congruence.
  - intros q [Hpx Hpy]. exists (snd q). split; [now apply In_range|].
    split; [split; auto|reflexivity].
  - intros q y Hy [Hpx Hpy]. apply In_range in Hy. split; [assumption|lia].
Qed.

Lemma boundary_paints :
  paints sz
    (draw_boundaries region_map (Z.of_nat w) (Z.of_nat h))
    (fun q => (0 <= fst q < Z.of_nat w /\ 0 <= snd q < Z.of_nat h)
              /\ is_boundary region_map (Z.of_nat w) (Z.of_nat h)
                   (fst q) (snd q) = true)
    (fun _ => (0, 0, 0)).
Proof.
  unfold draw_boundaries.
  apply (foldM_paints sz _
           (fun y q => (0 <= fst q < Z.of_nat w /\ snd q = y)
                       /\ is_boundary region_map (Z.of_nat w) (Z.of_nat h)
                            (fst q) y = true)
           (fun _ _ => (0, 0, 0))).
  - apply NoDup_range.
  - intros y Hy. apply In_range in Hy.
    apply (foldM_paints sz _
             (fun x q => q = (x, y)
                         /\ is_boundary region_map (Z.of_nat w) (Z.of_nat h)
                              x y = true)
             (fun _ _ => (0, 0, 0))).
    + apply NoDup_range.
    + intros x Hx. apply In_range in Hx. intros im Him.
      rewrite (id_at_shaped h w region_map x y Hshape Hx Hy). cbn [bind].
      rewrite (scan_dy_spec h w region_map x y _ Hshape). cbn [bind].
      fold (is_boundary region_map (Z.of_nat w) (Z.of_nat h) x y).
      destruct (is_boundary region_map (Z.of_nat w) (Z.of_nat h) x y).
      * destruct (putpixel_in_range im x y (0, 0, 0))
          as (im' & Hput & Hsz & Hpix);
          [rewrite Him; exact Hx|rewrite Him; exact Hy|].
        exists im'. split; [assumption|]. split; [congruence|].
        intros q. split; [intros [-> _]; now apply (proj1 (Hpix _))|].
        intros Hq. apply (proj2 (Hpix q)). intros ->. now apply Hq.
      * exists im. split; [reflexivity|]. split; [assumption|].
        intros q. split; [intros [_ Hb]; discriminate|reflexivity].
    + intros a b q _ _ Hab [-> _] [[= E] _]. contradiction.
    + intros [px py] [[Hpx Hpy] Hb]. cbn [fst snd] in *. subst py.
      exists px. split; [now apply In_range|]. split; [|reflexivity].
      split; [reflexivity|assumption].
    + intros q x Hx [-> Hb]. apply In_range in Hx. cbn [fst snd].
      split; [split; auto|assumption].
  - intros a b q _ _ Hab [[_ Ha] _] [[_ Hb] _]. congruence.
  - intros q [[Hpx Hpy] Hb]. exists (snd q). split; [now apply In_range|].
    split; [|reflexivity]. split; [split; auto|assumption].
  - intros q y Hy [[Hpx Hpy] Hb]. apply In_range in Hy. subst y.
    split; [split; [assumption|lia]|assumption].
Qed.

Lemma NoDup_steps : NoDup [-1; 0; 1].
Proof.
  repeat constructor; simpl; intuition discriminate.
Qed.

Lemma cross_paints sx sy :
  paints sz
    (fun pixels =>
       foldM (fun pixels dx =>
         foldM (fun pixels dy =>
           if (dx =? 0) || (dy =? 0)
           then
             let nx := sx + dx in
             let ny := sy + dy in
             if (0 <=? nx) && (nx <? Z.of_nat w)
                && (0 <=? ny) && (ny <? Z.of_nat h)
             then Image.putpixel pixels (nx, ny) (255, 255, 255)
             else Ok pixels
           else Ok pixels)
           [-1; 0; 1] pixels)
         [-1; 0; 1] pixels)
    (fun q => inside (Z.of_nat w) (Z.of_nat h) (fst q) (snd q) = true
              /\ _manhattan_distance (fst q) (snd q) sx sy <= 1)
    (fun _ => (255, 255, 255)).
Proof.
  apply (foldM_paints sz _
           (fun dx q => inside (Z.of_nat w) (Z.of_nat h) (fst q) (snd q) = true
                        /\ fst q = sx + dx
                        /\ _manhattan_distance (fst q) (snd q) sx sy <= 1)
           (fun _ _ => (255, 255, 255))).
  - apply NoDup_steps.
  - intros dx Hdx. apply In_steps in Hdx.
    apply (foldM_paints sz _
             (fun dy q => inside (Z.of_nat w) (Z.of_nat h) (fst q) (snd q) = true
                          /\ q = (sx + dx, sy + dy) /\ (dx = 0 \/ dy = 0))
             (fun _ _ => (255, 255, 255))).
    + apply NoDup_steps.
    + intros dy Hdy. apply In_steps in Hdy. intros im Him.
      destruct ((dx =? 0) || (dy =? 0)) eqn:Ecross.
      * cbv zeta.
        fold (inside (Z.of_nat w) (Z.of_nat h) (sx + dx) (sy + dy)).
        destruct (inside _ _ (sx + dx) (sy + dy)) eqn:Ein.
        -- pose proof (proj1 (inside_spec _ _ _ _) Ein) as [Hx Hy].
           destruct (putpixel_in_range im (sx + dx) (sy + dy) (255, 255, 255))
             as (im' & Hput & Hsz & Hpix);
             [rewrite Him; exact Hx|rewrite Him; exact Hy|].
           exists im'. split; [assumption|]. split; [congruence|].
           intros q. split; [intros (_ & -> & _); now apply (proj1 (Hpix _))|].
           intros Hq. apply (proj2 (Hpix q)). intros ->. apply Hq.
           cbn [fst snd]. split; [assumption|]. split; [reflexivity|].
           apply orb_true_iff in Ecross. lia.
        -- exists im. split; [reflexivity|]. split; [assumption|].
           intros q. split; [|reflexivity].
           intros (Hin & -> & _). cbn [fst snd] in Hin. congruence.
      * exists im. split; [reflexivity|]. split; [assumption|].
        intros q. split; [|reflexivity].
        intros (_ & _ & Hc). apply orb_false_iff in Ecross. lia.
    + intros a b q _ _ Hab (_ & -> & _) (_ & [= E] & _). lia.
    + intros [px py] (Hin & Hpx & Hd). cbn [fst snd] in *.
      unfold _manhattan_distance in Hd.
      exists (py - sy). split; [apply In_steps; lia|].
      split; [|reflexivity]. split; [assumption|].
      split; [f_equal; lia|lia].
    + intros q dy Hdy (Hin & -> & Hc). apply In_steps in Hdy.
      cbn [fst snd] in *. split; [assumption|]. split; [reflexivity|].
      unfold _manhattan_distance. lia.
  - intros a b q _ _ Hab (_ & Ha & _) (_ & Hb & _). lia.
  - intros [px py] (Hin & Hd). cbn [fst snd] in *.
    unfold _manhattan_distance in Hd.
    exists (px - sx). split; [apply In_steps; lia|].
    split; [|reflexivity]. split; [assumption|].
    split; [lia|unfold _manhattan_distance; lia].
  - intros q dx Hdx (Hin & _ & Hd). split; assumption.
Qed.

Lemma seeds_paints (region_data : region_table) :
  paints sz
    (draw_seeds region_data (Z.of_nat w) (Z.of_nat h))
    (fun q => inside (Z.of_nat w) (Z.of_nat h) (fst q) (snd q) = true
              /\ near_seed region_data (fst q) (snd q))
    (fun _ => (255, 255, 255)).
Proof.
  intros im Him.
  destruct (foldM_paints_const sz
              (fun pixels '(region_id, data) =>
                 let '(x, y) := seed data in
                 foldM (fun pixels dx =>
                   foldM (fun pixels dy =>
                     if (dx =? 0) || (dy =? 0)
                     then
                       let nx := x + dx in
                       let ny := y + dy in
                       if (0 <=? nx) && (nx <? Z.of_nat w)
                          && (0 <=? ny) && (ny <? Z.of_nat h)
                       then Image.putpixel pixels (nx, ny) (255, 255, 255)
                       else Ok pixels
                     else Ok pixels)
                     [-1; 0; 1] pixels)
                   [-1; 0; 1] pixels)
              (fun kr q =>
                 inside (Z.of_nat w) (Z.of_nat h) (fst q) (snd q) = true
                 /\ _manhattan_distance (fst q) (snd q)
                      (fst (seed (snd kr))) (snd (seed (snd kr))) <= 1)
              (255, 255, 255) region_data) with (im := im)
    as (im' & Hf & Him' & H').
  - intros kr q.
    destruct (inside (Z.of_nat w) (Z.of_nat h) (fst q) (snd q));
      [|right; intros [E _]; discriminate].
    destruct (Z_le_dec (_manhattan_distance (fst q) (snd q)
                (fst (seed (snd kr))) (snd (seed (snd kr)))) 1);
      [left; auto|right; intros [_ E]; contradiction].
  - intros [k data] _. cbn [fst snd].
    destruct (seed data) as [sx sy]. cbn [fst snd]. apply cross_paints.
  - assumption.
  - exists im'. split; [exact Hf|]. split; [assumption|].
    intros q. split.
    + intros (Hin & k & r & Hkr & Hd). apply (proj1 (H' q)).
      exists (k, r). split; [assumption|]. split; assumption.
    + intros Hno. apply (proj2 (H' q)).
      intros ([k r] & Hkr & Hin & Hd). apply Hno.
      split; [assumption|]. exists k, r. split; assumption.
Qed.
End Passes.

Section RenderMap.
Context {G : Type} `{Random.Source G}.

Lemma render_region_map_spec seed (region_map : list (list Z))
    (region_data : region_table) (g : G) h w :
  shaped h w region_map -> (0 < h)%nat -> (0 < w)%nat ->
  Forall (Forall (fun v => 0 <= v)) region_map ->
  exists image,
    fst (render_region_map seed region_map region_data g) = Ok image
    /\ Image.size image = (Z.of_nat w, Z.of_nat h)
    /\ forall x y, 0 <= x < Z.of_nat w -> 0 <= y < Z.of_nat h ->
         exists id,
           getitem2 region_map y x = Ok id
           /\ (near_seed region_data x y ->
                 Image.getpixel image (x, y) = Ok (255, 255, 255))
           /\ (~ near_seed region_data x y ->
               boundary region_map (Z.of_nat w) (Z.of_nat h) x y ->
                 Image.getpixel image (x, y) = Ok (0, 0, 0))
           /\ (~ near_seed region_data x y ->
               ~ boundary region_map (Z.of_nat w) (Z.of_nat h) x y ->
                 Image.getpixel image (x, y) = Ok (color_of seed id)).
Proof.
  intros Hs Hh Hw Hpos. unfold render_region_map.
  destruct (shaped_row0 h w region_map Hs Hh) as (row0 & -> & Hlen).
  cbn [bind]. rewrite Hlen, (proj1 Hs).
  destruct (rows_max_ok h w region_map Hs Hh Hw) as (m & Hm & Hle).
  destruct (mapM py_max region_map) as [maxima|]; cbn [bind] in Hm |- *;
    [|discriminate].
  rewrite Hm. cbn [bind].
  pose proof (region_colors_spec seed (m + 1) g) as Hcolors.
  destruct (region_colors seed (m + 1) g) as [colors g']. cbn [fst] in Hcolors.
  subst colors. cbn [fst].
  unfold Image.new. cbn [fst snd].
  destruct (Z.of_nat w <? 0) eqn:E1; [lia|].
  destruct (Z.of_nat h <? 0) eqn:E2; [lia|]. cbn [orb bind].
  assert (Hids : Forall (Forall (fun v => 0 <= v < m + 1)) region_map).
  { rewrite Forall_forall in Hpos, Hle. apply Forall_forall. intros row Hrow.
    specialize (Hpos row Hrow). specialize (Hle row Hrow).
    rewrite Forall_forall in Hpos, Hle. apply Forall_forall. intros v Hv.
    specialize (Hpos v Hv). specialize (Hle v Hv). lia. }
  destruct (fill_paints region_map h w Hs (color_of seed) (m + 1) Hids
              {| Image.size := (Z.of_nat w, Z.of_nat h); Image.data := [] |}
              eq_refl) as (im1 & -> & Hsz1 & H1).
  cbn [bind].
  destruct (boundary_paints region_map h w Hs im1 Hsz1)
    as (im2 & -> & Hsz2 & H2).
  cbn [bind].
  destruct (seeds_paints h w region_data im2 Hsz2) as (im3 & -> & Hsz3 & H3).
  exists im3. split; [reflexivity|]. split; [exact Hsz3|].
  intros x y Hx Hy. exists (id_at region_map y x).
  split; [now apply (id_at_shaped h w)|].
  assert (Hget : Image.getpixel im3 (x, y) = Ok (Image.pixel_at im3 (x, y))).
  { unfold Image.getpixel. rewrite Hsz3. cbn [fst snd].
    rewrite (index_in_range _ x Hx). cbn [bind].
    rewrite (index_in_range _ y Hy). reflexivity. }
  rewrite Hget.
  assert (Hin : inside (Z.of_nat w) (Z.of_nat h) x y = true)
    by (apply inside_spec; auto).
  split; [|split].
  - intros Hnear. f_equal. apply (proj1 (H3 (x, y))). cbn [fst snd]. auto.
  - intros Hfar Hb. f_equal.
    rewrite (proj2 (H3 (x, y))) by (cbn [fst snd]; tauto).
    apply (proj1 (H2 (x, y))). cbn [fst snd].
    split; [auto|]. now apply is_boundary_spec.
  - intros Hfar Hb. f_equal.
    rewrite (proj2 (H3 (x, y))) by (cbn [fst snd]; tauto).
    rewrite (proj2 (H2 (x, y))).
    + apply (proj1 (H1 (x, y))). cbn [fst snd]. auto.
    + cbn [fst snd]. intros [_ Hb']. apply Hb. now apply is_boundary_spec.
Qed.

(** X27: On a rectangular region map with at least one cell and no negative
    id, [render_region_map] never raises, whatever the records.  The image
    has the size of the map, and a pixel is white at a recorded seed and
    one step beside, above and below it; otherwise black when one of its
    eight neighbours in the map holds another id; otherwise the colour of
    its region, which is drawn from the generator seeded with [seed] plus
    the region id. *)
Theorem render_region_map_pixels seed (region_map : list (list Z))
    (region_data : region_table) (g : G) h w :
  shaped h w region_map -> (0 < h)%nat -> (0 < w)%nat ->
  Forall (Forall (fun v => 0 <= v)) region_map ->
  exists image,
    fst (render_region_map seed region_map region_data g) = Ok image
    /\ Image.size image = (Z.of_nat w, Z.of_nat h)
    /\ forall x y, 0 <= x < Z.of_nat w -> 0 <= y < Z.of_nat h ->
         exists id,
           getitem2 region_map y x = Ok id
           /\ (near_seed region_data x y ->
                 Image.getpixel image (x, y) = Ok (255, 255, 255))
           /\ (~ near_seed region_data x y ->
               boundary region_map (Z.of_nat w) (Z.of_nat h) x y ->
                 Image.getpixel image (x, y) = Ok (0, 0, 0))
           /\ (~ near_seed region_data x y ->
               ~ boundary region_map (Z.of_nat w) (Z.of_nat h) x y ->
                 Image.getpixel image (x, y) = Ok (color_of seed id)).
Proof. exact (render_region_map_spec seed region_map region_data g h w). Qed.

Lemma render_unassigned seed (region_map : list (list Z))
    (region_data : region_table) (g : G) h w :
  shaped h w region_map -> (0 < h)%nat -> (0 < w)%nat ->
  Forall (Forall (fun v => v = -1)) region_map ->
  render_region_map seed region_map region_data g = (Raise IndexError, g).
Proof.
  intros Hs Hh Hw Hall. unfold render_region_map.
  destruct (shaped_row0 h w region_map Hs Hh) as (row0 & -> & Hlen).
  cbn [bind]. rewrite Hlen, (proj1 Hs).
  destruct (rows_max_ok h w region_map Hs Hh Hw) as (m & Hm & Hle).
  assert (Hm1 : m = -1).
  { destruct (mapM py_max region_map) as [maxima|] eqn:Emax;
      cbn [bind] in Hm; [|discriminate].
    assert (Hmax : Forall (fun v => v = -1) maxima).
    { eapply mapM_Forall; [|exact Emax]. intros row b Hrow Hb.
      rewrite Forall_forall in Hall. specialize (Hall row Hrow).
      destruct row as [|a t]; [discriminate|]. injection Hb as <-.
      inversion Hall as [|? ? Ha Ht]; subst. clear -Ht.
      induction Ht as [|b t -> _ IH]; simpl; [reflexivity|exact IH]. }
    destruct maxima as [|a t]; [discriminate|]. injection Hm as <-.
    inversion Hmax as [|? ? Ha Ht]; subst. clear -Ht.
    induction Ht as [|b t -> _ IH]; simpl; [reflexivity|exact IH]. }
  subst m.
  destruct (mapM py_max region_map) as [maxima|]; cbn [bind] in Hm |- *;
    [|discriminate].
  rewrite Hm. cbn [bind].
  change (-1 + 1) with 0. unfold region_colors. cbn [range Z.to_nat seq map fold_left].
  unfold Image.new. cbn [fst snd].
  destruct (Z.of_nat w <? 0) eqn:E1; [lia|].
  destruct (Z.of_nat h <? 0) eqn:E2; [lia|]. cbn [orb bind].
  f_equal. unfold fill_regions.
  destruct h as [|h']; [lia|]. destruct w as [|w']; [lia|].
  unfold range. rewrite !Nat2Z.id. cbn [seq map foldM].
  pose proof (id_at_shaped _ _ region_map 0 0 Hs ltac:(lia) ltac:(lia)) as Hid.
  assert (Hv : id_at region_map 0 0 = -1)
    by exact (WorldFacts.Forall_cells (fun v => v = -1) _ _ region_map 0 0 _
                Hs Hall ltac:(lia) ltac:(lia) Hid).
  change (Z.of_nat 0) with 0. rewrite Hid, Hv. reflexivity.
Qed.

(** X28: A region map that holds only -1, which is what the assignment returns
    when no seed was placed, cannot be rendered: the colour table is empty
    and the first pixel raises [IndexError]; the generator is not
    reseeded. *)
Theorem render_region_map_no_seed seed (region_map : list (list Z))
    (region_data : region_table) (g : G) h w :
  shaped h w region_map -> (0 < h)%nat -> (0 < w)%nat ->
  Forall (Forall (fun v => v = -1)) region_map ->
  render_region_map seed region_map region_data g = (Raise IndexError, g).
Proof. exact (render_unassigned seed region_map region_data g h w). Qed.

(** X29: The end of [main] in region_generator.py, for positive dimensions
    and fewer than 2^1023 cells: the output of [generate_regions] is
    rendered without an exception as soon as one seed was placed, and
    raises [IndexError] when none was. *)
Theorem generated_regions_render seed width height num_regions biome_map
    min_region_size (g : G) :
  0 < width -> 0 < height -> width * height < 2 ^ 1023 ->
  1 <= num_regions -> covers biome_map width height = true ->
  exists region_map placed region_data g',
    generate_regions width height num_regions biome_map min_region_size g
    = (Ok (region_map, placed, region_data), g')
    /\ (placed <> [] ->
          exists image,
            fst (render_region_map seed region_map region_data g') = Ok image
            /\ Image.size image = (width, height))
    /\ (placed = [] ->
          fst (render_region_map seed region_map region_data g')
          = Raise IndexError).
Proof.
  intros Hw Hh Hsize Hn Hcov.
  destruct (RegionRunFacts.generate_regions_spec width height num_regions
              biome_map min_region_size g Hw Hh Hsize Hn Hcov)
    as (rm & placed & rd & g' & Hrun & _ & Hs & Hcells).
  exists rm, placed, rd, g'. split; [exact Hrun|].
  assert (Hcells' : forall P : Z -> Prop,
            (forall x y v, 0 <= x < width -> 0 <= y < height ->
               getitem2 rm y x = Ok v ->
               (placed <> [] -> 0 <= v < Z.of_nat (List.length placed)) ->
               (placed = [] -> v = -1) -> P v) ->
            Forall (Forall P) rm).
  { intros P HP. apply (WorldFacts.cells_Forall P _ _ rm Hs).
    intros x y Hx Hy. destruct (Hcells x y ltac:(lia) ltac:(lia))
      as (v & Hv & Hne & He).
    exists v. split; [assumption|]. apply (HP x y v); auto; lia. }
  split.
  - intros Hne.
    destruct (render_region_map_spec seed rm rd g' _ _ Hs
                ltac:(lia) ltac:(lia)) as (image & Himg & Hsz & _).
    { apply Hcells'. intros x y v _ _ _ Hv _. specialize (Hv Hne). lia. }
    exists image. split; [assumption|].
    rewrite Hsz, !Z2Nat.id by lia. reflexivity.
  - intros He.
    rewrite (render_unassigned seed rm rd g' _ _ Hs ltac:(lia) ltac:(lia));
      [reflexivity|].
    apply Hcells'. intros x y v _ _ _ _ Hv. exact (Hv He).
Qed.
End RenderMap.

#[local] Existing Instance Random.replay.

Lemma render_region_map_pixels_witness :
  exists image,
    fst (render_region_map 7 [[0; 0; 1]] [] [0.5%float]) = Ok image
    /\ Image.size image = (Z.of_nat 3, Z.of_nat 1)
    /\ forall x y, 0 <= x < Z.of_nat 3 -> 0 <= y < Z.of_nat 1 ->
         exists id,
           getitem2 [[0; 0; 1]] y x = Ok id
           /\ (near_seed [] x y ->
                 Image.getpixel image (x, y) = Ok (255, 255, 255))
           /\ (~ near_seed [] x y ->
               boundary [[0; 0; 1]] (Z.of_nat 3) (Z.of_nat 1) x y ->
                 Image.getpixel image (x, y) = Ok (0, 0, 0))
           /\ (~ near_seed [] x y ->
               ~ boundary [[0; 0; 1]] (Z.of_nat 3) (Z.of_nat 1) x y ->
                 Image.getpixel image (x, y) = Ok (color_of 7 id)).
Proof.
  apply (render_region_map_pixels 7 [[0; 0; 1]] [] [0.5%float] 1 3).
  - split; [reflexivity|]. repeat constructor.
  - lia.
  - lia.
  - repeat constructor; lia.
Defined.

Lemma render_region_map_no_seed_witness :
  render_region_map 7 [[-1; -1]] [] [0.5%float]
  = (Raise IndexError, [0.5%float]).
Proof.
  apply (render_region_map_no_seed 7 [[-1; -1]] [] [0.5%float] 1 2).
  - split; [reflexivity|]. repeat constructor.
  - lia.
  - lia.
  - repeat constructor.
Defined.

Lemma generated_regions_render_witness :
  exists region_map placed region_data g',
    generate_regions 3 1 2 meadow 20 [0%float; 0.99%float]
    = (Ok (region_map, placed, region_data), g')
    /\ (placed <> [] ->
          exists image,
            fst (render_region_map 7 region_map region_data g') = Ok image
            /\ Image.size image = (3, 1))
    /\ (placed = [] ->
          fst (render_region_map 7 region_map region_data g')
          = Raise IndexError).
Proof.
  apply (generated_regions_render 7 3 1 2 meadow 20 [0%float; 0.99%float]);
    [lia|lia|reflexivity|lia|reflexivity].
Defined.

End RegionRenderFacts.
